(** * Selector expressions: parser, literal compilers and three-valued evaluator

    A shallow embedding of [SelectorExpression.cpp]: the expression tree
    with its two evaluators ([eval] and [eval_bool]) and its printed form
    ([repr]), the operator singletons, the LIKE pattern translation [toRegex], the exact numeric
    literal compiler [parseExactNumeric], the recursive-descent parser of
    class [Parse] and the entry point [make_selector].

    The collaborators whose code lives in other files ([SelectorValue],
    [SelectorToken], [SelectorEnv], [<regex>], [strtod]) are either
    modelled from their documented contract or taken as parameters
    (class [Collaborators]). *)

From Stdlib Require Import ZArith List String Ascii Bool Lia.
From Stdlib Require DecimalString DecimalPos DecimalN DecimalFacts.
From Stdlib Require HexString BinaryString OctalString.
Import ListNotations.

Set Warnings "-register-all".

Local Open Scope list_scope.
Local Open Scope string_scope.

(** ** Tokens *)

(** The token kinds the parser switches on ([SelectorToken.h]). *)
Inductive TokenType : Type :=
| T_EOS | T_NULL | T_TRUE | T_FALSE | T_NOT | T_AND | T_OR | T_IN | T_IS
| T_BETWEEN | T_LIKE | T_ESCAPE | T_IDENTIFIER | T_STRING
| T_NUMERIC_EXACT | T_NUMERIC_APPROX | T_LPAREN | T_RPAREN | T_COMMA
| T_PLUS | T_MINUS | T_MULT | T_DIV
| T_EQUAL | T_NEQ | T_LESS | T_GRT | T_LSEQ | T_GREQ.

Definition TokenType_eqb (a b : TokenType) : bool :=
  match a, b with
  | T_EOS, T_EOS | T_NULL, T_NULL | T_TRUE, T_TRUE | T_FALSE, T_FALSE
  | T_NOT, T_NOT | T_AND, T_AND | T_OR, T_OR | T_IN, T_IN | T_IS, T_IS
  | T_BETWEEN, T_BETWEEN | T_LIKE, T_LIKE | T_ESCAPE, T_ESCAPE
  | T_IDENTIFIER, T_IDENTIFIER | T_STRING, T_STRING
  | T_NUMERIC_EXACT, T_NUMERIC_EXACT | T_NUMERIC_APPROX, T_NUMERIC_APPROX
  | T_LPAREN, T_LPAREN | T_RPAREN, T_RPAREN | T_COMMA, T_COMMA
  | T_PLUS, T_PLUS | T_MINUS, T_MINUS | T_MULT, T_MULT | T_DIV, T_DIV
  | T_EQUAL, T_EQUAL | T_NEQ, T_NEQ | T_LESS, T_LESS | T_GRT, T_GRT
  | T_LSEQ, T_LSEQ | T_GREQ, T_GREQ => true
  | _, _ => false
  end.

Record Token : Type := mkToken { type : TokenType; val : string }.

(** Modelled from the spec: the text of the end-of-stream token is not
    fixed by the token stream contract; the empty text is used. *)
Definition eosToken : Token := mkToken T_EOS "".

(** Modelled from the spec: the [Tokeniser] of [SelectorToken], whose code
    is not part of this file.  The contract is [nextToken] ("advances and
    returns the next token, or the end-of-stream token forever after
    exhaustion") and [returnTokens] ("restores the single most recently
    returned token so the next [nextToken] call yields it again").  The
    stream is the list of tokens the lexer yields for the selector text,
    without the final end-of-stream token. *)
Record Tokeniser : Type := mkTokeniser {
  pushback : option Token;   (* the one pushback slot *)
  lastToken : option Token;  (* the most recently returned token *)
  unread : list Token        (* what the lexer has still to deliver *)
}.

Definition newTokeniser (ts : list Token) : Tokeniser :=
  mkTokeniser None None ts.

Definition Tokeniser_nextToken (tk : Tokeniser) : Token * Tokeniser :=
  match pushback tk with
  | Some t => (t, mkTokeniser None (Some t) (unread tk))
  | None =>
      match unread tk with
      | [] => (eosToken, mkTokeniser None (Some eosToken) [])
      | t :: ts => (t, mkTokeniser None (Some t) ts)
      end
  end.

Definition Tokeniser_returnTokens (tk : Tokeniser) : Tokeniser :=
  mkTokeniser (lastToken tk) (lastToken tk) (unread tk).

(** ** Values and three-valued booleans *)

(** [enum BoolOrNone] of [SelectorValue.h]. *)
Inductive BoolOrNone : Type := BN_FALSE | BN_TRUE | BN_UNKNOWN.

Definition BoolOrNone_eqb (a b : BoolOrNone) : bool :=
  match a, b with
  | BN_FALSE, BN_FALSE | BN_TRUE, BN_TRUE | BN_UNKNOWN, BN_UNKNOWN => true
  | _, _ => false
  end.

(** The conversion [BoolOrNone(bool)]. *)
Definition BoolOrNone_of_bool (b : bool) : BoolOrNone :=
  if b then BN_TRUE else BN_FALSE.

(** The tagged union [Value]: the tag is [v.type], the payloads are
    [v.b], [*v.s], [v.i] (a signed 64-bit integer, kept as a [Z]) and
    [v.x] (a [double], whose type is a parameter). *)
Inductive Value (double : Type) : Type :=
| V_UNKNOWN
| V_BOOL (b : bool)
| V_STRING (s : string)
| V_EXACT (i : Z)
| V_INEXACT (x : double).

Arguments V_UNKNOWN {double}.
Arguments V_BOOL {double} b.
Arguments V_STRING {double} s.
Arguments V_EXACT {double} i.
Arguments V_INEXACT {double} x.

(** What this file takes from its collaborators without looking inside:
    [double] and [strtod] (with the [errno] it leaves), the relational and
    arithmetic operators of [Value], and [std::regex] (construction, which
    may throw [std::regex_error], and [std::regex_match]). *)
Class Collaborators : Type := {
  double : Type;
  strtod : string -> double * bool;
  Value_eq : Value double -> Value double -> bool;
  Value_neq : Value double -> Value double -> bool;
  Value_lt : Value double -> Value double -> bool;
  Value_gt : Value double -> Value double -> bool;
  Value_le : Value double -> Value double -> bool;
  Value_ge : Value double -> Value double -> bool;
  Value_neg : Value double -> Value double;
  Value_add : Value double -> Value double -> Value double;
  Value_sub : Value double -> Value double -> Value double;
  Value_mul : Value double -> Value double -> Value double;
  Value_div : Value double -> Value double -> Value double;
  regex : Type;
  regex_new : string -> option regex;
  regex_match : string -> regex -> bool
}.

Section Selector.

Context {C : Collaborators}.

#[local] Abbreviation Val := (Value double).

(** Modelled from the spec: the predicates of [SelectorValue.h] on the tag
    of a value ([isUnknown], [isNumeric], [sameType]). *)
Definition unknown (v : Val) : bool :=
  match v with V_UNKNOWN => true | _ => false end.

Definition numeric (v : Val) : bool :=
  match v with V_EXACT _ | V_INEXACT _ => true | _ => false end.

Definition sameType (v1 v2 : Val) : bool :=
  match v1, v2 with
  | V_UNKNOWN, V_UNKNOWN | V_BOOL _, V_BOOL _ | V_STRING _, V_STRING _
  | V_EXACT _, V_EXACT _ | V_INEXACT _, V_INEXACT _ => true
  | _, _ => false
  end.

(** Modelled from the spec: the conversion [Value(BoolOrNone)] used by
    [BoolExpression::eval] ("a boolean node's value is its tri-state
    result reinterpreted as a Value boolean, with Unknown treated as
    absent"). *)
Definition Value_of_BoolOrNone (bn : BoolOrNone) : Val :=
  match bn with
  | BN_FALSE => V_BOOL false
  | BN_TRUE => V_BOOL true
  | BN_UNKNOWN => V_UNKNOWN
  end.

(** [class Env]: [env.value(identifier)]. *)
Definition Env : Type := string -> Val.

(** ** Operators *)

Inductive ComparisonOperator : Type := Eq | Neq | Ls | Gr | Lseq | Greq.
Inductive UnaryBooleanOperator : Type := IsNull | IsNonNull | Not.
Inductive ArithmeticOperator : Type := Add | Sub | Mult | Div.
Inductive UnaryArithmeticOperator : Type := Negate.

(** ** The expression tree *)

Inductive ValueExpression : Type :=
| ComparisonExpression (op : ComparisonOperator) (e1 e2 : ValueExpression)
| OrExpression (e1 e2 : ValueExpression)
| AndExpression (e1 e2 : ValueExpression)
| UnaryBooleanExpression (op : UnaryBooleanOperator) (e1 : ValueExpression)
| LikeExpression (e : ValueExpression) (reString : string) (regexBuffer : regex)
| BetweenExpression (e l u : ValueExpression)
| InExpression (e : ValueExpression) (l : list ValueExpression)
| NotInExpression (e : ValueExpression) (l : list ValueExpression)
| ArithmeticExpression (op : ArithmeticOperator) (e1 e2 : ValueExpression)
| UnaryArithExpression (op : UnaryArithmeticOperator) (e1 : ValueExpression)
| Literal (value : Val)
| StringLiteral (value : string)
| Identifier (identifier : string).

(** [ValueExpression::eval_bool], the default for the nodes that are not
    boolean expressions. *)
Definition ValueExpression_eval_bool (v : Val) : BoolOrNone :=
  match v with
  | V_BOOL b => BoolOrNone_of_bool b
  | _ => BN_UNKNOWN
  end.

(** [booleval]: the operands are given by their values. *)
Definition booleval (op : Val -> Val -> bool) (v1 v2 : Val) : BoolOrNone :=
  if negb (unknown v1) then
    if negb (unknown v2) then BoolOrNone_of_bool (op v1 v2)
    else BN_UNKNOWN
  else BN_UNKNOWN.

Definition ComparisonOperator_eval (op : ComparisonOperator) (v1 v2 : Val)
  : BoolOrNone :=
  match op with
  | Eq => booleval Value_eq v1 v2
  | Neq => booleval Value_neq v1 v2
  | Ls => booleval Value_lt v1 v2
  | Gr => booleval Value_gt v1 v2
  | Lseq => booleval Value_le v1 v2
  | Greq => booleval Value_ge v1 v2
  end.

(** [IsNull] and [IsNonNull] look at [e.eval(env)], [Not] at
    [e.eval_bool(env)]; both are passed. *)
Definition UnaryBooleanOperator_eval (op : UnaryBooleanOperator)
  (v : Val) (bn : BoolOrNone) : BoolOrNone :=
  match op with
  | IsNull => BoolOrNone_of_bool (unknown v)
  | IsNonNull => BoolOrNone_of_bool (negb (unknown v))
  | Not =>
      if BoolOrNone_eqb bn BN_UNKNOWN then bn
      else BoolOrNone_of_bool (negb (BoolOrNone_eqb bn BN_TRUE))
  end.

Definition ArithmeticOperator_eval (op : ArithmeticOperator) (v1 v2 : Val)
  : Val :=
  match op with
  | Add => Value_add v1 v2
  | Sub => Value_sub v1 v2
  | Mult => Value_mul v1 v2
  | Div => Value_div v1 v2
  end.

Definition UnaryArithmeticOperator_eval (op : UnaryArithmeticOperator)
  (v : Val) : Val :=
  match op with
  | Negate => Value_neg v
  end.

(** [OrExpression::eval_bool] on the results of the two operands. *)
Definition OrExpression_eval_bool (bn1 bn2 : BoolOrNone) : BoolOrNone :=
  if BoolOrNone_eqb bn1 BN_TRUE then BN_TRUE
  else if BoolOrNone_eqb bn2 BN_TRUE then BN_TRUE
  else if BoolOrNone_eqb bn1 BN_FALSE && BoolOrNone_eqb bn2 BN_FALSE
       then BN_FALSE
  else BN_UNKNOWN.

(** [AndExpression::eval_bool] on the results of the two operands. *)
Definition AndExpression_eval_bool (bn1 bn2 : BoolOrNone) : BoolOrNone :=
  if BoolOrNone_eqb bn1 BN_FALSE then BN_FALSE
  else if BoolOrNone_eqb bn2 BN_FALSE then BN_FALSE
  else if BoolOrNone_eqb bn1 BN_TRUE && BoolOrNone_eqb bn2 BN_TRUE
       then BN_TRUE
  else BN_UNKNOWN.

(** [LikeExpression::eval_bool] on the value of the operand. *)
Definition LikeExpression_eval_bool (v : Val) (regexBuffer : regex)
  : BoolOrNone :=
  match v with
  | V_STRING s => BoolOrNone_of_bool (regex_match s regexBuffer)
  | _ => BN_UNKNOWN
  end.

(** [BetweenExpression::eval_bool] on the three values. *)
Definition BetweenExpression_eval_bool (ve vl vu : Val) : BoolOrNone :=
  if unknown ve || unknown vl || unknown vu then BN_UNKNOWN
  else BoolOrNone_of_bool (Value_ge ve vl && Value_le ve vu).

(** The loop of [InExpression::eval_bool]: [r] is the running result,
    [li] the values of the list elements still to visit. *)
Fixpoint InExpression_loop (ve : Val) (r : BoolOrNone) (li : list Val)
  : BoolOrNone :=
  match li with
  | [] => r
  | v :: rest =>
      if unknown v then InExpression_loop ve BN_UNKNOWN rest
      else if Value_eq ve v then BN_TRUE
      else InExpression_loop ve r rest
  end.

Definition InExpression_eval_bool (ve : Val) (li : list Val) : BoolOrNone :=
  if unknown ve then BN_UNKNOWN
  else InExpression_loop ve BN_FALSE li.

(** The loop of [NotInExpression::eval_bool]. *)
Fixpoint NotInExpression_loop (ve : Val) (r : BoolOrNone) (li : list Val)
  : BoolOrNone :=
  match li with
  | [] => r
  | v :: rest =>
      if unknown v then NotInExpression_loop ve BN_UNKNOWN rest
      else if negb (BoolOrNone_eqb r BN_UNKNOWN)
              && negb (sameType ve v)
              && negb (numeric ve && numeric v)
           then NotInExpression_loop ve BN_FALSE rest
      else if Value_eq ve v then BN_FALSE
      else NotInExpression_loop ve r rest
  end.

Definition NotInExpression_eval_bool (ve : Val) (li : list Val)
  : BoolOrNone :=
  if unknown ve then BN_UNKNOWN
  else NotInExpression_loop ve BN_TRUE li.

(** The two virtual functions.  A boolean node's [eval] is
    [BoolExpression::eval], the conversion of its [eval_bool]; any other
    node's [eval_bool] is [ValueExpression::eval_bool] of its [eval].
    Evaluation has no effect, so the values of the operands are computed
    before the node's own function looks at them. *)
Fixpoint eval (x : ValueExpression) (env : Env) {struct x} : Val :=
  match x with
  | ComparisonExpression op e1 e2 =>
      Value_of_BoolOrNone
        (ComparisonOperator_eval op (eval e1 env) (eval e2 env))
  | OrExpression e1 e2 =>
      Value_of_BoolOrNone
        (OrExpression_eval_bool (eval_bool e1 env) (eval_bool e2 env))
  | AndExpression e1 e2 =>
      Value_of_BoolOrNone
        (AndExpression_eval_bool (eval_bool e1 env) (eval_bool e2 env))
  | UnaryBooleanExpression op e1 =>
      Value_of_BoolOrNone
        (UnaryBooleanOperator_eval op (eval e1 env) (eval_bool e1 env))
  | LikeExpression e _ regexBuffer =>
      Value_of_BoolOrNone (LikeExpression_eval_bool (eval e env) regexBuffer)
  | BetweenExpression e l u =>
      Value_of_BoolOrNone
        (BetweenExpression_eval_bool (eval e env) (eval l env) (eval u env))
  | InExpression e l =>
      Value_of_BoolOrNone
        (InExpression_eval_bool (eval e env) (map (fun le => eval le env) l))
  | NotInExpression e l =>
      Value_of_BoolOrNone
        (NotInExpression_eval_bool (eval e env)
           (map (fun le => eval le env) l))
  | ArithmeticExpression op e1 e2 =>
      ArithmeticOperator_eval op (eval e1 env) (eval e2 env)
  | UnaryArithExpression op e1 =>
      UnaryArithmeticOperator_eval op (eval e1 env)
  | Literal value => value
  | StringLiteral value => V_STRING value
  | Identifier identifier => env identifier
  end

with eval_bool (x : ValueExpression) (env : Env) {struct x} : BoolOrNone :=
  match x with
  | ComparisonExpression op e1 e2 =>
      ComparisonOperator_eval op (eval e1 env) (eval e2 env)
  | OrExpression e1 e2 =>
      OrExpression_eval_bool (eval_bool e1 env) (eval_bool e2 env)
  | AndExpression e1 e2 =>
      AndExpression_eval_bool (eval_bool e1 env) (eval_bool e2 env)
  | UnaryBooleanExpression op e1 =>
      UnaryBooleanOperator_eval op (eval e1 env) (eval_bool e1 env)
  | LikeExpression e _ regexBuffer =>
      LikeExpression_eval_bool (eval e env) regexBuffer
  | BetweenExpression e l u =>
      BetweenExpression_eval_bool (eval e env) (eval l env) (eval u env)
  | InExpression e l =>
      InExpression_eval_bool (eval e env) (map (fun le => eval le env) l)
  | NotInExpression e l =>
      NotInExpression_eval_bool (eval e env) (map (fun le => eval le env) l)
  | ArithmeticExpression op e1 e2 =>
      ValueExpression_eval_bool
        (ArithmeticOperator_eval op (eval e1 env) (eval e2 env))
  | UnaryArithExpression op e1 =>
      ValueExpression_eval_bool (UnaryArithmeticOperator_eval op (eval e1 env))
  | Literal value => ValueExpression_eval_bool value
  | StringLiteral value => ValueExpression_eval_bool (V_STRING value)
  | Identifier identifier => ValueExpression_eval_bool (env identifier)
  end.

(** ** The LIKE pattern compiler *)

Inductive Exception : Type :=
| range_error (what : string)
| logic_error (what : string)
| regex_error.

(** The body of the [for] loop of [LikeExpression::toRegex] for one
    character [i] that is not the escape character: the [switch] appends
    to [regex]. *)
Definition toRegex_switch (doEscape : bool) (i : ascii) (regex : string)
  : string :=
  if Ascii.eqb i "%" then
    if doEscape then regex ++ String i "" else regex ++ ".*"
  else if Ascii.eqb i "_" then
    if doEscape then regex ++ String i "" else regex ++ "."
  else if Ascii.eqb i "]" then regex ++ "[]]"
  else if Ascii.eqb i "-" then regex ++ "[-]"
  else if Ascii.eqb i "\" || Ascii.eqb i "^" || Ascii.eqb i "$"
          || Ascii.eqb i "." || Ascii.eqb i "*" || Ascii.eqb i "["
       then (regex ++ "\") ++ String i ""
  else regex ++ String i "".

(** The [for] loop: [e] is the escape character ([0] when there is none),
    [doEscape] and [regex] are the loop's two variables. *)
Fixpoint toRegex_for (e : ascii) (doEscape : bool) (regex : string)
  (s : string) : string :=
  match s with
  | EmptyString => regex
  | String i rest =>
      if negb (Ascii.eqb e Ascii.zero) && Ascii.eqb i e
      then toRegex_for e true regex rest
      else toRegex_for e false (toRegex_switch doEscape i regex) rest
  end.

Definition toRegex (s escape : string) : Exception + string :=
  let regex := "^" in
  if (1 <? String.length escape)%nat then inl (logic_error "Internal error")
  else
    let e := match escape with
             | String c EmptyString => c
             | _ => Ascii.zero
             end in
    inr (toRegex_for e false regex s ++ "$").

(** ** The exact numeric literal compiler *)

Local Open Scope Z_scope.

Definition INT64_MAX : Z := 9223372036854775807.
Definition INT64_MIN : Z := -9223372036854775808.
Definition ULLONG_MAX : Z := 18446744073709551615.

(** The conversion [int64_t r = value] of an unsigned 64-bit value, and
    the negation [-r] of a signed one, both with wrap-around ([-r]
    overflows for the least value; the wrapped result is taken). *)
Definition int64_of_uint64 (value : Z) : Z :=
  if INT64_MAX <? value then value - 2 ^ 64 else value.

Definition int64_neg (r : Z) : Z :=
  if r =? INT64_MIN then INT64_MIN else - r.

(** [strtoull] of the C library: white space, an optional sign, the
    optional [0x] of base 16 (or the prefix that selects the base when
    [base] is 0), then the longest run of digits of the base.  The result
    is the value and whether [errno] was set to [ERANGE]. *)
Definition digit_value (c : ascii) : option Z :=
  let n := Z.of_nat (nat_of_ascii c) in
  if (48 <=? n) && (n <=? 57) then Some (n - 48)
  else if (97 <=? n) && (n <=? 122) then Some (n - 87)
  else if (65 <=? n) && (n <=? 90) then Some (n - 55)
  else None.

Fixpoint strtoull_digits (base : Z) (acc : Z) (s : string) : Z :=
  match s with
  | EmptyString => acc
  | String c rest =>
      match digit_value c with
      | Some d =>
          if d <? base then strtoull_digits base (acc * base + d) rest
          else acc
      | None => acc
      end
  end.

Definition isspace (c : ascii) : bool :=
  let n := nat_of_ascii c in
  (Nat.eqb n 32 || (Nat.leb 9 n && Nat.leb n 13))%bool.

Fixpoint skip_space (s : string) : string :=
  match s with
  | String c rest => if isspace c then skip_space rest else s
  | EmptyString => s
  end.

Definition is_hex_prefix (s : string) : bool :=
  match s with
  | String "0" (String c _) => Ascii.eqb c "x" || Ascii.eqb c "X"
  | _ => false
  end.

(** What [strtoull] settles before it reads digits: whether there is a
    minus sign, the base it will use, and the text the digits start at. *)
Definition strtoull_subject (nptr : string) (base : Z) : bool * Z * string :=
  let s := skip_space nptr in
  let '(minus, s) :=
    match s with
    | String "-" rest => (true, rest)
    | String "+" rest => (false, rest)
    | _ => (false, s)
    end in
  let '(base, s) :=
    if base =? 0 then
      if is_hex_prefix s then (16, substring 2 (String.length s - 2) s)
      else match s with
           | String "0" _ => (8, s)
           | _ => (10, s)
           end
    else if (base =? 16) && is_hex_prefix s
         then (base, substring 2 (String.length s - 2) s)
    else (base, s) in
  (minus, base, s).

Definition strtoull (nptr : string) (base : Z) : Z * bool :=
  let '(minus, base, s) := strtoull_subject nptr base in
  let n := strtoull_digits base 0 s in
  if ULLONG_MAX <? n then (ULLONG_MAX, true)
  else if minus then ((2 ^ 64 - n) mod 2 ^ 64, false)
  else (n, false).

(** [std::remove_copy(..., '_')]. *)
Fixpoint remove_copy (s : string) (c : ascii) : string :=
  match s with
  | EmptyString => EmptyString
  | String a rest =>
      if Ascii.eqb a c then remove_copy rest c
      else String a (remove_copy rest c)
  end.

(** [s[n]]: at [n = s.size()] the terminating null character. *)
Definition string_at (s : string) (n : nat) : ascii :=
  match String.get n s with
  | Some c => c
  | None => Ascii.zero
  end.

Definition substr (s : string) (pos : nat) : string :=
  substring pos (String.length s - pos) s.

(** The head of [Parse::parseExactNumeric]: the text handed to
    [strtoull] and the base chosen for it.  The second [if] is not an
    [else if]: it also looks at what is left after a prefix was removed. *)
Definition exactNumeric_base (text : string) : Z * string :=
  let base := 0 in
  let s := remove_copy text "_" in
  let '(base, s) :=
    if Ascii.eqb (string_at s 1) "b" || Ascii.eqb (string_at s 1) "B"
    then (2, substr s 2)
    else if Ascii.eqb (string_at s 1) "x" || Ascii.eqb (string_at s 1) "X"
    then (16, substr s 2)
    else (base, s) in
  if Ascii.eqb (string_at s 0) "0" then (8, s) else (base, s).

(** The tail of [parseExactNumeric]: [Some] is the [Literal] built,
    [None] is the failure "integer literal too big". *)
Definition exactNumeric_value (text : string) (negate : bool) : option Z :=
  let '(base, s) := exactNumeric_base text in
  let '(value, errno) := strtoull s base in
  if negb errno && (negb (base =? 0) || (value <=? INT64_MAX)) then
    let r := int64_of_uint64 value in
    Some (if negate then int64_neg r else r)
  else if negate && (value =? INT64_MAX + 1) then Some INT64_MIN
  else None.

Local Close Scope Z_scope.

End Selector.

(** ** The parser *)

(** The state the member functions of [Parse] work on: the [Tokeniser]
    they are all handed and the member [error]. *)
Record ParseState : Type := mkParseState {
  tokeniser : Tokeniser;
  error : string
}.

(** What a call comes to: it returns (with the state it leaves), it
    throws, or the recursion budget of the model is used up. *)
Inductive Outcome (A : Type) : Type :=
| Returns (a : A) (st : ParseState)
| Throws (ex : Exception)
| NoFuel.

Arguments Returns {A} a st.
Arguments Throws {A} ex.
Arguments NoFuel {A}.

Definition M (A : Type) : Type := ParseState -> Outcome A.

Definition ret {A : Type} (a : A) : M A := fun st => Returns a st.

Definition bind {A B : Type} (m : M A) (k : A -> M B) : M B :=
  fun st =>
    match m st with
    | Returns a st' => k a st'
    | Throws ex => Throws ex
    | NoFuel => NoFuel
    end.

Definition throw {A : Type} (ex : Exception) : M A := fun _ => Throws ex.

(** A [unique_ptr] that may be null is an [option]; [bind_ptr] is the
    idiom [auto e = f(...); if (!e) return nullptr;]. *)
Definition bind_ptr {A B : Type} (m : M (option A)) (k : A -> M (option B))
  : M (option B) :=
  bind m (fun o => match o with
                   | Some a => k a
                   | None => ret None
                   end).

Notation "x <- m ;; k" := (bind m (fun x => k))
  (at level 61, m at next level, right associativity).
Notation "m ;;; k" := (bind m (fun _ => k))
  (at level 61, right associativity).
Notation "x <-? m ;; k" := (bind_ptr m (fun x => k))
  (at level 61, m at next level, right associativity).

Definition nextToken : M Token :=
  fun st =>
    let '(t, tk) := Tokeniser_nextToken (tokeniser st) in
    Returns t (mkParseState tk (error st)).

Definition returnTokens : M unit :=
  fun st =>
    Returns tt (mkParseState (Tokeniser_returnTokens (tokeniser st)) (error st)).

(** [error = msg; return nullptr;] *)
Definition fail {A : Type} (msg : string) : M (option A) :=
  fun st => Returns None (mkParseState (tokeniser st) msg).

Definition throwParseError {A : Type} (msg : string) : M A :=
  returnTokens ;;;
  t <- nextToken ;;
  throw (range_error ((("Illegal selector: '" ++ val t) ++ "': ") ++ msg)).

Section Parser.

Context {C : Collaborators}.

(** The constructor of [LikeExpression]: [toRegex] and the construction
    of the [std::regex] may both throw. *)
Definition new_LikeExpression (e : ValueExpression) (like escape : string)
  : M ValueExpression :=
  match toRegex like escape with
  | inl ex => throw ex
  | inr reString =>
      match regex_new reString with
      | Some regexBuffer => ret (LikeExpression e reString regexBuffer)
      | None => throw regex_error
      end
  end.

Definition parseExactNumeric (token : Token) (negate : bool)
  : M (option ValueExpression) :=
  match exactNumeric_value (val token) negate with
  | Some r => ret (Some (Literal (V_EXACT r)))
  | None => fail "integer literal too big"
  end.

Definition parseApproxNumeric (token : Token) : M (option ValueExpression) :=
  let s := remove_copy (val token) "_" in
  let '(value, errno) := strtod s in
  if negb errno then ret (Some (Literal (V_INEXACT value)))
  else fail "floating literal overflow/underflow".

Definition primaryExpression : M (option ValueExpression) :=
  t <- nextToken ;;
  match type t with
  | T_IDENTIFIER => ret (Some (Identifier (val t)))
  | T_STRING => ret (Some (StringLiteral (val t)))
  | T_FALSE => ret (Some (Literal (V_BOOL false)))
  | T_TRUE => ret (Some (Literal (V_BOOL true)))
  | T_NUMERIC_EXACT => parseExactNumeric t false
  | T_NUMERIC_APPROX => parseApproxNumeric t
  | _ => fail "expected literal or identifier"
  end.

(** The mutually recursive member functions.  Each takes the recursion
    budget [fuel] first; the [while] and [do] loops are the functions
    named [_while] and [_do]. *)
Fixpoint orExpression (fuel : nat) : M (option ValueExpression) :=
  match fuel with
  | O => fun _ => NoFuel
  | S fuel =>
      e <-? andExpression fuel ;;
      orExpression_while fuel e
  end

with orExpression_while (fuel : nat) (e : ValueExpression)
  : M (option ValueExpression) :=
  match fuel with
  | O => fun _ => NoFuel
  | S fuel =>
      t <- nextToken ;;
      if TokenType_eqb (type t) T_OR then
        e1 <-? andExpression fuel ;;
        orExpression_while fuel (OrExpression e e1)
      else
        returnTokens ;;;
        ret (Some e)
  end

with andExpression (fuel : nat) : M (option ValueExpression) :=
  match fuel with
  | O => fun _ => NoFuel
  | S fuel =>
      e <-? comparisonExpression fuel ;;
      andExpression_while fuel e
  end

with andExpression_while (fuel : nat) (e : ValueExpression)
  : M (option ValueExpression) :=
  match fuel with
  | O => fun _ => NoFuel
  | S fuel =>
      t <- nextToken ;;
      if TokenType_eqb (type t) T_AND then
        e1 <-? comparisonExpression fuel ;;
        andExpression_while fuel (AndExpression e e1)
      else
        returnTokens ;;;
        ret (Some e)
  end

with specialComparisons (fuel : nat) (e1 : ValueExpression) (negated : bool)
  : M (option ValueExpression) :=
  match fuel with
  | O => fun _ => NoFuel
  | S fuel =>
      t0 <- nextToken ;;
      match type t0 with
      | T_LIKE =>
          t <- nextToken ;;
          if negb (TokenType_eqb (type t) T_STRING)
          then fail "expected string after LIKE"
          else
            t1 <- nextToken ;;
            if TokenType_eqb (type t1) T_ESCAPE then
              e <- nextToken ;;
              if negb (TokenType_eqb (type e) T_STRING)
              then fail "expected string after ESCAPE"
              else if (1 <? String.length (val e))%nat
              then throwParseError
                     "single character string required after ESCAPE"
              else if String.eqb (val e) "%" || String.eqb (val e) "_"
              then throwParseError
                     "'%' and '_' are not allowed as ESCAPE characters"
              else
                l <- new_LikeExpression e1 (val t) (val e) ;;
                if negated then ret (Some (UnaryBooleanExpression Not l))
                else ret (Some l)
            else
              returnTokens ;;;
              l <- new_LikeExpression e1 (val t) "" ;;
              if negated then ret (Some (UnaryBooleanExpression Not l))
              else ret (Some l)
      | T_BETWEEN =>
          lower <-? addExpression fuel ;;
          t <- nextToken ;;
          if negb (TokenType_eqb (type t) T_AND)
          then fail "expected AND after BETWEEN"
          else
            upper <-? addExpression fuel ;;
            let b := BetweenExpression e1 lower upper in
            if negated then ret (Some (UnaryBooleanExpression Not b))
            else ret (Some b)
      | T_IN =>
          t <- nextToken ;;
          if negb (TokenType_eqb (type t) T_LPAREN)
          then fail "missing '(' after IN"
          else
            list <-? specialComparisons_do fuel [] ;;
            returnTokens ;;;
            t' <- nextToken ;;
            if negb (TokenType_eqb (type t') T_RPAREN)
            then fail "missing ',' or ')' after IN"
            else if negated then ret (Some (NotInExpression e1 list))
            else ret (Some (InExpression e1 list))
      | _ => fail "expected LIKE, IN or BETWEEN"
      end
  end

with specialComparisons_do (fuel : nat)
  (list : Datatypes.list ValueExpression)
  : M (option (Datatypes.list ValueExpression)) :=
  match fuel with
  | O => fun _ => NoFuel
  | S fuel =>
      e <-? addExpression fuel ;;
      let list := (list ++ [e])%list in
      t <- nextToken ;;
      if TokenType_eqb (type t) T_COMMA
      then specialComparisons_do fuel list
      else ret (Some list)
  end

with comparisonExpression (fuel : nat) : M (option ValueExpression) :=
  match fuel with
  | O => fun _ => NoFuel
  | S fuel =>
      t <- nextToken ;;
      if TokenType_eqb (type t) T_NOT then
        e <-? comparisonExpression fuel ;;
        ret (Some (UnaryBooleanExpression Not e))
      else
        returnTokens ;;;
        e1 <-? addExpression fuel ;;
        t1 <- nextToken ;;
        let comparison :=
          returnTokens ;;;
          t2 <- nextToken ;;
          let compare (op : ComparisonOperator) :=
            e2 <-? addExpression fuel ;;
            ret (Some (ComparisonExpression op e1 e2)) in
          match type t2 with
          | T_EQUAL => compare Eq
          | T_NEQ => compare Neq
          | T_LESS => compare Ls
          | T_GRT => compare Gr
          | T_LSEQ => compare Lseq
          | T_GREQ => compare Greq
          | _ => returnTokens ;;; ret (Some e1)
          end in
        match type t1 with
        | T_IS =>
            t2 <- nextToken ;;
            match type t2 with
            | T_NULL => ret (Some (UnaryBooleanExpression IsNull e1))
            | T_NOT =>
                t3 <- nextToken ;;
                if TokenType_eqb (type t3) T_NULL
                then ret (Some (UnaryBooleanExpression IsNonNull e1))
                else fail "expected NULL or NOT NULL after IS"
            | _ => fail "expected NULL or NOT NULL after IS"
            end
        | T_NOT => specialComparisons fuel e1 true
        | T_BETWEEN | T_LIKE | T_IN =>
            returnTokens ;;;
            specialComparisons fuel e1 false
        | _ => comparison
        end
  end

with addExpression (fuel : nat) : M (option ValueExpression) :=
  match fuel with
  | O => fun _ => NoFuel
  | S fuel =>
      e <-? multiplyExpression fuel ;;
      t <- nextToken ;;
      addExpression_while fuel e t
  end

with addExpression_while (fuel : nat) (e : ValueExpression) (t : Token)
  : M (option ValueExpression) :=
  match fuel with
  | O => fun _ => NoFuel
  | S fuel =>
      if TokenType_eqb (type t) T_PLUS || TokenType_eqb (type t) T_MINUS
      then
        let step (op : ArithmeticOperator) :=
          e1 <-? multiplyExpression fuel ;;
          t' <- nextToken ;;
          addExpression_while fuel (ArithmeticExpression op e e1) t' in
        match type t with
        | T_PLUS => step Add
        | T_MINUS => step Sub
        | _ => fail "internal error processing binary + or -"
        end
      else
        returnTokens ;;;
        ret (Some e)
  end

with multiplyExpression (fuel : nat) : M (option ValueExpression) :=
  match fuel with
  | O => fun _ => NoFuel
  | S fuel =>
      e <-? unaryArithExpression fuel ;;
      t <- nextToken ;;
      multiplyExpression_while fuel e t
  end

with multiplyExpression_while (fuel : nat) (e : ValueExpression) (t : Token)
  : M (option ValueExpression) :=
  match fuel with
  | O => fun _ => NoFuel
  | S fuel =>
      if TokenType_eqb (type t) T_MULT || TokenType_eqb (type t) T_DIV
      then
        let step (op : ArithmeticOperator) :=
          e1 <-? unaryArithExpression fuel ;;
          t' <- nextToken ;;
          multiplyExpression_while fuel (ArithmeticExpression op e e1) t' in
        match type t with
        | T_MULT => step Mult
        | T_DIV => step Div
        | _ => fail "internal error processing * or /"
        end
      else
        returnTokens ;;;
        ret (Some e)
  end

with unaryArithExpression (fuel : nat) : M (option ValueExpression) :=
  match fuel with
  | O => fun _ => NoFuel
  | S fuel =>
      t <- nextToken ;;
      match type t with
      | T_LPAREN =>
          e <-? orExpression fuel ;;
          t' <- nextToken ;;
          if negb (TokenType_eqb (type t') T_RPAREN)
          then fail "missing ')' after '('"
          else ret (Some e)
      | T_PLUS => primaryExpression
      | T_MINUS =>
          t' <- nextToken ;;
          if TokenType_eqb (type t') T_NUMERIC_EXACT
          then parseExactNumeric t' true
          else
            returnTokens ;;;
            e <-? unaryArithExpression fuel ;;
            ret (Some (UnaryArithExpression Negate e))
      | _ =>
          returnTokens ;;;
          primaryExpression
      end
  end.

Definition selectorExpression (fuel : nat) : M (option ValueExpression) :=
  t <- nextToken ;;
  if TokenType_eqb (type t) T_EOS then ret (Some (Literal (V_BOOL true)))
  else
    returnTokens ;;;
    orExpression fuel.

(** ** The top level *)

(** [ConcreteExpression]: the member [expression] is a [unique_ptr] and
    holds whatever [selectorExpression] returned, null included. *)
Inductive Expression : Type :=
| ConcreteExpression (expression : option ValueExpression).

(** [ConcreteExpression::eval]; [None] is the dereference of a null
    [expression]. *)
Definition Expression_eval (b : Expression) (env : Env) : option bool :=
  match b with
  | ConcreteExpression (Some expression) =>
      Some (BoolOrNone_eqb (eval_bool expression env) BN_TRUE)
  | ConcreteExpression None => None
  end.

(** A budget for the recursion of the parser on [ts]. *)
Definition fuel_for (ts : list Token) : nat := 8 * List.length ts + 8.

(** What a call of [make_selector] comes to. *)
Inductive Compilation : Type :=
| Compiled (b : Expression)
| Raised (ex : Exception)
| Unfinished.

(** [make_selector], from the tokens of [exp].  [std::make_unique] never
    returns null, so [b] is always [Some]. *)
Definition make_selector (ts : list Token) : Compilation :=
  let tokeniser := newTokeniser ts in
  let parse := mkParseState tokeniser "" in
  let run : M Expression :=
    e <- selectorExpression (fuel_for ts) ;;
    let b := Some (ConcreteExpression e) in
    match b with
    | None => fun st => throwParseError (error st) st
    | Some b' =>
        t <- nextToken ;;
        if negb (TokenType_eqb (type t) T_EOS)
        then throwParseError "extra input"
        else ret b'
    end in
  match run parse with
  | Returns b _ => Compiled b
  | Throws ex => Raised ex
  | NoFuel => Unfinished
  end.

End Parser.

(** ** A regular expression engine for the patterns of [toRegex]

    [std::regex] is the C++ library's; what follows covers the part of
    its (ECMAScript) syntax that [toRegex] produces from a pattern made of
    wildcards, escaped metacharacters, [-] and ordinary characters:
    the two anchors, [.], [.*], a backslash before a metacharacter, the
    class [[-]] and characters that stand for themselves.  A pattern with
    anything else (a group, an alternative, a counted repetition, the
    class written for a closing bracket) is outside this model and
    [ecma_new] gives [None] for it. *)

Inductive ReAtom : Type :=
| ReAny                       (* [.]: any character but a line end *)
| ReChar (c : ascii)          (* the character itself *)
| ReClass (cs : list ascii).  (* one of the characters listed *)

Inductive ReItem : Type :=
| ReOne (a : ReAtom)
| ReStar (a : ReAtom)
| ReBegin
| ReEnd.

Definition ecma_special (c : ascii) : bool :=
  existsb (Ascii.eqb c)
    ["^"; "$"; "\"; "."; "*"; "+"; "?"; "("; ")"; "["; "]"; "{"; "}"; "|"]%char.

(** One atom at the head of the text, with what follows it. *)
Definition ecma_atom (s : string) : option (ReAtom * string) :=
  match s with
  | String "." rest => Some (ReAny, rest)
  | String "\" (String c rest) =>
      if existsb (Ascii.eqb c) ["\"; "^"; "$"; "."; "*"; "["]%char
      then Some (ReChar c, rest) else None
  | String "[" (String "-" (String "]" rest)) => Some (ReClass ["-"%char], rest)
  | String c rest => if ecma_special c then None else Some (ReChar c, rest)
  | EmptyString => None
  end.

Fixpoint ecma_parse (fuel : nat) (s : string) : option (list ReItem) :=
  match fuel with
  | O => None
  | S fuel =>
      match s with
      | EmptyString => Some []
      | String "^" rest => option_map (cons ReBegin) (ecma_parse fuel rest)
      | String "$" rest => option_map (cons ReEnd) (ecma_parse fuel rest)
      | _ =>
          match ecma_atom s with
          | Some (a, String "*" rest) =>
              option_map (cons (ReStar a)) (ecma_parse fuel rest)
          | Some (a, rest) => option_map (cons (ReOne a)) (ecma_parse fuel rest)
          | None => None
          end
      end
  end.

Definition ecma_new (s : string) : option (list ReItem) :=
  ecma_parse (S (String.length s)) s.

Definition ReAtom_accepts (a : ReAtom) (c : ascii) : bool :=
  match a with
  | ReAny => negb (Ascii.eqb c "010" || Ascii.eqb c "013")
  | ReChar c' => Ascii.eqb c c'
  | ReClass cs => existsb (Ascii.eqb c) cs
  end.

(** Does the whole of [s] match [re]?  [first] tells whether [s] still
    starts where the subject started. *)
Fixpoint ecma_match_items (re : list ReItem) (first : bool) (s : string)
  {struct re} : bool :=
  match re with
  | [] => match s with EmptyString => true | _ => false end
  | ReBegin :: re' => first && ecma_match_items re' first s
  | ReEnd :: re' =>
      match s with
      | EmptyString => ecma_match_items re' first s
      | _ => false
      end
  | ReOne a :: re' =>
      match s with
      | String c rest => ReAtom_accepts a c && ecma_match_items re' false rest
      | EmptyString => false
      end
  | ReStar a :: re' =>
      (fix star (first : bool) (s : string) {struct s} : bool :=
         ecma_match_items re' first s
         || match s with
            | String c rest => ReAtom_accepts a c && star false rest
            | EmptyString => false
            end) first s
  end.

Definition ecma_match (s : string) (re : list ReItem) : bool :=
  ecma_match_items re true s.

(** ** A sample set of collaborators

    Enough of [SelectorValue] to run the definitions above on examples:
    numbers are exact ([double] is a copy of [Z] and [strtod] always
    reports a range error), equality compares values of one type or two
    numbers, the order is that of numbers, anything else is false or
    unknown. *)
Definition sample_number (v : Value Z) : option Z :=
  match v with
  | V_EXACT i => Some i
  | V_INEXACT x => Some x
  | _ => None
  end.

Definition sample_eq (v1 v2 : Value Z) : bool :=
  match sample_number v1, sample_number v2 with
  | Some a, Some b => Z.eqb a b
  | _, _ =>
      match v1, v2 with
      | V_BOOL a, V_BOOL b => Bool.eqb a b
      | V_STRING a, V_STRING b => String.eqb a b
      | _, _ => false
      end
  end.

Definition sample_neq (v1 v2 : Value Z) : bool :=
  match sample_number v1, sample_number v2 with
  | Some a, Some b => negb (Z.eqb a b)
  | _, _ =>
      match v1, v2 with
      | V_BOOL a, V_BOOL b => negb (Bool.eqb a b)
      | V_STRING a, V_STRING b => negb (String.eqb a b)
      | _, _ => false
      end
  end.

Definition sample_rel (rel : Z -> Z -> bool) (v1 v2 : Value Z) : bool :=
  match sample_number v1, sample_number v2 with
  | Some a, Some b => rel a b
  | _, _ => false
  end.

Definition sample_arith (f : Z -> Z -> Z) (v1 v2 : Value Z) : Value Z :=
  match sample_number v1, sample_number v2 with
  | Some a, Some b => V_EXACT (f a b)
  | _, _ => V_UNKNOWN
  end.

Definition sample_neg (v : Value Z) : Value Z :=
  match sample_number v with
  | Some a => V_EXACT (- a)
  | None => V_UNKNOWN
  end.

#[local] Instance sample : Collaborators := {|
  double := Z;
  strtod := fun _ => (0%Z, true);
  Value_eq := sample_eq;
  Value_neq := sample_neq;
  Value_lt := sample_rel Z.ltb;
  Value_gt := sample_rel Z.gtb;
  Value_le := sample_rel Z.leb;
  Value_ge := sample_rel Z.geb;
  Value_neg := sample_neg;
  Value_add := sample_arith Z.add;
  Value_sub := sample_arith Z.sub;
  Value_mul := sample_arith Z.mul;
  Value_div := sample_arith Z.quot;
  regex := list ReItem;
  regex_new := ecma_new;
  regex_match := ecma_match
|}.

(** ** The words of the specification, for comparison *)

Section SpecWords.

Context {C : Collaborators}.

(** Some element of the list is known and equal to [ve]. *)
Definition some_equal (ve : Value double) (li : list (Value double)) : bool :=
  existsb (fun v => negb (unknown v) && Value_eq ve v) li.

(** Some element of the list is unknown. *)
Definition some_unknown (li : list (Value double)) : bool :=
  existsb unknown li.

(** Some element of the list is known and of a type incompatible with
    that of [ve]: not the same type and not both numeric. *)
Definition some_incompatible (ve : Value double) (li : list (Value double))
  : bool :=
  existsb (fun v => negb (unknown v) && negb (sameType ve v)
                    && negb (numeric ve && numeric v)) li.

(** What [NotInExpression] relies on in [operator==] of [Value]: two
    values that compare equal are of one type, or both numbers. *)
Definition eq_respects_types : Prop :=
  forall v1 v2 : Value double,
    Value_eq v1 v2 = true ->
    sameType v1 v2 = true \/ numeric v1 && numeric v2 = true.

(** [x IN (v1..vn)] in the words of the specification. *)
Definition spec_IN (ve : Value double) (li : list (Value double))
  : BoolOrNone :=
  if unknown ve then BN_UNKNOWN
  else if some_equal ve li then BN_TRUE
  else if some_unknown li then BN_UNKNOWN
  else BN_FALSE.

(** [x NOT IN (v1..vn)]: an unknown element, wherever it stands in the
    list, takes precedence over an incompatible one. *)
Definition spec_NOT_IN (ve : Value double) (li : list (Value double))
  : BoolOrNone :=
  if unknown ve then BN_UNKNOWN
  else if some_equal ve li then BN_FALSE
  else if some_unknown li then BN_UNKNOWN
  else if some_incompatible ve li then BN_FALSE
  else BN_TRUE.

(** The LIKE translation in the words of the specification.  A pattern
    character that is not taken by an escape: [%] is [.*], [_] is [.],
    the metacharacters get a backslash, a closing bracket and a dash get
    their bracket forms, any other character stands for itself. *)
Definition like_plain (c : ascii) : string :=
  if Ascii.eqb c "%" then ".*"
  else if Ascii.eqb c "_" then "."
  else if Ascii.eqb c "]" then "[]]"
  else if Ascii.eqb c "-" then "[-]"
  else if existsb (Ascii.eqb c) ["\"; "^"; "$"; "."; "*"; "["]%char
       then String "\" (String c "")
  else String c "".

Definition is_wildcard (c : ascii) : bool :=
  Ascii.eqb c "%" || Ascii.eqb c "_".

Definition is_escape (escape : option ascii) (c : ascii) : bool :=
  match escape with
  | Some e => Ascii.eqb c e
  | None => false
  end.

(** The escape character is dropped, and a wildcard right after it is
    copied as it is. *)
Fixpoint like_body (escape : option ascii) (s : string) : string :=
  match s with
  | EmptyString => ""
  | String c rest =>
      if is_escape escape c then
        match rest with
        | String w rest' =>
            if is_wildcard w then String w (like_body escape rest')
            else like_body escape rest
        | EmptyString => ""
        end
      else like_plain c ++ like_body escape rest
  end.

(** What is still to come when the loop has just seen the escape. *)
Definition like_after_escape (e : ascii) (s : string) : string :=
  match s with
  | String w rest' =>
      if is_wildcard w then String w (like_body (Some e) rest')
      else like_body (Some e) s
  | EmptyString => ""
  end.

Definition spec_toRegex (escape : option ascii) (s : string) : string :=
  "^" ++ like_body escape s ++ "$".

(** An environment with the one property [x]. *)
Definition env_of (x : string) (v : Value double) : Env :=
  fun identifier => if String.eqb identifier x then v else V_UNKNOWN.

End SpecWords.

(** ** What bounds the recursion of the parser

    [available] counts the tokens a call can still read before the end
    of the stream: those not yet delivered and the one in the pushback
    slot; [returnable] counts the most recently returned token instead
    of the slot.  A token of kind [T_EOS] does not count. *)
Definition counts (o : option Token) : nat :=
  match o with
  | Some t => if TokenType_eqb (type t) T_EOS then 0 else 1
  | None => 0
  end.

Definition available (st : ParseState) : nat :=
  List.length (unread (tokeniser st)) + counts (pushback (tokeniser st)).

Definition returnable (st : ParseState) : nat :=
  List.length (unread (tokeniser st)) + counts (lastToken (tokeniser st)).

(** The pushback slot is empty or holds the most recently returned
    token. *)
Definition slot_ok (st : ParseState) : Prop :=
  pushback (tokeniser st) = None \/
  pushback (tokeniser st) = lastToken (tokeniser st).

(** The call [m] on [st] does not use up the budget, and when it returns
    the result and the state left satisfy [Q]. *)
Definition finishes {A : Type} (m : M A) (st : ParseState)
  (Q : A -> ParseState -> Prop) : Prop :=
  match m st with
  | Returns a st' => Q a st'
  | Throws _ => True
  | NoFuel => False
  end.

(** The state left has at most [bound] tokens to give back or read. *)
Definition within {A : Type} (bound : nat) : A -> ParseState -> Prop :=
  fun _ st => slot_ok st /\ returnable st <= bound.

Section BudgetStatement.

Context {C : Collaborators}.

(** With a budget of 8 for every token still to read, and a few more for
    the calls in hand, each function of the parser finishes and leaves no
    more tokens than it found. *)
Definition budget_ok (fuel : nat) : Prop :=
  (forall st, slot_ok st -> 8 * available st + 1 <= fuel ->
     finishes (unaryArithExpression fuel) st (within (available st))) /\
  (forall st e t, slot_ok st ->
     returnable st = available st + counts (Some t) ->
     8 * returnable st + 1 <= fuel ->
     finishes (multiplyExpression_while fuel e t) st (within (returnable st))) /\
  (forall st, slot_ok st -> 8 * available st + 2 <= fuel ->
     finishes (multiplyExpression fuel) st (within (available st))) /\
  (forall st e t, slot_ok st ->
     returnable st = available st + counts (Some t) ->
     8 * returnable st + 1 <= fuel ->
     finishes (addExpression_while fuel e t) st (within (returnable st))) /\
  (forall st, slot_ok st -> 8 * available st + 3 <= fuel ->
     finishes (addExpression fuel) st (within (available st))) /\
  (forall st l, slot_ok st -> 8 * available st + 4 <= fuel ->
     finishes (specialComparisons_do fuel l) st (within (available st))) /\
  (forall st e1 negated, slot_ok st -> 8 * available st + 1 <= fuel ->
     finishes (specialComparisons fuel e1 negated) st (within (available st))) /\
  (forall st, slot_ok st -> 8 * available st + 4 <= fuel ->
     finishes (comparisonExpression fuel) st (within (available st))) /\
  (forall st e, slot_ok st -> 8 * available st + 1 <= fuel ->
     finishes (andExpression_while fuel e) st (within (available st))) /\
  (forall st, slot_ok st -> 8 * available st + 5 <= fuel ->
     finishes (andExpression fuel) st (within (available st))) /\
  (forall st e, slot_ok st -> 8 * available st + 1 <= fuel ->
     finishes (orExpression_while fuel e) st (within (available st))) /\
  (forall st, slot_ok st -> 8 * available st + 6 <= fuel ->
     finishes (orExpression fuel) st (within (available st))).

End BudgetStatement.

(** ** Numerals, for comparison with the literal compiler *)

(** A numeral of base [b]: at least one character, all of them digits
    of the base, the first not the digit 0. *)
Fixpoint string_forallb (f : ascii -> bool) (s : string) : bool :=
  match s with
  | EmptyString => true
  | String c rest => f c && string_forallb f rest
  end.

Definition digit_below (b : Z) (c : ascii) : bool :=
  match digit_value c with
  | Some d => (d <? b)%Z
  | None => false
  end.

Definition numeral (b : Z) (s : string) : bool :=
  match s with
  | String c _ => negb (Ascii.eqb c "0") && string_forallb (digit_below b) s
  | EmptyString => false
  end.

(** What a literal of unsigned value [n] is to compile to: with a radix,
    the signed value of the same 64 bits; in plain decimal, the number
    itself when it is a signed 64-bit value. *)
Definition radix_literal_value (n : Z) (negate : bool) : option Z :=
  if (n <=? ULLONG_MAX)%Z
  then Some (if negate then int64_neg (int64_of_uint64 n)
             else int64_of_uint64 n)
  else None.

Definition decimal_literal_value (n : Z) (negate : bool) : option Z :=
  if (n <=? INT64_MAX)%Z then Some (if negate then (- n)%Z else n)
  else if negate && (n =? INT64_MAX + 1)%Z then Some INT64_MIN
  else None.


(** ** Derived forms, for comparison with the nodes *)

Section DerivedForms.

Context {C : Collaborators}.

(** [x = v1 OR x = v2 OR ... OR x = vn], for a list of at least one
    element [v :: rest]. *)
Fixpoint IN_as_OR (e v : ValueExpression) (rest : list ValueExpression)
  : ValueExpression :=
  match rest with
  | [] => ComparisonExpression Eq e v
  | w :: rest' =>
      OrExpression (ComparisonExpression Eq e v) (IN_as_OR e w rest')
  end.

End DerivedForms.

(** ** Well-formed trees and the exceptions of a compilation *)

Section WellFormed.

Context {C : Collaborators}.

(** The trees the parser builds: a list of IN or NOT IN has at least one
    element, a LIKE node holds the regular expression compiled from its
    own regex string, which [toRegex] gave for some pattern and an escape
    of at most one character, and a literal is a boolean, an exact number
    in the signed 64-bit range or an approximate number. *)
Fixpoint well_formed (x : ValueExpression) : Prop :=
  match x with
  | ComparisonExpression _ e1 e2 => well_formed e1 /\ well_formed e2
  | OrExpression e1 e2 => well_formed e1 /\ well_formed e2
  | AndExpression e1 e2 => well_formed e1 /\ well_formed e2
  | UnaryBooleanExpression _ e1 => well_formed e1
  | LikeExpression e reString regexBuffer =>
      well_formed e /\
      regex_new reString = Some regexBuffer /\
      exists like escape,
        (String.length escape <= 1)%nat /\ toRegex like escape = inr reString
  | BetweenExpression e l u =>
      well_formed e /\ well_formed l /\ well_formed u
  | InExpression e l | NotInExpression e l =>
      well_formed e /\ l <> [] /\
      (fix all (l : list ValueExpression) : Prop :=
         match l with
         | [] => True
         | v :: l' => well_formed v /\ all l'
         end) l
  | ArithmeticExpression _ e1 e2 => well_formed e1 /\ well_formed e2
  | UnaryArithExpression _ e1 => well_formed e1
  | Literal (V_BOOL _) => True
  | Literal (V_EXACT i) => (INT64_MIN <= i <= INT64_MAX)%Z
  | Literal (V_INEXACT _) => True
  | Literal _ => False
  | StringLiteral _ => True
  | Identifier _ => True
  end.

Definition all_well_formed (l : list ValueExpression) : Prop :=
  (fix all (l : list ValueExpression) : Prop :=
     match l with
     | [] => True
     | v :: l' => well_formed v /\ all l'
     end) l.

(** The exceptions of a compilation of the tokens [ts]: the one of the
    regex library, or a [range_error] whose text names a token of [ts]
    and gives one of three reasons. *)
Definition parse_error (ts : list Token) (ex : Exception) : Prop :=
  ex = regex_error \/
  exists t msg,
    In t ts /\
    ex = range_error ((("Illegal selector: '" ++ val t) ++ "': ") ++ msg) /\
    (msg = "extra input" /\ type t <> T_EOS \/
     type t = T_STRING /\
     (msg = "single character string required after ESCAPE" /\
      (1 < String.length (val t))%nat \/
      msg = "'%' and '_' are not allowed as ESCAPE characters" /\
      (val t = "%" \/ val t = "_"))).

(** A token of [ts], or the end-of-stream token. *)
Definition known (ts : list Token) (o : option Token) : Prop :=
  match o with
  | Some t => In t ts \/ t = eosToken
  | None => True
  end.

Definition drawn_from (ts : list Token) (st : ParseState) : Prop :=
  incl (unread (tokeniser st)) ts /\
  known ts (pushback (tokeniser st)) /\
  known ts (lastToken (tokeniser st)).

(** When the call [m] on [st] returns, [Q] holds of the result and the
    state left; when it throws, [E] holds of the exception. *)
Definition obeys {A : Type} (m : M A) (st : ParseState)
  (Q : A -> ParseState -> Prop) (E : Exception -> Prop) : Prop :=
  match m st with
  | Returns a st' => Q a st'
  | Throws ex => E ex
  | NoFuel => True
  end.

Definition good (ts : list Token) : option ValueExpression -> ParseState -> Prop :=
  fun o st =>
    drawn_from ts st /\
    match o with Some e => well_formed e | None => True end.

Definition good_list (ts : list Token)
  : option (list ValueExpression) -> ParseState -> Prop :=
  fun o st =>
    drawn_from ts st /\
    match o with Some l => l <> [] /\ all_well_formed l | None => True end.

Definition parser_obeys (ts : list Token) (fuel : nat) : Prop :=
  (forall st, drawn_from ts st ->
     obeys (unaryArithExpression fuel) st (good ts) (parse_error ts)) /\
  (forall st e t, drawn_from ts st -> well_formed e ->
     obeys (multiplyExpression_while fuel e t) st (good ts) (parse_error ts)) /\
  (forall st, drawn_from ts st ->
     obeys (multiplyExpression fuel) st (good ts) (parse_error ts)) /\
  (forall st e t, drawn_from ts st -> well_formed e ->
     obeys (addExpression_while fuel e t) st (good ts) (parse_error ts)) /\
  (forall st, drawn_from ts st ->
     obeys (addExpression fuel) st (good ts) (parse_error ts)) /\
  (forall st l, drawn_from ts st -> all_well_formed l ->
     obeys (specialComparisons_do fuel l) st (good_list ts) (parse_error ts)) /\
  (forall st e1 negated, drawn_from ts st -> well_formed e1 ->
     obeys (specialComparisons fuel e1 negated) st (good ts) (parse_error ts)) /\
  (forall st, drawn_from ts st ->
     obeys (comparisonExpression fuel) st (good ts) (parse_error ts)) /\
  (forall st e, drawn_from ts st -> well_formed e ->
     obeys (andExpression_while fuel e) st (good ts) (parse_error ts)) /\
  (forall st, drawn_from ts st ->
     obeys (andExpression fuel) st (good ts) (parse_error ts)) /\
  (forall st e, drawn_from ts st -> well_formed e ->
     obeys (orExpression_while fuel e) st (good ts) (parse_error ts)) /\
  (forall st, drawn_from ts st ->
     obeys (orExpression fuel) st (good ts) (parse_error ts)).

End WellFormed.

(** ** Printing a tree as tokens *)

Section Printing.

Context {C : Collaborators}.

Local Open Scope list_scope.

(** The text of the tokens that have one spelling. *)
Definition spelling (k : TokenType) : string :=
  match k with
  | T_NULL => "NULL" | T_TRUE => "TRUE" | T_FALSE => "FALSE"
  | T_NOT => "NOT" | T_AND => "AND" | T_OR => "OR" | T_IN => "IN"
  | T_IS => "IS" | T_BETWEEN => "BETWEEN" | T_LIKE => "LIKE"
  | T_ESCAPE => "ESCAPE" | T_LPAREN => "(" | T_RPAREN => ")"
  | T_COMMA => "," | T_PLUS => "+" | T_MINUS => "-" | T_MULT => "*"
  | T_DIV => "/" | T_EQUAL => "=" | T_NEQ => "<>" | T_LESS => "<"
  | T_GRT => ">" | T_LSEQ => "<=" | T_GREQ => ">="
  | _ => ""
  end.

Definition keyword (k : TokenType) : Token := mkToken k (spelling k).

Definition ComparisonOperator_token (op : ComparisonOperator) : Token :=
  keyword match op with
          | Eq => T_EQUAL | Neq => T_NEQ | Ls => T_LESS
          | Gr => T_GRT | Lseq => T_LSEQ | Greq => T_GREQ
          end.

Definition ArithmeticOperator_token (op : ArithmeticOperator) : Token :=
  keyword match op with
          | Add => T_PLUS | Sub => T_MINUS | Mult => T_MULT | Div => T_DIV
          end.

(** The decimal numeral of a natural number. *)
Definition decimal (n : Z) : Token :=
  mkToken T_NUMERIC_EXACT
    (DecimalString.NilEmpty.string_of_uint (N.to_uint (Z.to_N n))).

(** The level of the grammar a node belongs to: 0 for OR, 1 for AND, 2
    for the comparisons and NOT, 3 for + and -, 4 for * and /, 5 for an
    exact literal that is not negative, 6 for the rest (the unary minus,
    the other literals, the identifiers). *)
Definition level (x : ValueExpression) : nat :=
  match x with
  | OrExpression _ _ => 0
  | AndExpression _ _ => 1
  | ComparisonExpression _ _ _ | UnaryBooleanExpression _ _
  | LikeExpression _ _ _ | BetweenExpression _ _ _
  | InExpression _ _ | NotInExpression _ _ => 2
  | ArithmeticExpression (Add | Sub) _ _ => 3
  | ArithmeticExpression (Mult | Div) _ _ => 4
  | Literal (V_EXACT i) => if (0 <=? i)%Z then 5 else 6
  | _ => 6
  end.

Definition parenthesised (ts : list Token) : list Token :=
  keyword T_LPAREN :: ts ++ [keyword T_RPAREN].

(** The tokens of a selector for the tree [x], where an operand of level
    [lvl] or above is wanted: an operand of a lower level is put between
    parentheses, operators of one level associate to the left. *)
Fixpoint print (lvl : nat) (x : ValueExpression) {struct x} : list Token :=
  let body :=
    match x with
    | OrExpression e1 e2 => print 0 e1 ++ keyword T_OR :: print 1 e2
    | AndExpression e1 e2 => print 1 e1 ++ keyword T_AND :: print 2 e2
    | ComparisonExpression op e1 e2 =>
        print 3 e1 ++ ComparisonOperator_token op :: print 3 e2
    | UnaryBooleanExpression Not e1 => keyword T_NOT :: print 2 e1
    | UnaryBooleanExpression IsNull e1 =>
        print 3 e1 ++ [keyword T_IS; keyword T_NULL]
    | UnaryBooleanExpression IsNonNull e1 =>
        print 3 e1 ++ [keyword T_IS; keyword T_NOT; keyword T_NULL]
    | LikeExpression _ _ _ => []
    | BetweenExpression e l u =>
        print 3 e ++ keyword T_BETWEEN :: print 3 l
                  ++ keyword T_AND :: print 3 u
    | InExpression e l =>
        print 3 e ++ keyword T_IN :: keyword T_LPAREN ::
        match l with
        | [] => []
        | v :: l' =>
            print 3 v ++
            (fix more (l : list ValueExpression) : list Token :=
               match l with
               | [] => []
               | w :: l' => keyword T_COMMA :: print 3 w ++ more l'
               end) l'
        end ++ [keyword T_RPAREN]
    | NotInExpression e l =>
        print 3 e ++ keyword T_NOT :: keyword T_IN :: keyword T_LPAREN ::
        match l with
        | [] => []
        | v :: l' =>
            print 3 v ++
            (fix more (l : list ValueExpression) : list Token :=
               match l with
               | [] => []
               | w :: l' => keyword T_COMMA :: print 3 w ++ more l'
               end) l'
        end ++ [keyword T_RPAREN]
    | ArithmeticExpression ((Add | Sub) as op) e1 e2 =>
        print 3 e1 ++ ArithmeticOperator_token op :: print 4 e2
    | ArithmeticExpression ((Mult | Div) as op) e1 e2 =>
        print 4 e1 ++ ArithmeticOperator_token op :: print 5 e2
    | UnaryArithExpression Negate e1 => keyword T_MINUS :: print 6 e1
    | Literal (V_BOOL true) => [keyword T_TRUE]
    | Literal (V_BOOL false) => [keyword T_FALSE]
    | Literal (V_EXACT i) =>
        if (0 <=? i)%Z then [decimal i]
        else [keyword T_MINUS; decimal (- i)]
    | Literal _ => []
    | StringLiteral s => [mkToken T_STRING s]
    | Identifier x => [mkToken T_IDENTIFIER x]
    end in
  if (level x <? lvl)%nat then parenthesised body else body.

(** The trees [print] is meant for: no LIKE node (its pattern is not
    kept), literals that are booleans or exact numbers of 64 bits, lists
    of at least one element. *)
Fixpoint printable (x : ValueExpression) : bool :=
  match x with
  | ComparisonExpression _ e1 e2 => printable e1 && printable e2
  | OrExpression e1 e2 => printable e1 && printable e2
  | AndExpression e1 e2 => printable e1 && printable e2
  | UnaryBooleanExpression _ e1 => printable e1
  | LikeExpression _ _ _ => false
  | BetweenExpression e l u => printable e && printable l && printable u
  | InExpression e l | NotInExpression e l =>
      printable e && match l with [] => false | _ => true end
      && forallb printable l
  | ArithmeticExpression _ e1 e2 => printable e1 && printable e2
  | UnaryArithExpression _ e1 => printable e1
  | Literal (V_BOOL _) => true
  | Literal (V_EXACT i) => ((INT64_MIN <=? i) && (i <=? INT64_MAX))%Z
  | Literal _ => false
  | StringLiteral _ => true
  | Identifier _ => true
  end.

(** The elements of a list after the first, each behind its comma. *)
Definition print_more : list ValueExpression -> list Token :=
  fix more (l : list ValueExpression) : list Token :=
    match l with
    | [] => []
    | w :: l' => keyword T_COMMA :: print 3 w ++ more l'
    end.

(** The tokens of a LIKE clause. *)
Definition like_clause (negated : bool) (like : string)
  (escape : option string) : list Token :=
  (if negated then [keyword T_NOT] else []) ++
  keyword T_LIKE :: mkToken T_STRING like ::
  match escape with
  | Some c => [keyword T_ESCAPE; mkToken T_STRING c]
  | None => []
  end.

Definition admissible_escape (escape : option string) : bool :=
  match escape with
  | Some c =>
      negb (1 <? String.length c)%nat
      && negb (String.eqb c "%" || String.eqb c "_")
  | None => true
  end.

Definition escape_string (escape : option string) : string :=
  match escape with Some c => c | None => "" end.

End Printing.

(** ** What it is to read tokens as a tree *)

Section Reading.

Context {C : Collaborators}.

Local Open Scope list_scope.

(** The tokens a call on [st] will be given: the one in the pushback
    slot, if any, and those not yet delivered. *)
Definition reads (st : ParseState) (l : list Token) : Prop :=
  match pushback (tokeniser st) with
  | None => unread (tokeniser st) = l
  | Some t => t = hd eosToken l /\ unread (tokeniser st) = tl l
  end.

(** The first token of [l] has just been delivered. *)
Definition delivered (st : ParseState) (l : list Token) : Prop :=
  tokeniser st = mkTokeniser None (Some (hd eosToken l)) (tl l).

(** Unless the budget is used up, the call [m] on [st] returns [a] and
    leaves a state that satisfies [Q]. *)
Definition yields {A : Type} (m : M A) (st : ParseState) (a : A)
  (Q : ParseState -> Prop) : Prop :=
  m st = NoFuel \/ exists st', m st = Returns a st' /\ Q st'.

(** The kinds of token that may follow a complete operand of each
    function: those its loop, and the loops of the functions it calls, do
    not take up. *)
Definition after_mul (k : TokenType) : bool :=
  match k with T_MULT | T_DIV => false | _ => true end.

Definition after_add (k : TokenType) : bool :=
  match k with T_PLUS | T_MINUS => false | _ => after_mul k end.

Definition after_cmp (k : TokenType) : bool :=
  match k with
  | T_IS | T_NOT | T_BETWEEN | T_LIKE | T_IN
  | T_EQUAL | T_NEQ | T_LESS | T_GRT | T_LSEQ | T_GREQ => false
  | _ => after_add k
  end.

Definition after_and (k : TokenType) : bool :=
  match k with T_AND => false | _ => after_cmp k end.

Definition after_or (k : TokenType) : bool :=
  match k with T_OR => false | _ => after_and k end.

Definition next_type (l : list Token) : TokenType := type (hd eosToken l).

(** What it is for the tokens [toks] to be read as the tree [e] by each
    function.  For the four functions with a loop the statement is about
    the call followed by anything: the call on [toks] followed by [rest]
    comes to what the loop, entered with [e], comes to on [rest]. *)
Definition unary_reads (toks : list Token) (e : ValueExpression) : Prop :=
  forall fuel st rest,
    reads st (toks ++ rest) ->
    yields (unaryArithExpression fuel) st (Some e) (fun st' => reads st' rest).

Definition multiply_reads (toks : list Token) (e : ValueExpression) : Prop :=
  forall fuel st rest (X : option ValueExpression) Q,
    reads st (toks ++ rest) ->
    (forall fuel' st', reads st' rest ->
       yields (t <- nextToken ;; multiplyExpression_while fuel' e t) st' X Q) ->
    yields (multiplyExpression fuel) st X Q.

Definition add_reads (toks : list Token) (e : ValueExpression) : Prop :=
  forall fuel st rest (X : option ValueExpression) Q,
    reads st (toks ++ rest) ->
    after_mul (next_type rest) = true ->
    (forall fuel' st', reads st' rest ->
       yields (t <- nextToken ;; addExpression_while fuel' e t) st' X Q) ->
    yields (addExpression fuel) st X Q.

Definition comparison_reads (toks : list Token) (e : ValueExpression)
  : Prop :=
  forall fuel st rest,
    reads st (toks ++ rest) ->
    after_cmp (next_type rest) = true ->
    yields (comparisonExpression fuel) st (Some e) (fun st' => reads st' rest).

Definition and_reads (toks : list Token) (e : ValueExpression) : Prop :=
  forall fuel st rest (X : option ValueExpression) Q,
    reads st (toks ++ rest) ->
    after_cmp (next_type rest) = true ->
    (forall fuel' st', reads st' rest ->
       yields (andExpression_while fuel' e) st' X Q) ->
    yields (andExpression fuel) st X Q.

Definition or_reads (toks : list Token) (e : ValueExpression) : Prop :=
  forall fuel st rest (X : option ValueExpression) Q,
    reads st (toks ++ rest) ->
    after_and (next_type rest) = true ->
    (forall fuel' st', reads st' rest ->
       yields (orExpression_while fuel' e) st' X Q) ->
    yields (orExpression fuel) st X Q.

(** The function that reads an operand of level [lvl]. *)
Definition level_reads (lvl : nat) : list Token -> ValueExpression -> Prop :=
  match lvl with
  | 0 => or_reads
  | 1 => and_reads
  | 2 => comparison_reads
  | 3 => add_reads
  | 4 => multiply_reads
  | _ => unary_reads
  end.

(** The kinds of token an operand of level [lvl] can begin with. *)
Definition opens (lvl : nat) (k : TokenType) : bool :=
  match k with
  | T_LPAREN | T_MINUS | T_IDENTIFIER | T_STRING | T_TRUE | T_FALSE => true
  | T_NUMERIC_EXACT => (lvl <=? 5)%nat
  | T_NOT => (lvl <=? 2)%nat
  | _ => false
  end.

End Reading.

(** ** Induction on trees, through the lists of IN and NOT IN *)

Section NestedInductionPrinciple.

Context {C : Collaborators}.

Section NestedInduction.

Variable P : ValueExpression -> Prop.

Hypothesis HComparison :
  forall op e1 e2, P e1 -> P e2 -> P (ComparisonExpression op e1 e2).
Hypothesis HOr : forall e1 e2, P e1 -> P e2 -> P (OrExpression e1 e2).
Hypothesis HAnd : forall e1 e2, P e1 -> P e2 -> P (AndExpression e1 e2).
Hypothesis HUnaryBoolean :
  forall op e1, P e1 -> P (UnaryBooleanExpression op e1).
Hypothesis HLike : forall e re rb, P e -> P (LikeExpression e re rb).
Hypothesis HBetween :
  forall e l u, P e -> P l -> P u -> P (BetweenExpression e l u).
Hypothesis HIn : forall e l, P e -> Forall P l -> P (InExpression e l).
Hypothesis HNotIn : forall e l, P e -> Forall P l -> P (NotInExpression e l).
Hypothesis HArithmetic :
  forall op e1 e2, P e1 -> P e2 -> P (ArithmeticExpression op e1 e2).
Hypothesis HUnaryArith : forall op e1, P e1 -> P (UnaryArithExpression op e1).
Hypothesis HLiteral : forall v, P (Literal v).
Hypothesis HStringLiteral : forall s, P (StringLiteral s).
Hypothesis HIdentifier : forall x, P (Identifier x).

Fixpoint ValueExpression_nested_ind (x : ValueExpression) : P x :=
  match x with
  | ComparisonExpression op e1 e2 =>
      HComparison op e1 e2 (ValueExpression_nested_ind e1)
        (ValueExpression_nested_ind e2)
  | OrExpression e1 e2 =>
      HOr e1 e2 (ValueExpression_nested_ind e1) (ValueExpression_nested_ind e2)
  | AndExpression e1 e2 =>
      HAnd e1 e2 (ValueExpression_nested_ind e1) (ValueExpression_nested_ind e2)
  | UnaryBooleanExpression op e1 =>
      HUnaryBoolean op e1 (ValueExpression_nested_ind e1)
  | LikeExpression e re rb => HLike e re rb (ValueExpression_nested_ind e)
  | BetweenExpression e l u =>
      HBetween e l u (ValueExpression_nested_ind e)
        (ValueExpression_nested_ind l) (ValueExpression_nested_ind u)
  | InExpression e l =>
      HIn e l (ValueExpression_nested_ind e)
        ((fix all (l : list ValueExpression) : Forall P l :=
            match l with
            | [] => Forall_nil P
            | v :: l' =>
                Forall_cons v (ValueExpression_nested_ind v) (all l')
            end) l)
  | NotInExpression e l =>
      HNotIn e l (ValueExpression_nested_ind e)
        ((fix all (l : list ValueExpression) : Forall P l :=
            match l with
            | [] => Forall_nil P
            | v :: l' =>
                Forall_cons v (ValueExpression_nested_ind v) (all l')
            end) l)
  | ArithmeticExpression op e1 e2 =>
      HArithmetic op e1 e2 (ValueExpression_nested_ind e1)
        (ValueExpression_nested_ind e2)
  | UnaryArithExpression op e1 =>
      HUnaryArith op e1 (ValueExpression_nested_ind e1)
  | Literal v => HLiteral v
  | StringLiteral s => HStringLiteral s
  | Identifier x => HIdentifier x
  end.

End NestedInduction.

End NestedInductionPrinciple.

(** ** The printed form of a tree ([repr]) *)

Section Repr.

Context {C : Collaborators}.

(** [operator<<] of [Value], which is [SelectorValue]'s. *)
Variable Value_repr : Value double -> string.

Definition ComparisonOperator_repr (op : ComparisonOperator) : string :=
  match op with
  | Eq => "=" | Neq => "<>" | Ls => "<" | Gr => ">" | Lseq => "<="
  | Greq => ">="
  end.

Definition UnaryBooleanOperator_repr (op : UnaryBooleanOperator) : string :=
  match op with
  | IsNull => "IsNull" | IsNonNull => "IsNonNull" | Not => "NOT"
  end.

Definition ArithmeticOperator_repr (op : ArithmeticOperator) : string :=
  match op with
  | Add => "+" | Sub => "-" | Mult => "*" | Div => "/"
  end.

Definition UnaryArithmeticOperator_repr (op : UnaryArithmeticOperator)
  : string :=
  match op with
  | Negate => "-"
  end.

(** The [for] loop of [InExpression::repr] and [NotInExpression::repr]:
    [size] is [l.size()], [i] the index, [li] the printed forms of the
    elements from [i] on, [os] what has been written.  The loop is only
    entered with [i < size], so [size - 1] does not wrap around. *)
Fixpoint repr_for (size i : nat) (li : list string) (os : string) : string :=
  match li with
  | [] => os
  | r :: rest =>
      repr_for size (S i) rest
        ((os ++ r) ++ (if (i <? size - 1)%nat then ", " else ")"))
  end.

Fixpoint repr (x : ValueExpression) : string :=
  match x with
  | ComparisonExpression op e1 e2 =>
      ((("(" ++ repr e1) ++ ComparisonOperator_repr op) ++ repr e2) ++ ")"
  | OrExpression e1 e2 => ((("(" ++ repr e1) ++ " OR ") ++ repr e2) ++ ")"
  | AndExpression e1 e2 => ((("(" ++ repr e1) ++ " AND ") ++ repr e2) ++ ")"
  | UnaryBooleanExpression op e1 =>
      ((UnaryBooleanOperator_repr op ++ "(") ++ repr e1) ++ ")"
  | LikeExpression e reString _ =>
      ((repr e ++ " REGEX_MATCH '") ++ reString) ++ "'"
  | BetweenExpression e l u =>
      (((repr e ++ " BETWEEN ") ++ repr l) ++ " AND ") ++ repr u
  | InExpression e l =>
      repr_for (List.length l) 0 (map repr l) (repr e ++ " IN (")
  | NotInExpression e l =>
      repr_for (List.length l) 0 (map repr l) (repr e ++ " NOT IN (")
  | ArithmeticExpression op e1 e2 =>
      ((("(" ++ repr e1) ++ ArithmeticOperator_repr op) ++ repr e2) ++ ")"
  | UnaryArithExpression op e1 =>
      ((UnaryArithmeticOperator_repr op ++ "(") ++ repr e1) ++ ")"
  | Literal value => Value_repr value
  | StringLiteral value => ("'" ++ value) ++ "'"
  | Identifier identifier => "I:" ++ identifier
  end.

End Repr.

(** * Properties *)

(** ** Three-valued connectives *)

Section Connectives.

Context {C : Collaborators}.

Lemma AndExpression_eval_bool_table (a b : BoolOrNone) :
  AndExpression_eval_bool a b =
    match a, b with
    | BN_FALSE, _ | _, BN_FALSE => BN_FALSE
    | BN_TRUE, BN_TRUE => BN_TRUE
    | _, _ => BN_UNKNOWN
    end.
Proof. destruct a, b; reflexivity. Qed.

Lemma OrExpression_eval_bool_table (a b : BoolOrNone) :
  OrExpression_eval_bool a b =
    match a, b with
    | BN_TRUE, _ | _, BN_TRUE => BN_TRUE
    | BN_FALSE, BN_FALSE => BN_FALSE
    | _, _ => BN_UNKNOWN
    end.
Proof. destruct a, b; reflexivity. Qed.

Lemma Not_eval_table (v : Value double) (a : BoolOrNone) :
  UnaryBooleanOperator_eval Not v a =
    match a with
    | BN_TRUE => BN_FALSE
    | BN_FALSE => BN_TRUE
    | BN_UNKNOWN => BN_UNKNOWN
    end.
Proof. destruct a; reflexivity. Qed.

(** C7. For every environment, the AND node is False if either operand is
    False (whatever the other is), True only if both are True and Unknown
    otherwise; the OR node is True if either operand is True, False only
    if both are False and Unknown otherwise; NOT maps True to False, False
    to True and Unknown to Unknown. *)
Theorem tristate_laws (e1 e2 : ValueExpression) (env : Env) :
  (eval_bool (AndExpression e1 e2) env = BN_FALSE <->
     eval_bool e1 env = BN_FALSE \/ eval_bool e2 env = BN_FALSE) /\
  (eval_bool (AndExpression e1 e2) env = BN_TRUE <->
     eval_bool e1 env = BN_TRUE /\ eval_bool e2 env = BN_TRUE) /\
  (eval_bool (AndExpression e1 e2) env = BN_UNKNOWN <->
     ~ (eval_bool e1 env = BN_FALSE \/ eval_bool e2 env = BN_FALSE) /\
     ~ (eval_bool e1 env = BN_TRUE /\ eval_bool e2 env = BN_TRUE)) /\
  (eval_bool (OrExpression e1 e2) env = BN_TRUE <->
     eval_bool e1 env = BN_TRUE \/ eval_bool e2 env = BN_TRUE) /\
  (eval_bool (OrExpression e1 e2) env = BN_FALSE <->
     eval_bool e1 env = BN_FALSE /\ eval_bool e2 env = BN_FALSE) /\
  (eval_bool (OrExpression e1 e2) env = BN_UNKNOWN <->
     ~ (eval_bool e1 env = BN_TRUE \/ eval_bool e2 env = BN_TRUE) /\
     ~ (eval_bool e1 env = BN_FALSE /\ eval_bool e2 env = BN_FALSE)) /\
  eval_bool (UnaryBooleanExpression Not e1) env =
    match eval_bool e1 env with
    | BN_TRUE => BN_FALSE
    | BN_FALSE => BN_TRUE
    | BN_UNKNOWN => BN_UNKNOWN
    end.
Proof.
  cbn [eval_bool].
  rewrite AndExpression_eval_bool_table, OrExpression_eval_bool_table,
    Not_eval_table.
  destruct (eval_bool e1 env), (eval_bool e2 env);
    repeat split; intros; try reflexivity; try discriminate; intuition discriminate.
Qed.

End Connectives.

(** ** BETWEEN *)

Section Between.

Context {C : Collaborators}.

(** C9. For every environment, [x BETWEEN a AND b] is Unknown if any of
    the three values is unknown; otherwise it is the result of the
    conjunction [x >= a AND x <= b]: True exactly when both comparisons
    of the underlying values hold, else False. *)
Theorem between_is_conjunction (e l u : ValueExpression) (env : Env) :
  eval_bool (BetweenExpression e l u) env =
    (if unknown (eval e env) || unknown (eval l env) || unknown (eval u env)
     then BN_UNKNOWN
     else eval_bool (AndExpression (ComparisonExpression Greq e l)
                                   (ComparisonExpression Lseq e u)) env) /\
  (unknown (eval e env) || unknown (eval l env) || unknown (eval u env) = false ->
   (eval_bool (BetweenExpression e l u) env = BN_TRUE <->
      Value_ge (eval e env) (eval l env) = true /\
      Value_le (eval e env) (eval u env) = true) /\
   (eval_bool (BetweenExpression e l u) env = BN_FALSE <->
      ~ (Value_ge (eval e env) (eval l env) = true /\
         Value_le (eval e env) (eval u env) = true))).
Proof.
  cbn [eval_bool eval]. unfold BetweenExpression_eval_bool.
  rewrite AndExpression_eval_bool_table.
  unfold ComparisonOperator_eval, booleval.
  destruct (unknown (eval e env)), (unknown (eval l env)),
    (unknown (eval u env)); cbn [orb negb];
    try (split; [reflexivity | discriminate]).
  destruct (Value_ge (eval e env) (eval l env)),
    (Value_le (eval e env) (eval u env)); cbn;
    (split; [reflexivity | intros _; split; split; intros;
                           try reflexivity; try discriminate;
                           intuition discriminate]).
Qed.

End Between.

(** ** LIKE on a value that is not a string *)

Section LikeOperand.

Context {C : Collaborators}.

(** C10. For every LIKE node, and for its NOT LIKE wrapping, and every
    environment: if the left operand evaluates to a value that is not a
    string (an integer, a double, a boolean or the unknown value) the node
    evaluates to Unknown; the compiled regex is consulted only for a
    string, and then the node is the outcome of the match. *)
Theorem like_of_non_string_is_unknown
  (e : ValueExpression) (reString : string) (regexBuffer : regex) (env : Env) :
  (forall s, eval e env <> V_STRING s) ->
  eval_bool (LikeExpression e reString regexBuffer) env = BN_UNKNOWN /\
  eval_bool (UnaryBooleanExpression Not
               (LikeExpression e reString regexBuffer)) env = BN_UNKNOWN /\
  (forall regexBuffer',
     eval_bool (LikeExpression e reString regexBuffer') env =
     eval_bool (LikeExpression e reString regexBuffer) env).
Proof.
  intros Hns. cbn [eval_bool eval]. unfold LikeExpression_eval_bool.
  destruct (eval e env) as [ | b | s | i | x ];
    try (repeat split; reflexivity).
  exfalso. exact (Hns s eq_refl).
Qed.

Lemma like_of_string (e : ValueExpression) (reString : string)
  (regexBuffer : regex) (env : Env) (s : string) :
  eval e env = V_STRING s ->
  eval_bool (LikeExpression e reString regexBuffer) env =
    BoolOrNone_of_bool (regex_match s regexBuffer).
Proof. intros H. cbn [eval_bool]. rewrite H. reflexivity. Qed.

End LikeOperand.

(** ** IN and NOT IN *)

Section Membership.

Context {C : Collaborators}.

Ltac decide_ifs :=
  repeat match goal with
         | |- context [if ?b then _ else _] => destruct b
         end;
  reflexivity.

Lemma InExpression_loop_spec (ve : Value double) (li : list (Value double)) :
  forall r,
    InExpression_loop ve r li =
      if some_equal ve li then BN_TRUE
      else if some_unknown li then BN_UNKNOWN
      else r.
Proof.
  unfold some_equal, some_unknown.
  induction li as [ | v rest IH ]; intros r; cbn [InExpression_loop existsb].
  - reflexivity.
  - destruct (unknown v) eqn:Hu; cbn [negb andb orb].
    + rewrite IH. destruct (existsb _ rest); [reflexivity | ].
      destruct (existsb unknown rest); reflexivity.
    + destruct (Value_eq ve v); cbn [orb]; [reflexivity | apply IH].
Qed.

Lemma NotInExpression_loop_spec (ve : Value double)
  (li : list (Value double)) :
  eq_respects_types ->
  forall r,
    NotInExpression_loop ve r li =
      if some_equal ve li then BN_FALSE
      else if some_unknown li then BN_UNKNOWN
      else if BoolOrNone_eqb r BN_UNKNOWN then BN_UNKNOWN
      else if some_incompatible ve li then BN_FALSE
      else r.
Proof.
  intros Heq. unfold some_equal, some_unknown, some_incompatible.
  induction li as [ | v rest IH ]; intros r;
    cbn [NotInExpression_loop existsb].
  - destruct r; reflexivity.
  - destruct (unknown v) eqn:Hu; cbn [negb andb orb].
    + rewrite IH. cbn [BoolOrNone_eqb]. decide_ifs.
    + destruct (Value_eq ve v) eqn:E; cbn [orb].
      * destruct (Heq _ _ E) as [H | H]; rewrite H; cbn [negb];
          rewrite ?andb_false_r; reflexivity.
      * destruct (BoolOrNone_eqb r BN_UNKNOWN) eqn:Hr; cbn [negb andb].
        -- rewrite IH, Hr. decide_ifs.
        -- destruct (negb (sameType ve v) && negb (numeric ve && numeric v));
             cbn [orb]; rewrite IH; rewrite ?Hr; cbn [BoolOrNone_eqb];
             decide_ifs.
Qed.

(** C5, as amended. For every environment, [x IN (v1..vn)] is True if [x]
    is known and equals some known [vi]; Unknown if [x] is unknown, or if
    no [vi] equals [x] and some [vi] is unknown; False otherwise.
    [x NOT IN (v1..vn)] is Unknown when [x] is unknown and False when [x]
    equals a known [vi]; when no [vi] equals [x] it is Unknown if some
    [vi], at any place in the list, is unknown, False if all are known and
    one is of a type incompatible with that of [x], and True otherwise. *)
Theorem in_and_not_in (e : ValueExpression) (l : list ValueExpression)
  (env : Env) :
  eq_respects_types ->
  eval_bool (InExpression e l) env =
    spec_IN (eval e env) (map (fun le => eval le env) l) /\
  eval_bool (NotInExpression e l) env =
    spec_NOT_IN (eval e env) (map (fun le => eval le env) l).
Proof.
  intros Heq. cbn [eval_bool].
  unfold InExpression_eval_bool, NotInExpression_eval_bool,
    spec_IN, spec_NOT_IN.
  destruct (unknown (eval e env)); [split; reflexivity | ].
  rewrite InExpression_loop_spec, (NotInExpression_loop_spec _ _ Heq).
  cbn [BoolOrNone_eqb]. split; [reflexivity | ].
  repeat match goal with |- context [if ?b then _ else _] =>
    destruct b; try reflexivity end.
Qed.

End Membership.

Lemma sample_eq_respects_types : eq_respects_types (C := sample).
Proof.
  intros v1 v2. cbn.
  destruct v1, v2; cbn; intros H; try discriminate; auto.
Qed.

(** The amended statement at [1 IN ('a', 1)] and [1 NOT IN ('a', 2)]. *)
Lemma in_and_not_in_witness :
  eval_bool (C := sample)
    (InExpression (Literal (V_EXACT 1))
       [StringLiteral "a"; Literal (V_EXACT 1)]) (fun _ => V_UNKNOWN) =
    spec_IN (C := sample) (V_EXACT 1) [V_STRING "a"; V_EXACT 1] /\
  eval_bool (C := sample)
    (NotInExpression (Literal (V_EXACT 1))
       [StringLiteral "a"; Literal (V_EXACT 2)]) (fun _ => V_UNKNOWN) =
    BN_FALSE.
Proof.
  split.
  - apply (in_and_not_in (C := sample) (Literal (V_EXACT 1))
             [StringLiteral "a"; Literal (V_EXACT 1)] (fun _ => V_UNKNOWN)
             sample_eq_respects_types).
  - apply (in_and_not_in (C := sample) (Literal (V_EXACT 1))
             [StringLiteral "a"; Literal (V_EXACT 2)] (fun _ => V_UNKNOWN)
             sample_eq_respects_types).
Defined.

(** C5 as it was stated fails: in [1 NOT IN (missing, 'a')] the string is
    known, of a type incompatible with that of [1], and no later element
    is unknown, yet the result is Unknown and not False: the unknown
    element before it already decided. *)
Lemma not_in_unknown_before_incompatible :
  eval (C := sample) (Identifier "missing") (fun _ => V_UNKNOWN) = V_UNKNOWN /\
  unknown (C := sample) (V_STRING "a") = false /\
  sameType (C := sample) (V_EXACT 1) (V_STRING "a") = false /\
  numeric (C := sample) (V_STRING "a") = false /\
  eval_bool (C := sample)
    (NotInExpression (Literal (V_EXACT 1))
       [Identifier "missing"; StringLiteral "a"]) (fun _ => V_UNKNOWN)
    = BN_UNKNOWN /\
  eval_bool (C := sample)
    (NotInExpression (Literal (V_EXACT 1))
       [StringLiteral "a"]) (fun _ => V_UNKNOWN)
    = BN_FALSE.
Proof. repeat split. Qed.

Lemma like_of_non_string_is_unknown_witness :
  eval_bool (C := sample)
    (LikeExpression (Literal (V_EXACT 5)) "^a.*$"
       [ReBegin; ReOne (ReChar "a"); ReStar ReAny; ReEnd])
    (fun _ => V_UNKNOWN) = BN_UNKNOWN.
Proof.
  apply (like_of_non_string_is_unknown (C := sample) (Literal (V_EXACT 5))
           "^a.*$" [ReBegin; ReOne (ReChar "a"); ReStar ReAny; ReEnd]
           (fun _ => V_UNKNOWN)).
  intros s. discriminate.
Defined.

(** ** The LIKE pattern compiler *)

Lemma string_app_assoc (a b c : string) : (a ++ b) ++ c = a ++ (b ++ c).
Proof. induction a as [ | x a IH ]; cbn; [reflexivity | now rewrite IH]. Qed.

Lemma string_app_nil_r (a : string) : a ++ "" = a.
Proof. induction a as [ | x a IH ]; cbn; [reflexivity | now rewrite IH]. Qed.

(** The [switch] appends the plain translation, or the wildcard itself
    when it follows an escape. *)
Lemma toRegex_switch_spec (doEscape : bool) (i : ascii) (regex : string) :
  toRegex_switch doEscape i regex =
    regex ++ (if doEscape && is_wildcard i then String i "" else like_plain i).
Proof.
  unfold toRegex_switch, like_plain, is_wildcard. cbn [existsb].
  destruct (Ascii.eqb i "%"); [destruct doEscape; reflexivity | ].
  destruct (Ascii.eqb i "_"); [destruct doEscape; reflexivity | ].
  rewrite andb_false_r.
  destruct (Ascii.eqb i "]"); [reflexivity | ].
  destruct (Ascii.eqb i "-"); [reflexivity | ].
  rewrite orb_false_r.
  repeat match goal with
         | |- context [Ascii.eqb i ?c] => destruct (Ascii.eqb i c); cbn [orb]
         end;
    rewrite ?string_app_assoc; reflexivity.
Qed.

(** Without an escape (the variable [e] of [toRegex] is 0) every
    character goes through the [switch]. *)
Lemma toRegex_for_no_escape (s : string) :
  forall regex,
    toRegex_for Ascii.zero false regex s = regex ++ like_body None s.
Proof.
  induction s as [ | c rest IH ]; intros regex; cbn [toRegex_for like_body].
  - now rewrite string_app_nil_r.
  - cbn [is_escape]. change (Ascii.eqb Ascii.zero Ascii.zero) with true.
    cbn [negb andb].
    rewrite IH, toRegex_switch_spec. cbn [andb].
    now rewrite string_app_assoc.
Qed.

Lemma toRegex_for_escape (e : ascii) (s : string) :
  e <> Ascii.zero -> is_wildcard e = false ->
  forall regex,
    toRegex_for e false regex s = regex ++ like_body (Some e) s /\
    toRegex_for e true regex s = regex ++ like_after_escape e s.
Proof.
  intros Hz Hw.
  assert (Hz' : negb (Ascii.eqb e Ascii.zero) = true).
  { apply negb_true_iff. now apply Ascii.eqb_neq. }
  induction s as [ | c rest IH ]; intros regex;
    cbn [toRegex_for like_body like_after_escape is_escape].
  - now rewrite string_app_nil_r.
  - rewrite Hz'. cbn [andb].
    destruct (Ascii.eqb c e) eqn:Hce.
    + apply Ascii.eqb_eq in Hce. subst c. rewrite Hw.
      split; apply IH.
    + rewrite !toRegex_switch_spec. cbn [andb].
      split; rewrite (proj1 (IH _)), string_app_assoc.
      * reflexivity.
      * destruct (is_wildcard c); cbn [like_body is_escape];
          rewrite ?Hce; reflexivity.
Qed.

(** Without an escape, and with a one-character escape that is not the
    null character (nor a wildcard, which the parser refuses), [toRegex]
    gives the translation as it is specified. *)
Lemma toRegex_as_specified (s : string) (e : ascii) :
  e <> Ascii.zero -> is_wildcard e = false ->
  toRegex s "" = inr (spec_toRegex None s) /\
  toRegex s (String e "") = inr (spec_toRegex (Some e) s).
Proof.
  intros Hz Hw. unfold toRegex, spec_toRegex.
  cbn [String.length Nat.ltb Nat.leb].
  split.
  - rewrite toRegex_for_no_escape, string_app_assoc. reflexivity.
  - rewrite (proj1 (toRegex_for_escape e s Hz Hw _)), string_app_assoc.
    reflexivity.
Qed.

(** C6: what the code does with the one-character ESCAPE made of the null
    character.  The parser lets it through like any other single
    character that is not a wildcard, but [toRegex] keeps the null
    character in [e] as its mark for "no escape given": the pattern is
    translated as if there were no ESCAPE, so the escape character is
    copied into the regular expression and the [%] after it stays a
    wildcard.  The selector [x LIKE '<NUL>%' ESCAPE '<NUL>'] compiles to
    the regular expression [^<NUL>.*$]: it does not match the text [%],
    which the pattern stands for, and matches [<NUL>abc].  Every other
    one-character escape is honoured (the wildcard after it is copied as
    it is and the escape character is dropped), the translation without
    an escape is the specified one, and the two examples of the
    specification hold. *)
Theorem null_ESCAPE_is_ignored :
  (exists b,
     make_selector (C := sample)
       [mkToken T_IDENTIFIER "x"; mkToken T_LIKE "LIKE";
        mkToken T_STRING (String "000" "%"); mkToken T_ESCAPE "ESCAPE";
        mkToken T_STRING (String "000" "")]
     = Compiled b /\
     b = ConcreteExpression
           (Some (LikeExpression (Identifier "x")
                    (String "^" (String "000" ".*$"))
                    [ReBegin; ReOne (ReChar "000"); ReStar ReAny; ReEnd])) /\
     Expression_eval b (env_of "x" (V_STRING "%")) = Some false /\
     Expression_eval b (env_of "x" (V_STRING (String "000" "abc")))
     = Some true) /\
  spec_toRegex (Some "000"%char) (String "000" "%") = "^%$" /\
  (forall s, toRegex s (String "000" "") = toRegex s "") /\
  (forall s e,
     e <> Ascii.zero -> is_wildcard e = false ->
     toRegex s (String e "") = inr (spec_toRegex (Some e) s)) /\
  (forall s, toRegex s "" = inr (spec_toRegex None s)) /\
  (exists b,
     make_selector (C := sample)
       [mkToken T_IDENTIFIER "x"; mkToken T_LIKE "LIKE"; mkToken T_STRING "a%"]
     = Compiled b /\
     b = ConcreteExpression
           (Some (LikeExpression (Identifier "x") "^a.*$"
                    [ReBegin; ReOne (ReChar "a"); ReStar ReAny; ReEnd])) /\
     Expression_eval b (env_of "x" (V_STRING "abc")) = Some true /\
     Expression_eval b (env_of "x" (V_STRING "xabc")) = Some false) /\
  (exists b,
     make_selector (C := sample)
       [mkToken T_IDENTIFIER "x"; mkToken T_LIKE "LIKE";
        mkToken T_STRING "a\_b"; mkToken T_ESCAPE "ESCAPE"; mkToken T_STRING "\"]
     = Compiled b /\
     b = ConcreteExpression
           (Some (LikeExpression (Identifier "x") "^a_b$"
                    [ReBegin; ReOne (ReChar "a"); ReOne (ReChar "_");
                     ReOne (ReChar "b"); ReEnd])) /\
     Expression_eval b (env_of "x" (V_STRING "a_b")) = Some true /\
     Expression_eval b (env_of "x" (V_STRING "axb")) = Some false).
Proof.
  split; [ | split; [ | split; [ | split; [ | split; [ | split ] ] ] ] ].
  - eexists. repeat split.
  - reflexivity.
  - intros s. reflexivity.
  - intros s e Hz Hw. exact (proj2 (toRegex_as_specified s e Hz Hw)).
  - intros s.
    assert (Hz : "\"%char <> Ascii.zero) by discriminate.
    exact (proj1 (toRegex_as_specified s "\" Hz eq_refl)).
  - eexists. repeat split.
  - eexists. repeat split.
Qed.

(** ** Exact numeric literals *)

Section ExactNumeric.

Context {C : Collaborators}.

Local Open Scope Z_scope.

(** When [strtoull] sets [errno] the value it returns is [ULLONG_MAX]. *)
Lemma strtoull_errno (nptr : string) (base v : Z) :
  strtoull nptr base = (v, true) -> v = ULLONG_MAX.
Proof.
  unfold strtoull.
  destruct (strtoull_subject nptr base) as [[minus base'] s'].
  destruct (ULLONG_MAX <? strtoull_digits base' 0 s').
  - now intros [= <-].
  - destruct minus; intros [= ].
Qed.

(** [errno] is set exactly when the digits read are worth more than
    [ULLONG_MAX]. *)
Lemma strtoull_errno_iff (nptr : string) (base : Z) :
  snd (strtoull nptr base) =
    (let '(_, base', s') := strtoull_subject nptr base in
     ULLONG_MAX <? strtoull_digits base' 0 s').
Proof.
  unfold strtoull.
  destruct (strtoull_subject nptr base) as [[minus base'] s'].
  destruct (ULLONG_MAX <? strtoull_digits base' 0 s'); [reflexivity | ].
  destruct minus; reflexivity.
Qed.

(** The digits end, without an error, at the first character that is not
    a digit of the base. *)
Lemma strtoull_digits_stop (base acc : Z) (c : ascii) (rest : string) :
  match digit_value c with
  | Some d => base <= d
  | None => True
  end ->
  strtoull_digits base acc (String c rest) = acc.
Proof.
  cbn [strtoull_digits]. destruct (digit_value c) as [d | ]; [ | reflexivity ].
  intros H. apply Z.ltb_ge in H. now rewrite H.
Qed.

(** The base is 0 at the call of [strtoull] exactly for a literal that,
    once the underscores are gone, has no radix letter in second place
    and does not start with the digit 0. *)
Lemma exactNumeric_base_zero (text : string) :
  fst (exactNumeric_base text) = 0 <->
  (let s := remove_copy text "_" in
   existsb (Ascii.eqb (string_at s 1)) ["b"; "B"; "x"; "X"]%char = false /\
   Ascii.eqb (string_at s 0) "0" = false).
Proof.
  unfold exactNumeric_base. cbn [existsb]. cbv zeta.
  set (s := remove_copy text "_").
  destruct (Ascii.eqb (string_at s 1) "b"), (Ascii.eqb (string_at s 1) "B"),
    (Ascii.eqb (string_at s 1) "x"), (Ascii.eqb (string_at s 1) "X");
    cbn [orb];
    match goal with
    | |- context [Ascii.eqb (string_at ?t 0) "0"] =>
        destruct (Ascii.eqb (string_at t 0) "0")
    end; cbn [fst]; split; intros H; try discriminate;
    try (destruct H; discriminate); auto.
Qed.

(** C2, as amended. For every exact-numeric literal token,
    [parseExactNumeric] fails with the parse error "integer literal too
    big" exactly when [strtoull] reports a range error on the digits it
    reads, or when no radix was selected (a plain decimal literal) and
    the value is greater than INT64_MAX, the value INT64_MAX + 1 under
    the fused unary minus excepted; otherwise it succeeds, with the value
    converted to a signed 64-bit integer.  A literal with a radix is not
    checked against INT64_MAX, and a character outside the digit set of
    the radix ends the digits without an error. *)
Theorem exact_numeric_too_big (token : Token) (negate : bool)
  (st : ParseState) :
  let base := fst (exactNumeric_base (val token)) in
  let s := snd (exactNumeric_base (val token)) in
  let value := fst (strtoull s base) in
  let errno := snd (strtoull s base) in
  parseExactNumeric token negate st =
    (if errno
        || ((base =? 0) && (INT64_MAX <? value)
            && negb (negate && (value =? INT64_MAX + 1)))
     then Returns None (mkParseState (tokeniser st) "integer literal too big")
     else Returns
            (Some (Literal (V_EXACT
               (if negate then int64_neg (int64_of_uint64 value)
                else int64_of_uint64 value)))) st) /\
  errno =
    (let '(_, base', s') := strtoull_subject s base in
     ULLONG_MAX <? strtoull_digits base' 0 s') /\
  (base = 0 <->
   existsb (Ascii.eqb (string_at (remove_copy (val token) "_") 1))
     ["b"; "B"; "x"; "X"]%char = false /\
   Ascii.eqb (string_at (remove_copy (val token) "_") 0) "0" = false).
Proof.
  cbv zeta. split; [ | split ].
  - unfold parseExactNumeric, exactNumeric_value.
    destruct (exactNumeric_base (val token)) as [base s]. cbn [fst snd].
    destruct (strtoull s base) as [value errno] eqn:Hs. cbn [fst snd].
    destruct errno; cbn [negb andb orb].
    + apply strtoull_errno in Hs. subst value.
      rewrite andb_false_r. reflexivity.
    + destruct (base =? 0) eqn:Hb; cbn [negb andb orb]; [ | reflexivity ].
      rewrite Z.leb_antisym.
      destruct (INT64_MAX <? value) eqn:Hv; cbn [negb andb]; [ | reflexivity ].
      destruct negate; cbn [andb negb]; [ | reflexivity ].
      destruct (value =? INT64_MAX + 1) eqn:Hm; cbn [negb]; [ | reflexivity ].
      apply Z.eqb_eq in Hm. subst value. reflexivity.
  - apply strtoull_errno_iff.
  - apply exactNumeric_base_zero.
Qed.

Lemma substring_all (s : string) : substring 0 (String.length s) s = s.
Proof. induction s as [ | c s IH ]; cbn; [reflexivity | now rewrite IH]. Qed.

(** What the missing [else] does: after the prefix [0x] (or [0b]) digits
    that begin with 0 are handed to [strtoull] with base 8. *)
Lemma exactNumeric_base_after_prefix (p : ascii) (digits : string) :
  remove_copy digits "_" = digits ->
  existsb (Ascii.eqb p) ["b"; "B"; "x"; "X"]%char = true ->
  exactNumeric_base (String "0" (String p digits)) =
    (if Ascii.eqb (string_at digits 0) "0" then 8
     else if Ascii.eqb p "b" || Ascii.eqb p "B" then 2 else 16,
     digits).
Proof.
  intros Hu Hp. unfold exactNumeric_base. cbn [remove_copy] in *.
  change (Ascii.eqb "0" "_") with false. cbv iota.
  assert (Hp' : Ascii.eqb p "_" = false).
  { cbn [existsb] in Hp. destruct (Ascii.eqb_spec p "_") as [-> | ];
      [discriminate | reflexivity]. }
  rewrite Hp', Hu.
  assert (Hsub : substr (String "0" (String p digits)) 2 = digits).
  { unfold substr. cbn [String.length Nat.sub substring].
    rewrite Nat.sub_0_r. apply substring_all. }
  rewrite Hsub.
  change (string_at (String "0" (String p digits)) 1) with p.
  cbn [existsb] in Hp. rewrite orb_false_r in Hp.
  destruct (Ascii.eqb p "b"), (Ascii.eqb p "B"), (Ascii.eqb p "x"),
    (Ascii.eqb p "X"); try discriminate; cbn [orb];
    destruct (Ascii.eqb (string_at digits 0) "0"); reflexivity.
Qed.

(** C4, as amended. A unary minus directly before an exact-numeric
    literal is fused with it when the selector is parsed: in that position
    of [unaryArithExpression] a literal whose unsigned value is exactly
    INT64_MAX + 1 is accepted and compiles to INT64_MIN, so
    [-9223372036854775808] compiles to the least signed 64-bit value.
    For a plain decimal literal (no radix selected) the value
    INT64_MAX + 1 is accepted only there: where the literal is not right
    after the minus it is refused, as in [-(9223372036854775808)].  A
    literal with a radix and that value compiles to INT64_MIN without
    the minus as well. *)
Theorem fused_minus_literal (text minusText : string) (fuel : nat)
  (last : option Token) (rest : list Token) (err : string) :
  let base := fst (exactNumeric_base text) in
  let s := snd (exactNumeric_base text) in
  strtoull s base = (INT64_MAX + 1, false) ->
  unaryArithExpression (S fuel)
    (mkParseState
       (mkTokeniser None last
          (mkToken T_MINUS minusText :: mkToken T_NUMERIC_EXACT text :: rest))
       err)
  = Returns (Some (Literal (V_EXACT INT64_MIN)))
      (mkParseState
         (mkTokeniser None (Some (mkToken T_NUMERIC_EXACT text)) rest) err) /\
  (base = 0 ->
   primaryExpression
     (mkParseState
        (mkTokeniser None last (mkToken T_NUMERIC_EXACT text :: rest)) err)
   = Returns None
       (mkParseState
          (mkTokeniser None (Some (mkToken T_NUMERIC_EXACT text)) rest)
          "integer literal too big") /\
   unaryArithExpression (S fuel)
     (mkParseState
        (mkTokeniser None last (mkToken T_NUMERIC_EXACT text :: rest)) err)
   = Returns None
       (mkParseState
          (mkTokeniser None (Some (mkToken T_NUMERIC_EXACT text)) rest)
          "integer literal too big")) /\
  (base <> 0 ->
   primaryExpression
     (mkParseState
        (mkTokeniser None last (mkToken T_NUMERIC_EXACT text :: rest)) err)
   = Returns (Some (Literal (V_EXACT INT64_MIN)))
       (mkParseState
          (mkTokeniser None (Some (mkToken T_NUMERIC_EXACT text)) rest)
          err)) /\
  make_selector
    [mkToken T_MINUS "-"; mkToken T_NUMERIC_EXACT "9223372036854775808"]
  = Compiled (ConcreteExpression (Some (Literal (V_EXACT INT64_MIN)))) /\
  make_selector
    [mkToken T_MINUS "-"; mkToken T_LPAREN "(";
     mkToken T_NUMERIC_EXACT "9223372036854775808"; mkToken T_RPAREN ")"]
  = Raised (range_error "Illegal selector: ')': extra input").
Proof.
  cbv zeta. intros Hs.
  assert (Hfused : exactNumeric_value text true = Some INT64_MIN).
  { unfold exactNumeric_value.
    destruct (exactNumeric_base text) as [base s]. cbn [fst snd] in Hs.
    rewrite Hs. cbn [negb andb].
    destruct (base =? 0); reflexivity. }
  split; [ | split; [ | split; [ | split ] ] ].
  - transitivity
      (parseExactNumeric (mkToken T_NUMERIC_EXACT text) true
         (mkParseState
            (mkTokeniser None (Some (mkToken T_NUMERIC_EXACT text)) rest)
            err)); [reflexivity | ].
    unfold parseExactNumeric. cbn [val]. rewrite Hfused. reflexivity.
  - intros Hb.
    assert (Hplain : exactNumeric_value text false = None).
    { unfold exactNumeric_value.
      destruct (exactNumeric_base text) as [base s]. cbn [fst snd] in Hs, Hb.
      rewrite Hs. subst base. reflexivity. }
    assert (Hparse :
      parseExactNumeric (mkToken T_NUMERIC_EXACT text) false
        (mkParseState
           (mkTokeniser None (Some (mkToken T_NUMERIC_EXACT text)) rest) err)
      = Returns None
          (mkParseState
             (mkTokeniser None (Some (mkToken T_NUMERIC_EXACT text)) rest)
             "integer literal too big")).
    { unfold parseExactNumeric. cbn [val]. rewrite Hplain. reflexivity. }
    split; (etransitivity; [ | exact Hparse ]); reflexivity.
  - intros Hb.
    assert (Hradix : exactNumeric_value text false = Some INT64_MIN).
    { unfold exactNumeric_value.
      destruct (exactNumeric_base text) as [base s]. cbn [fst snd] in Hs, Hb.
      rewrite Hs. apply Z.eqb_neq in Hb. rewrite Hb. reflexivity. }
    transitivity
      (parseExactNumeric (mkToken T_NUMERIC_EXACT text) false
         (mkParseState
            (mkTokeniser None (Some (mkToken T_NUMERIC_EXACT text)) rest)
            err)); [reflexivity | ].
    unfold parseExactNumeric. cbn [val]. rewrite Hradix. reflexivity.
  - vm_compute. reflexivity.
  - vm_compute. reflexivity.
Qed.

End ExactNumeric.

Lemma fused_minus_literal_witness :
  unaryArithExpression (C := sample) 1
    (mkParseState
       (newTokeniser
          [mkToken T_MINUS "-"; mkToken T_NUMERIC_EXACT "9223372036854775808"])
       "")
  = Returns (Some (Literal (V_EXACT INT64_MIN)))
      (mkParseState
         (mkTokeniser None
            (Some (mkToken T_NUMERIC_EXACT "9223372036854775808")) [])
         "").
Proof.
  exact (proj1 (fused_minus_literal (C := sample) "9223372036854775808" "-"
                  0 None [] "" eq_refl)).
Defined.

(** C2 as it was stated fails: a literal with a radix prefix whose value
    is greater than INT64_MAX compiles (to the signed value of the same 64
    bits), and a digit outside the radix does not make the literal fail. *)
Lemma radix_literal_above_INT64_MAX_compiles :
  strtoull "FFFFFFFFFFFFFFFF" 16 = (ULLONG_MAX, false) /\
  (INT64_MAX <? ULLONG_MAX)%Z = true /\
  parseExactNumeric (C := sample) (mkToken T_NUMERIC_EXACT "0xFFFFFFFFFFFFFFFF")
    false (mkParseState (newTokeniser []) "")
  = Returns (Some (Literal (V_EXACT (-1)%Z)))
      (mkParseState (newTokeniser []) "") /\
  parseExactNumeric (C := sample) (mkToken T_NUMERIC_EXACT "09")
    false (mkParseState (newTokeniser []) "")
  = Returns (Some (Literal (V_EXACT 0%Z)))
      (mkParseState (newTokeniser []) "").
Proof. repeat split; vm_compute; reflexivity. Qed.

(** C4 as it was stated fails: with a radix prefix the value
    INT64_MAX + 1 is accepted in any position, here under a minus applied
    to a parenthesised expression. *)
Lemma radix_literal_INT64_MIN_anywhere :
  exactNumeric_base "0x8000000000000000" = (16%Z, "8000000000000000") /\
  strtoull "8000000000000000" 16 = ((INT64_MAX + 1)%Z, false) /\
  make_selector (C := sample)
    [mkToken T_MINUS "-"; mkToken T_LPAREN "(";
     mkToken T_NUMERIC_EXACT "0x8000000000000000"; mkToken T_RPAREN ")"]
  = Compiled (ConcreteExpression
                (Some (UnaryArithExpression Negate
                         (Literal (V_EXACT INT64_MIN))))).
Proof. repeat split; vm_compute; reflexivity. Qed.

(** C3: what the code does for prefixed literals.  [0x1F], [0b101] and
    [1_000] get the values 31, 5 and 1000; but when the digits after the
    prefix begin with 0 the literal is read in base 8: [0x0F] is 0 and
    [0b0101] is 65. *)
Theorem prefixed_literal_with_leading_zero :
  exactNumeric_value "0x1F" false = Some 31%Z /\
  exactNumeric_value "0b101" false = Some 5%Z /\
  exactNumeric_value "1_000" false = Some 1000%Z /\
  exactNumeric_base "0x0F" = (8%Z, "0F") /\
  exactNumeric_value "0x0F" false = Some 0%Z /\
  exactNumeric_base "0b0101" = (8%Z, "0101") /\
  exactNumeric_value "0b0101" false = Some 65%Z /\
  make_selector (C := sample)
    [mkToken T_IDENTIFIER "x"; mkToken T_EQUAL "=";
     mkToken T_NUMERIC_EXACT "0x0F"]
  = Compiled (ConcreteExpression
                (Some (ComparisonExpression Eq (Identifier "x")
                         (Literal (V_EXACT 0%Z))))).
Proof. repeat split; vm_compute; reflexivity. Qed.

(** ** The ESCAPE argument of LIKE *)

Section EscapeArgument.

Context {C : Collaborators}.

(** What [specialComparisons] does when the tokens to come are
    [LIKE 'like' ESCAPE 'escape']: the two tests on the ESCAPE argument,
    each throwing an error with the text of that token, and then the
    construction of the node. *)
Lemma specialComparisons_ESCAPE (fuel : nat) (e1 : ValueExpression)
  (negated : bool) (like escape likeText escText : string)
  (last : option Token) (rest : list Token) (err : string) :
  specialComparisons (S fuel) e1 negated
    (mkParseState
       (mkTokeniser None last
          (mkToken T_LIKE likeText :: mkToken T_STRING like
           :: mkToken T_ESCAPE escText :: mkToken T_STRING escape :: rest))
       err)
  = if (1 <? String.length escape)%nat then
      Throws (range_error
                ((("Illegal selector: '" ++ escape) ++ "': ")
                 ++ "single character string required after ESCAPE"))
    else if String.eqb escape "%" || String.eqb escape "_" then
      Throws (range_error
                ((("Illegal selector: '" ++ escape) ++ "': ")
                 ++ "'%' and '_' are not allowed as ESCAPE characters"))
    else
      (l <- new_LikeExpression e1 like escape ;;
       if negated then ret (Some (UnaryBooleanExpression Not l))
       else ret (Some l))
        (mkParseState
           (mkTokeniser None (Some (mkToken T_STRING escape)) rest) err).
Proof.
  transitivity
    ((if (1 <? String.length escape)%nat
      then throwParseError "single character string required after ESCAPE"
      else if String.eqb escape "%" || String.eqb escape "_"
      then throwParseError "'%' and '_' are not allowed as ESCAPE characters"
      else
        l <- new_LikeExpression e1 like escape ;;
        if negated then ret (Some (UnaryBooleanExpression Not l))
        else ret (Some l))
       (mkParseState
          (mkTokeniser None (Some (mkToken T_STRING escape)) rest) err));
    [reflexivity | ].
  destruct (1 <? String.length escape)%nat; [reflexivity | ].
  destruct (String.eqb escape "%" || String.eqb escape "_"); reflexivity.
Qed.

(** A one-character ESCAPE that is not a wildcard passes both tests. *)
Lemma specialComparisons_ESCAPE_accepted (fuel : nat) (e1 : ValueExpression)
  (negated : bool) (like likeText escText : string) (c : ascii)
  (last : option Token) (rest : list Token) (err : string) :
  is_wildcard c = false ->
  specialComparisons (S fuel) e1 negated
    (mkParseState
       (mkTokeniser None last
          (mkToken T_LIKE likeText :: mkToken T_STRING like
           :: mkToken T_ESCAPE escText :: mkToken T_STRING (String c "")
           :: rest))
       err)
  = (l <- new_LikeExpression e1 like (String c "") ;;
     if negated then ret (Some (UnaryBooleanExpression Not l))
     else ret (Some l))
      (mkParseState
         (mkTokeniser None (Some (mkToken T_STRING (String c ""))) rest) err).
Proof.
  intros Hw. rewrite specialComparisons_ESCAPE.
  unfold is_wildcard in Hw. apply orb_false_elim in Hw as [Hp Hu].
  cbn [String.length Nat.ltb Nat.leb String.eqb]. rewrite Hp, Hu.
  reflexivity.
Qed.

End EscapeArgument.

(** C8: what the code does for an empty ESCAPE argument.  The string is
    not of length 1, yet [a LIKE 'x' ESCAPE ''] compiles, to the LIKE
    node without an escape; only an argument longer than one character,
    [%] and [_] are refused. *)
Theorem empty_ESCAPE_is_accepted :
  make_selector (C := sample)
    [mkToken T_IDENTIFIER "a"; mkToken T_LIKE "LIKE"; mkToken T_STRING "x";
     mkToken T_ESCAPE "ESCAPE"; mkToken T_STRING ""]
  = Compiled (ConcreteExpression
                (Some (LikeExpression (Identifier "a") "^x$"
                         [ReBegin; ReOne (ReChar "x"); ReEnd]))) /\
  make_selector (C := sample)
    [mkToken T_IDENTIFIER "a"; mkToken T_LIKE "LIKE"; mkToken T_STRING "x";
     mkToken T_ESCAPE "ESCAPE"; mkToken T_STRING "ab"]
  = Raised (range_error
      "Illegal selector: 'ab': single character string required after ESCAPE") /\
  make_selector (C := sample)
    [mkToken T_IDENTIFIER "a"; mkToken T_LIKE "LIKE"; mkToken T_STRING "x";
     mkToken T_ESCAPE "ESCAPE"; mkToken T_STRING "%"]
  = Raised (range_error
      "Illegal selector: '%': '%' and '_' are not allowed as ESCAPE characters").
Proof. repeat split; vm_compute; reflexivity. Qed.

(** ** The top level *)

Section TopLevel.

Context {C : Collaborators}.

(** When the parser fails and what follows is the end of the input,
    [make_selector] returns an expression that holds a null pointer. *)
Lemma make_selector_ignores_failure (ts : list Token) (st : ParseState) :
  selectorExpression (fuel_for ts) (mkParseState (newTokeniser ts) "")
    = Returns None st ->
  type (fst (Tokeniser_nextToken (tokeniser st))) = T_EOS ->
  make_selector ts = Compiled (ConcreteExpression None).
Proof.
  intros Hsel Heos. unfold make_selector, bind.
  rewrite Hsel. unfold nextToken.
  destruct (Tokeniser_nextToken (tokeniser st)) as [t tk'].
  cbn [fst] in Heos. rewrite Heos. reflexivity.
Qed.

(** C1: what the code does when the parse fails.  For [a =] the parser
    fails at the end of the input with "expected literal or identifier";
    [make_selector] raises nothing and returns an expression whose root
    is null.  The same happens for [a = )] and for a literal that is too
    big; with more input after the failure the error raised is "extra
    input" at the next token. *)
Theorem make_selector_returns_null_expression :
  selectorExpression 24
    (mkParseState
       (newTokeniser [mkToken T_IDENTIFIER "a"; mkToken T_EQUAL "="]) "")
  = Returns None
      (mkParseState (mkTokeniser None (Some eosToken) [])
         "expected literal or identifier") /\
  make_selector [mkToken T_IDENTIFIER "a"; mkToken T_EQUAL "="]
  = Compiled (ConcreteExpression None) /\
  (forall env, Expression_eval (ConcreteExpression None) env = None) /\
  make_selector [mkToken T_IDENTIFIER "a"; mkToken T_EQUAL "=";
                 mkToken T_RPAREN ")"]
  = Compiled (ConcreteExpression None) /\
  make_selector [mkToken T_NUMERIC_EXACT "99999999999999999999"]
  = Compiled (ConcreteExpression None) /\
  make_selector [mkToken T_IDENTIFIER "a"; mkToken T_EQUAL "=";
                 mkToken T_RPAREN ")"; mkToken T_IDENTIFIER "b"]
  = Raised (range_error "Illegal selector: 'b': extra input").
Proof. repeat split; vm_compute; reflexivity. Qed.

End TopLevel.

(** ** The recursion budget is never used up *)

Section Budget.

Context {C : Collaborators}.

Lemma finishes_ret {A : Type} (a : A) st (Q : A -> ParseState -> Prop) :
  Q a st -> finishes (ret a) st Q.
Proof. exact (fun H => H). Qed.

Lemma finishes_throw {A : Type} ex st (Q : A -> ParseState -> Prop) :
  finishes (throw ex) st Q.
Proof. exact I. Qed.

Lemma finishes_bind {A B : Type} (m : M A) (k : A -> M B) st
  (Q : B -> ParseState -> Prop) :
  finishes m st (fun a st' => finishes (k a) st' Q) ->
  finishes (bind m k) st Q.
Proof. unfold finishes, bind. destruct (m st); auto. Qed.

Lemma finishes_bind_ptr {A B : Type} (m : M (option A))
  (k : A -> M (option B)) st (Q : option B -> ParseState -> Prop) :
  finishes m st (fun o st' => match o with
                              | Some a => finishes (k a) st' Q
                              | None => Q None st'
                              end) ->
  finishes (bind_ptr m k) st Q.
Proof.
  intros H. apply finishes_bind. unfold finishes in *.
  destruct (m st) as [ [a | ] st' | | ]; auto.
Qed.

Lemma finishes_weaken {A : Type} (m : M A) st
  (Q Q' : A -> ParseState -> Prop) :
  finishes m st Q -> (forall a st', Q a st' -> Q' a st') ->
  finishes m st Q'.
Proof. unfold finishes. destruct (m st); auto. Qed.

Lemma slot_ok_available st : slot_ok st -> available st <= returnable st.
Proof.
  unfold slot_ok, available, returnable.
  intros [H | H]; rewrite H; cbn [counts]; lia.
Qed.

(** Reading a token. *)
Lemma finishes_nextToken st (Q : Token -> ParseState -> Prop) :
  slot_ok st ->
  (forall t st',
     slot_ok st' ->
     returnable st' = available st' + counts (Some t) ->
     returnable st' <= available st ->
     Q t st') ->
  finishes nextToken st Q.
Proof.
  intros Hok HQ. unfold finishes, nextToken, Tokeniser_nextToken.
  destruct st as [[pb last ur] err]. unfold slot_ok in Hok. cbn in Hok |- *.
  destruct pb as [t | ].
  - apply HQ; unfold slot_ok, available, returnable; cbn; auto; lia.
  - destruct ur as [ | t ts ];
      apply HQ; unfold slot_ok, available, returnable; cbn; auto; try lia.
    destruct (TokenType_eqb (type t) T_EOS); lia.
Qed.

(** Giving the last token back. *)
Lemma finishes_returnTokens st (Q : unit -> ParseState -> Prop) :
  slot_ok st ->
  (forall st',
     slot_ok st' ->
     available st' <= returnable st ->
     returnable st' = returnable st ->
     Q tt st') ->
  finishes returnTokens st Q.
Proof.
  intros Hok HQ. unfold finishes, returnTokens, Tokeniser_returnTokens.
  destruct st as [[pb last ur] err]. cbn.
  apply HQ; unfold slot_ok, available, returnable; cbn; auto.
Qed.

Lemma finishes_fail {A : Type} msg st
  (Q : option A -> ParseState -> Prop) :
  Q None (mkParseState (tokeniser st) msg) -> finishes (fail msg) st Q.
Proof. exact (fun H => H). Qed.

Lemma within_fail {A : Type} bound st msg :
  slot_ok st -> returnable st <= bound ->
  within (A := option A) bound None (mkParseState (tokeniser st) msg).
Proof. intros H1 H2. split; assumption. Qed.

Lemma finishes_throwParseError {A : Type} msg st
  (Q : A -> ParseState -> Prop) :
  finishes (throwParseError msg) st Q.
Proof.
  unfold throwParseError, finishes, bind, returnTokens, nextToken.
  destruct (Tokeniser_nextToken _). exact I.
Qed.

Lemma finishes_parseExactNumeric token negate st bound :
  slot_ok st -> returnable st <= bound ->
  finishes (parseExactNumeric token negate) st (within bound).
Proof.
  intros H1 H2. unfold finishes, parseExactNumeric.
  destruct (exactNumeric_value _ _); split; assumption.
Qed.

Lemma finishes_parseApproxNumeric token st bound :
  slot_ok st -> returnable st <= bound ->
  finishes (parseApproxNumeric token) st (within bound).
Proof.
  intros H1 H2. unfold finishes, parseApproxNumeric.
  destruct (strtod _) as [value [ | ]]; split; assumption.
Qed.

Lemma finishes_primaryExpression st :
  slot_ok st ->
  finishes primaryExpression st (within (available st)).
Proof.
  intros Hok. unfold primaryExpression.
  apply finishes_bind, finishes_nextToken; [assumption | ].
  intros t st' Hok' Hret Hle.
  destruct (type t);
    first [ now apply finishes_parseExactNumeric
          | now apply finishes_parseApproxNumeric
          | split; assumption ].
Qed.

Lemma finishes_new_LikeExpression e like escape st
  (Q : ValueExpression -> ParseState -> Prop) :
  (forall l, Q l st) ->
  finishes (new_LikeExpression e like escape) st Q.
Proof.
  intros HQ. unfold finishes, new_LikeExpression.
  destruct (toRegex like escape); [exact I | ].
  destruct (regex_new _); [apply HQ | exact I].
Qed.

Lemma TokenType_eqb_true a b : TokenType_eqb a b = true -> a = b.
Proof. destruct a, b; cbn; intros H; try discriminate; reflexivity. Qed.

Lemma counts_kind t k :
  type t = k -> TokenType_eqb k T_EOS = false -> counts (Some t) = 1.
Proof. intros H1 H2. unfold counts. rewrite H1, H2. reflexivity. Qed.

Ltac token_facts :=
  repeat match goal with
  | H : TokenType_eqb (type ?t) ?k = true |- _ =>
      apply TokenType_eqb_true in H
  | H : _ || _ = true |- _ => apply orb_true_iff in H; destruct H
  | H : slot_ok ?s |- _ =>
      lazymatch goal with
      | _ : available s <= returnable s |- _ => fail
      | _ => pose proof (slot_ok_available s H)
      end
  | H : type ?t = ?k |- _ =>
      lazymatch goal with
      | _ : counts (Some t) = 1 |- _ => fail
      | _ => assert (counts (Some t) = 1)
               by (apply (counts_kind t k H); reflexivity)
      end
  end.

Ltac close_within :=
  first [ split; [assumption | lia]
        | apply within_fail; [assumption | lia] ].

Ltac call IH :=
  eapply finishes_weaken;
  [ first [ apply IH; [assumption | lia ]
          | apply IH; [assumption | assumption | lia ] ]
  | ].

Ltac crunch calls :=
  repeat (token_facts;
  match goal with
  | |- finishes (bind nextToken _) _ _ =>
      apply finishes_bind, finishes_nextToken;
      [assumption | intros ? ? ? ? ?]
  | |- finishes (bind returnTokens _) _ _ =>
      apply finishes_bind, finishes_returnTokens;
      [assumption | intros ? ? ? ?]
  | |- finishes (bind (new_LikeExpression _ _ _) _) _ _ =>
      apply finishes_bind, finishes_new_LikeExpression; intros ?
  | |- finishes (bind_ptr _ _) _ _ =>
      apply finishes_bind_ptr; calls;
      intros [ ? | ] ? [? ?]; [ | close_within ]
  | |- finishes (ret _) _ _ => apply finishes_ret; close_within
  | |- finishes (fail _) _ _ => apply finishes_fail; close_within
  | |- finishes (throwParseError _) _ _ => apply finishes_throwParseError
  | |- finishes (if ?b then _ else _) _ _ => destruct b eqn:?
  | |- finishes (match type ?t with _ => _ end) _ _ => destruct (type t) eqn:?
  | |- finishes primaryExpression _ _ =>
      eapply finishes_weaken;
      [ apply finishes_primaryExpression; assumption
      | intros ? ? [? ?]; close_within ]
  | |- finishes (parseExactNumeric _ _) _ _ =>
      apply finishes_parseExactNumeric; [assumption | lia]
  | |- finishes _ _ _ => calls; intros ? ? [? ?]; close_within
  end).

Lemma budget_ok_all fuel : budget_ok fuel.
Proof.
  induction fuel as [ | fuel IH ].
  - unfold budget_ok. repeat split; intros; lia.
  - destruct IH as (IHun & IHmw & IHmu & IHaw & IHad & IHdo & IHsp & IHcm
                    & IHanw & IHan & IHorw & IHor).
    unfold budget_ok.
    split; [ | split; [ | split; [ | split; [ | split; [ | split; [ | split; [ | split; [ | split; [ | split; [ | split ]]]]]]]]]].
    + intros st Hok Hf. cbn [unaryArithExpression].
      crunch ltac:(first [call IHor | call IHun]).
    + intros st e t Hok Hr Hf. cbn [multiplyExpression_while].
      crunch ltac:(first [call IHun | call IHmw]).
    + intros st Hok Hf. cbn [multiplyExpression].
      crunch ltac:(first [call IHun | call IHmw]).
    + intros st e t Hok Hr Hf. cbn [addExpression_while].
      crunch ltac:(first [call IHmu | call IHaw]).
    + intros st Hok Hf. cbn [addExpression].
      crunch ltac:(first [call IHmu | call IHaw]).
    + intros st l Hok Hf. cbn [specialComparisons_do].
      crunch ltac:(first [call IHad | call IHdo]).
    + intros st e1 negated Hok Hf. cbn [specialComparisons].
      crunch ltac:(first [call IHad | call IHdo]).
    + intros st Hok Hf. cbn [comparisonExpression].
      crunch ltac:(first [call IHcm | call IHad | call IHsp]).
    + intros st e Hok Hf. cbn [andExpression_while].
      crunch ltac:(first [call IHcm | call IHanw]).
    + intros st Hok Hf. cbn [andExpression].
      crunch ltac:(first [call IHcm | call IHanw]).
    + intros st e Hok Hf. cbn [orExpression_while].
      crunch ltac:(first [call IHan | call IHorw]).
    + intros st Hok Hf. cbn [orExpression].
      crunch ltac:(first [call IHan | call IHorw]).
Qed.

Lemma finishes_selectorExpression (ts : list Token) :
  finishes (selectorExpression (fuel_for ts))
    (mkParseState (newTokeniser ts) "") (within (List.length ts)).
Proof.
  destruct (budget_ok_all (fuel_for ts))
    as (_ & _ & _ & _ & _ & _ & _ & _ & _ & _ & _ & IHor).
  assert (Hok : slot_ok (mkParseState (newTokeniser ts) ""))
    by (left; reflexivity).
  assert (Hav : available (mkParseState (newTokeniser ts) "") = List.length ts)
    by (unfold available; cbn; lia).
  unfold selectorExpression, fuel_for in *.
  crunch ltac:(call IHor).
Qed.

(** X14. The parser terminates on every sequence of tokens, within a
    recursion depth of eight calls for each token and eight more:
    [make_selector] always comes to a result, it returns an expression or
    raises. *)
Theorem make_selector_total (ts : list Token) :
  make_selector ts <> Unfinished.
Proof.
  unfold make_selector.
  match goal with
  | |- match ?run ?st with _ => _ end <> _ =>
      assert (H : finishes run st (fun _ _ => True))
  end.
  { apply finishes_bind. eapply finishes_weaken;
      [apply finishes_selectorExpression | ].
    intros e st' [Hok _]. cbv beta zeta iota.
    apply finishes_bind, finishes_nextToken; [assumption | ].
    intros t st'' _ _ _.
    destruct (negb (TokenType_eqb (type t) T_EOS));
      [apply finishes_throwParseError | exact I]. }
  unfold finishes in H.
  match type of H with
  | match ?o with _ => _ end => destruct o; [discriminate | discriminate | contradiction]
  end.
Qed.

End Budget.

(** * Further properties of the evaluator *)

Section Evaluator.

Context {C : Collaborators}.

Lemma ValueExpression_eval_bool_of_BoolOrNone (bn : BoolOrNone) :
  ValueExpression_eval_bool (Value_of_BoolOrNone bn) = bn.
Proof. destruct bn; reflexivity. Qed.

(** X1. The two virtual functions agree on every node: [eval_bool] is
    what [ValueExpression::eval_bool] computes from the node's [eval],
    also for the boolean nodes that override it; and the value of a
    boolean node is a boolean or unknown, never a string or a number. *)
Theorem eval_bool_agrees_with_eval (x : ValueExpression) (env : Env) :
  eval_bool x env = ValueExpression_eval_bool (eval x env) /\
  match x with
  | ArithmeticExpression _ _ _ | UnaryArithExpression _ _
  | Literal _ | StringLiteral _ | Identifier _ => True
  | _ => eval x env = Value_of_BoolOrNone (eval_bool x env) /\
         numeric (eval x env) = false /\
         (forall s, eval x env <> V_STRING s)
  end.
Proof.
  destruct x; cbn [eval eval_bool];
    rewrite ?ValueExpression_eval_bool_of_BoolOrNone;
    (split; [reflexivity | ]); try exact I;
    (split; [reflexivity | ]);
    match goal with
    | |- context [Value_of_BoolOrNone ?b] => destruct b
    end; (split; [reflexivity | intros s; discriminate]).
Qed.

(** X2. A comparison, with any of the six operators, is Unknown exactly
    when one of its operands evaluates to the unknown value; with both
    known it is the operator's verdict on the two values. *)
Theorem comparison_unknown_iff (op : ComparisonOperator)
  (e1 e2 : ValueExpression) (env : Env) :
  (eval_bool (ComparisonExpression op e1 e2) env = BN_UNKNOWN <->
   unknown (eval e1 env) = true \/ unknown (eval e2 env) = true) /\
  (unknown (eval e1 env) = false -> unknown (eval e2 env) = false ->
   eval_bool (ComparisonExpression op e1 e2) env =
     BoolOrNone_of_bool
       (match op with
        | Eq => Value_eq | Neq => Value_neq | Ls => Value_lt
        | Gr => Value_gt | Lseq => Value_le | Greq => Value_ge
        end (eval e1 env) (eval e2 env))).
Proof.
  cbn [eval_bool].
  destruct op; unfold ComparisonOperator_eval, booleval;
    destruct (unknown (eval e1 env)), (unknown (eval e2 env)); cbn [negb];
    (split;
     [ split;
       [ intros H;
         first [ now auto
               | match type of H with
                 | BoolOrNone_of_bool ?b = _ => destruct b; discriminate
                 end ]
       | intros [H | H]; first [reflexivity | discriminate] ]
     | intros H1 H2; first [discriminate | reflexivity] ]).
Qed.

(** X3. [IS NULL] and [IS NOT NULL] are never Unknown: the first is True
    exactly when the operand evaluates to the unknown value, and the
    second is its negation, the same as [NOT (x IS NULL)]. *)
Theorem is_null_is_total (e : ValueExpression) (env : Env) :
  eval_bool (UnaryBooleanExpression IsNull e) env =
    BoolOrNone_of_bool (unknown (eval e env)) /\
  eval_bool (UnaryBooleanExpression IsNull e) env <> BN_UNKNOWN /\
  eval_bool (UnaryBooleanExpression IsNonNull e) env <> BN_UNKNOWN /\
  eval_bool (UnaryBooleanExpression IsNonNull e) env =
    eval_bool (UnaryBooleanExpression Not
                 (UnaryBooleanExpression IsNull e)) env /\
  eval_bool (UnaryBooleanExpression IsNull e) env =
    eval_bool (UnaryBooleanExpression Not
                 (UnaryBooleanExpression IsNonNull e)) env.
Proof.
  cbn [eval_bool eval UnaryBooleanOperator_eval].
  destruct (unknown (eval e env)); cbn;
    repeat split; try reflexivity; discriminate.
Qed.

(** X4. The order and the grouping of the operands of AND and of OR do
    not change the result, although the second operand is only looked at
    when the first does not decide. *)
Theorem and_or_commute_and_associate (e1 e2 e3 : ValueExpression)
  (env : Env) :
  eval_bool (AndExpression e1 e2) env = eval_bool (AndExpression e2 e1) env /\
  eval_bool (OrExpression e1 e2) env = eval_bool (OrExpression e2 e1) env /\
  eval_bool (AndExpression (AndExpression e1 e2) e3) env =
    eval_bool (AndExpression e1 (AndExpression e2 e3)) env /\
  eval_bool (OrExpression (OrExpression e1 e2) e3) env =
    eval_bool (OrExpression e1 (OrExpression e2 e3)) env.
Proof.
  cbn [eval_bool].
  destruct (eval_bool e1 env), (eval_bool e2 env), (eval_bool e3 env);
    repeat split.
Qed.

(** X5. NOT turns AND into OR and OR into AND (De Morgan), and two NOTs
    cancel, also on Unknown; AND distributes over OR. *)
Theorem de_morgan (e1 e2 e3 : ValueExpression) (env : Env) :
  eval_bool (UnaryBooleanExpression Not (AndExpression e1 e2)) env =
    eval_bool (OrExpression (UnaryBooleanExpression Not e1)
                            (UnaryBooleanExpression Not e2)) env /\
  eval_bool (UnaryBooleanExpression Not (OrExpression e1 e2)) env =
    eval_bool (AndExpression (UnaryBooleanExpression Not e1)
                             (UnaryBooleanExpression Not e2)) env /\
  eval_bool (UnaryBooleanExpression Not (UnaryBooleanExpression Not e1)) env =
    eval_bool e1 env /\
  eval_bool (AndExpression e1 (OrExpression e2 e3)) env =
    eval_bool (OrExpression (AndExpression e1 e2) (AndExpression e1 e3)) env.
Proof.
  cbn [eval_bool].
  destruct (eval_bool e1 env), (eval_bool e2 env), (eval_bool e3 env);
    repeat split.
Qed.

(** The chain of equalities in the terms of the three tests on the
    values. *)
Lemma IN_as_OR_spec (e : ValueExpression) (env : Env)
  (rest : list ValueExpression) :
  forall v,
    eval_bool (IN_as_OR e v rest) env =
      spec_IN (eval e env) (map (fun le => eval le env) (v :: rest)).
Proof.
  unfold spec_IN, some_equal, some_unknown.
  induction rest as [ | w rest IH ]; intros v.
  - cbn [IN_as_OR eval_bool map existsb].
    unfold ComparisonOperator_eval, booleval.
    destruct (unknown (eval e env)); [reflexivity | ].
    destruct (unknown (eval v env)); cbn [negb andb orb]; [reflexivity | ].
    destruct (Value_eq (eval e env) (eval v env)); reflexivity.
  - cbn [IN_as_OR eval_bool]. rewrite IH. cbn [map existsb].
    unfold ComparisonOperator_eval, booleval.
    destruct (unknown (eval e env)); [reflexivity | ].
    destruct (unknown (eval v env)); cbn [negb andb orb].
    + repeat match goal with
             | |- context [if ?b then _ else _] => destruct b
             end; reflexivity.
    + destruct (Value_eq (eval e env) (eval v env)); cbn [orb];
        [reflexivity | ].
      repeat match goal with
             | |- context [if ?b then _ else _] => destruct b
             end; reflexivity.
Qed.

(** X6. [x IN (v1, ..., vn)] evaluates as [x = v1 OR ... OR x = vn];
    with an empty list it is Unknown for an unknown [x] and False
    otherwise. *)
Theorem in_is_or_of_equalities (e v : ValueExpression)
  (rest : list ValueExpression) (env : Env) :
  eval_bool (InExpression e (v :: rest)) env =
    eval_bool (IN_as_OR e v rest) env /\
  eval_bool (InExpression e []) env =
    (if unknown (eval e env) then BN_UNKNOWN else BN_FALSE).
Proof.
  split; [ | reflexivity ].
  rewrite IN_as_OR_spec. cbn [eval_bool].
  unfold InExpression_eval_bool, spec_IN.
  destruct (unknown (eval e env)); [reflexivity | ].
  apply InExpression_loop_spec.
Qed.

(** X7. [x NOT IN (...)] is [NOT (x IN (...))], except when [x] is
    known, equals no element, no element is unknown and some element is
    of an incompatible type: then NOT IN is False where NOT (IN) is
    True. *)
Theorem not_in_versus_not_of_in (e : ValueExpression)
  (l : list ValueExpression) (env : Env) :
  eq_respects_types ->
  let ve := eval e env in
  let li := map (fun le => eval le env) l in
  eval_bool (NotInExpression e l) env =
    if negb (unknown ve) && negb (some_equal ve li)
       && negb (some_unknown li) && some_incompatible ve li
    then BN_FALSE
    else eval_bool (UnaryBooleanExpression Not (InExpression e l)) env.
Proof.
  intros Heq. cbv zeta. cbn [eval_bool eval].
  unfold InExpression_eval_bool, NotInExpression_eval_bool.
  destruct (unknown (eval e env)); [reflexivity | ].
  rewrite InExpression_loop_spec, (NotInExpression_loop_spec _ _ Heq).
  cbn [BoolOrNone_eqb negb andb].
  repeat match goal with
         | |- context [if ?b then _ else _] => destruct b; cbn
         end; reflexivity.
Qed.

(** X8. At the top level a selector is true exactly when its root is
    True, and false otherwise: when the root is Unknown both the selector
    and its negation are false; when it is not, the negation is true
    exactly when the selector is false. *)
Theorem evaluate_of_negation (e : ValueExpression) (env : Env) :
  (Expression_eval (ConcreteExpression (Some e)) env = Some true <->
   eval_bool e env = BN_TRUE) /\
  (Expression_eval (ConcreteExpression (Some e)) env = Some false <->
   eval_bool e env <> BN_TRUE) /\
  (eval_bool e env = BN_UNKNOWN ->
   Expression_eval (ConcreteExpression (Some e)) env = Some false /\
   Expression_eval
     (ConcreteExpression (Some (UnaryBooleanExpression Not e))) env
   = Some false) /\
  (eval_bool e env <> BN_UNKNOWN ->
   Expression_eval
     (ConcreteExpression (Some (UnaryBooleanExpression Not e))) env
   = option_map negb (Expression_eval (ConcreteExpression (Some e)) env)).
Proof.
  cbn [Expression_eval eval_bool UnaryBooleanOperator_eval option_map].
  destruct (eval_bool e env); cbn;
    (split; [ split; intros H; first [reflexivity | discriminate] | ]);
    (split; [ split; intros H;
              first [ reflexivity | discriminate
                    | exfalso; apply H; reflexivity ] | ]);
    split; intros H;
    try discriminate; try (split; reflexivity); try reflexivity;
    exfalso; apply H; reflexivity.
Qed.

End Evaluator.

(** X7 at [1 NOT IN ('a')] and at [1 NOT IN (2)]. *)
Lemma not_in_versus_not_of_in_witness :
  eval_bool (C := sample)
    (NotInExpression (Literal (V_EXACT 1)) [StringLiteral "a"])
    (fun _ => V_UNKNOWN) = BN_FALSE /\
  eval_bool (C := sample)
    (NotInExpression (Literal (V_EXACT 1)) [Literal (V_EXACT 2)])
    (fun _ => V_UNKNOWN) =
  eval_bool (C := sample)
    (UnaryBooleanExpression Not
       (InExpression (Literal (V_EXACT 1)) [Literal (V_EXACT 2)]))
    (fun _ => V_UNKNOWN).
Proof.
  split.
  - exact (not_in_versus_not_of_in (C := sample) (Literal (V_EXACT 1))
             [StringLiteral "a"] (fun _ => V_UNKNOWN)
             sample_eq_respects_types).
  - exact (not_in_versus_not_of_in (C := sample) (Literal (V_EXACT 1))
             [Literal (V_EXACT 2)] (fun _ => V_UNKNOWN)
             sample_eq_respects_types).
Defined.

(** * Further properties of the exact numeric literal compiler *)

Section Numerals.

Local Open Scope Z_scope.

Lemma digit_char_facts (c : ascii) :
  digit_value c <> None ->
  isspace c = false /\ Ascii.eqb c "-" = false /\ Ascii.eqb c "+" = false /\
  Ascii.eqb c "_" = false.
Proof.
  destruct c as [[] [] [] [] [] [] [] []]; vm_compute; intros H;
    first [ exfalso; apply H; reflexivity | repeat split ].
Qed.

Lemma decimal_char_facts (c : ascii) :
  digit_below 10 c = true ->
  existsb (Ascii.eqb c) ["b"; "B"; "x"; "X"]%char = false.
Proof.
  destruct c as [[] [] [] [] [] [] [] []]; vm_compute; intros H;
    first [ discriminate | reflexivity ].
Qed.

Lemma digit_below_value b c :
  digit_below b c = true -> digit_value c <> None.
Proof. unfold digit_below. destruct (digit_value c); [discriminate | discriminate]. Qed.

Lemma remove_copy_numeral b s :
  string_forallb (digit_below b) s = true -> remove_copy s "_" = s.
Proof.
  induction s as [ | c s IH ]; cbn; [reflexivity | ].
  intros H. apply andb_prop in H as [Hc Hs].
  destruct (digit_char_facts c (digit_below_value _ _ Hc)) as (_ & _ & _ & Hu).
  rewrite Hu, (IH Hs). reflexivity.
Qed.

(** [strtoull] on a numeral of the base (10 when the base is left to it) *)
Lemma strtoull_numeral (b b' : Z) (s : string) :
  numeral b' s = true ->
  (b = 0 /\ b' = 10) \/ (b = b' /\ b <> 0) ->
  strtoull s b =
    (if ULLONG_MAX <? strtoull_digits b' 0 s then (ULLONG_MAX, true)
     else (strtoull_digits b' 0 s, false)).
Proof.
  intros Hn Hb. unfold strtoull.
  assert (Hsub : strtoull_subject s b = (false, b', s)).
  { unfold strtoull_subject, numeral in *.
    destruct s as [ | c rest ]; [discriminate | ].
    apply andb_prop in Hn as [H0 Hall]. cbn [string_forallb] in Hall.
    apply andb_prop in Hall as [Hc _].
    destruct (digit_char_facts c (digit_below_value _ _ Hc))
      as (Hsp & Hm & Hp & _).
    cbn [skip_space]. rewrite Hsp.
    apply negb_true_iff in H0.
    assert (Hsign : match String c rest with
                    | String "-" r => (true, r)
                    | String "+" r => (false, r)
                    | _ => (false, String c rest)
                    end = (false, String c rest)).
    { destruct (Ascii.eqb_spec c "-"); [discriminate | ].
      destruct (Ascii.eqb_spec c "+"); [discriminate | ].
      destruct c as [[] [] [] [] [] [] [] []]; try reflexivity; congruence. }
    rewrite Hsign.
    assert (Hhex : is_hex_prefix (String c rest) = false).
    { unfold is_hex_prefix.
      destruct c as [[] [] [] [] [] [] [] []]; try reflexivity; discriminate. }
    rewrite Hhex, andb_false_r.
    destruct Hb as [[-> ->] | [-> Hnz]].
    - cbn [Z.eqb].
      destruct c as [[] [] [] [] [] [] [] []]; try reflexivity; discriminate.
    - apply Z.eqb_neq in Hnz. rewrite Hnz. reflexivity. }
  rewrite Hsub. destruct (ULLONG_MAX <? _); reflexivity.
Qed.

Lemma strtoull_digits_nonneg (b : Z) (s : string) :
  forall acc, 0 <= acc -> 0 <= strtoull_digits b acc s.
Proof.
  induction s as [ | c s IH ]; intros acc Hacc; cbn [strtoull_digits];
    [assumption | ].
  destruct (digit_value c) as [d | ] eqn:Hd; [ | assumption ].
  destruct (d <? b) eqn:Hlt; [ | assumption ].
  apply IH. apply Z.ltb_lt in Hlt.
  assert (0 <= d).
  { unfold digit_value in Hd.
    repeat match type of Hd with
           | (if ?x then _ else _) = _ => destruct x eqn:?
           end; inversion Hd; subst; lia. }
  nia.
Qed.

Lemma exactNumeric_value_decimal (s : string) (negate : bool) :
  numeral 10 s = true ->
  exactNumeric_value s negate =
    decimal_literal_value (strtoull_digits 10 0 s) negate.
Proof.
  intros Hn.
  assert (Hv := strtoull_numeral 0 10 s Hn (or_introl (conj eq_refl eq_refl))).
  assert (Hpos := strtoull_digits_nonneg 10 s 0 (Z.le_refl 0)).
  unfold numeral in Hn. destruct s as [ | c rest ]; [discriminate | ].
  apply andb_prop in Hn as [H0 Hall]. apply negb_true_iff in H0.
  assert (Hbase : exactNumeric_base (String c rest) = (0, String c rest)).
  { unfold exactNumeric_base. rewrite (remove_copy_numeral _ _ Hall).
    assert (H1 : existsb (Ascii.eqb (string_at (String c rest) 1))
                   ["b"; "B"; "x"; "X"]%char = false).
    { cbn [string_forallb] in Hall. apply andb_prop in Hall as [_ Hrest].
      destruct rest as [ | c' rest' ]; [reflexivity | ].
      cbn [string_forallb] in Hrest. apply andb_prop in Hrest as [Hc' _].
      exact (decimal_char_facts c' Hc'). }
    cbn [existsb] in H1. rewrite orb_false_r in H1.
    apply orb_false_elim in H1 as [Hb H1].
    apply orb_false_elim in H1 as [HB H1].
    apply orb_false_elim in H1 as [Hx HX].
    rewrite Hb, HB, Hx, HX. cbn [orb].
    change (string_at (String c rest) 0) with c. rewrite H0. reflexivity. }
  unfold exactNumeric_value, decimal_literal_value. rewrite Hbase, Hv.
  set (n := strtoull_digits 10 0 (String c rest)) in *.
  unfold int64_of_uint64, int64_neg, ULLONG_MAX, INT64_MAX, INT64_MIN in *.
  destruct (18446744073709551615 <? n) eqn:Hbig; cbn [negb andb orb Z.eqb].
  - apply Z.ltb_lt in Hbig.
    replace (n <=? 9223372036854775807) with false
      by (symmetry; apply Z.leb_gt; lia).
    destruct negate; cbn [andb]; [ | reflexivity ].
    replace (n =? 9223372036854775807 + 1) with false
      by (symmetry; apply Z.eqb_neq; lia).
    reflexivity.
  - destruct (n <=? 9223372036854775807) eqn:Hle.
    + apply Z.leb_le in Hle.
      replace (9223372036854775807 <? n) with false
        by (symmetry; apply Z.ltb_ge; lia).
      destruct negate; [ | reflexivity ].
      replace (n =? -9223372036854775808) with false
        by (symmetry; apply Z.eqb_neq; lia).
      reflexivity.
    + reflexivity.
Qed.

Lemma exactNumeric_value_radix (p : ascii) (b : Z) (s : string)
  (negate : bool) :
  (b = 2 /\ (p = "b" \/ p = "B")%char) \/ (b = 16 /\ (p = "x" \/ p = "X")%char) ->
  numeral b s = true ->
  exactNumeric_value (String "0" (String p s)) negate =
    radix_literal_value (strtoull_digits b 0 s) negate.
Proof.
  intros Hp Hn.
  assert (Hv : strtoull s b =
               (if ULLONG_MAX <? strtoull_digits b 0 s then (ULLONG_MAX, true)
                else (strtoull_digits b 0 s, false))).
  { apply strtoull_numeral; [assumption | right; split; [reflexivity | ] ].
    destruct Hp as [[-> _] | [-> _]]; discriminate. }
  assert (Hbase : exactNumeric_base (String "0" (String p s)) = (b, s)).
  { unfold numeral in Hn. destruct s as [ | c rest ]; [discriminate | ].
    apply andb_prop in Hn as [H0 Hall]. apply negb_true_iff in H0.
    rewrite exactNumeric_base_after_prefix.
    - change (string_at (String c rest) 0) with c. rewrite H0.
      destruct Hp as [[-> [-> | ->]] | [-> [-> | ->]]]; reflexivity.
    - exact (remove_copy_numeral _ _ Hall).
    - destruct Hp as [[_ [-> | ->]] | [_ [-> | ->]]]; reflexivity. }
  unfold exactNumeric_value, radix_literal_value. rewrite Hbase, Hv.
  assert (Hb0 : (b =? 0) = false)
    by (destruct Hp as [[-> _] | [-> _]]; reflexivity).
  rewrite Hb0.
  destruct (ULLONG_MAX <? strtoull_digits b 0 s) eqn:Hbig; cbn [negb andb orb].
  - replace (strtoull_digits b 0 s <=? ULLONG_MAX) with false
      by (symmetry; apply Z.leb_gt; apply Z.ltb_lt; exact Hbig).
    destruct negate; reflexivity.
  - replace (strtoull_digits b 0 s <=? ULLONG_MAX) with true
      by (symmetry; apply Z.leb_le; apply Z.ltb_ge; exact Hbig).
    reflexivity.
Qed.

(** Decimal numerals as the standard library prints them *)
Lemma string_of_uint_digits (d : Decimal.uint) :
  string_forallb (digit_below 10) (DecimalString.NilEmpty.string_of_uint d)
  = true.
Proof.
  induction d; cbn [DecimalString.NilEmpty.string_of_uint string_forallb];
    rewrite ?IHd; reflexivity.
Qed.

Lemma strtoull_digits_of_uint_acc (d : Decimal.uint) :
  forall acc,
    strtoull_digits 10 (Zpos acc) (DecimalString.NilEmpty.string_of_uint d)
    = Zpos (Pos.of_uint_acc d acc).
Proof.
  induction d; intros acc;
    cbn [DecimalString.NilEmpty.string_of_uint Pos.of_uint_acc];
    [reflexivity | .. ];
    match goal with
    | |- strtoull_digits 10 ?a (String ?c ?r) = _ =>
        change (strtoull_digits 10 a (String c r))
          with (match digit_value c with
                | Some dv => if dv <? 10
                             then strtoull_digits 10 (a * 10 + dv) r
                             else a
                | None => a
                end)
    end;
    match goal with
    | |- context [digit_value ?c] =>
        let v := eval vm_compute in (digit_value c) in
        change (digit_value c) with v
    end; cbv iota;
    match goal with
    | |- context [?dv <? 10] =>
        change (dv <? 10) with true
    end; cbv iota;
    match goal with
    | |- strtoull_digits 10 ?a _ = Zpos (Pos.of_uint_acc _ ?q) =>
        replace a with (Zpos q) by lia
    end; apply IHd.
Qed.

Lemma strtoull_digits_of_uint (d : Decimal.uint) :
  strtoull_digits 10 0 (DecimalString.NilEmpty.string_of_uint d)
  = Z.of_N (Pos.of_uint d).
Proof.
  induction d; cbn [DecimalString.NilEmpty.string_of_uint Pos.of_uint];
    [reflexivity | exact IHd | .. ];
    match goal with
    | |- strtoull_digits 10 0 (String ?c ?r) = Z.of_N (N.pos (Pos.of_uint_acc _ ?q)) =>
        change (strtoull_digits 10 0 (String c r))
          with (strtoull_digits 10 (Zpos q) r)
    end; apply strtoull_digits_of_uint_acc.
Qed.

Lemma to_uint_head (p : positive) :
  numeral 10 (DecimalString.NilEmpty.string_of_uint (Pos.to_uint p)) = true.
Proof.
  assert (Hnorm : Decimal.unorm (Pos.to_uint p) = Pos.to_uint p).
  { rewrite <- (DecimalPos.Unsigned.to_of (Pos.to_uint p)).
    rewrite DecimalPos.Unsigned.of_to. reflexivity. }
  pose proof (string_of_uint_digits (Pos.to_uint p)) as Hd.
  pose proof (DecimalPos.Unsigned.to_uint_nonnil p) as Hnil.
  pose proof (DecimalPos.Unsigned.to_uint_nonzero p) as Hz.
  unfold numeral.
  destruct (Pos.to_uint p) as [ | u | u | u | u | u | u | u | u | u | u ] eqn:E;
    [ congruence | | .. ];
    cbn [DecimalString.NilEmpty.string_of_uint] in *;
    try (rewrite Hd; reflexivity).
  exfalso. unfold Decimal.unorm in Hnorm. cbn [Decimal.nzhead] in Hnorm.
  destruct (Decimal.nzhead u) eqn:Hu.
  - apply Hz. exact (eq_sym Hnorm).
  - exact (DecimalFacts.nzhead_nonzero u _ (eq_trans Hu Hnorm)).
  - discriminate. - discriminate. - discriminate. - discriminate.
  - discriminate. - discriminate. - discriminate. - discriminate.
  - discriminate.
Qed.

Lemma exactNumeric_value_of_pos (p : positive) (negate : bool) :
  exactNumeric_value
    (DecimalString.NilEmpty.string_of_uint (Pos.to_uint p)) negate
  = decimal_literal_value (Zpos p) negate.
Proof.
  rewrite (exactNumeric_value_decimal _ _ (to_uint_head p)).
  rewrite strtoull_digits_of_uint, DecimalPos.Unsigned.of_to. reflexivity.
Qed.

(** X9. Reading back a printed decimal number: the decimal numeral of
    any natural number [n] compiles to [n] when [n <= INT64_MAX], under
    the fused minus to [-n], and also to [INT64_MIN] when
    [n = INT64_MAX + 1]; every larger or otherwise placed number is
    refused. *)
Theorem decimal_numeral_round_trip (n : N) (negate : bool) :
  exactNumeric_value
    (DecimalString.NilEmpty.string_of_uint (N.to_uint n)) negate
  = decimal_literal_value (Z.of_N n) negate.
Proof.
  destruct n as [ | p ].
  - destruct negate; reflexivity.
  - cbn [N.to_uint Z.of_N]. apply exactNumeric_value_of_pos.
Qed.

(** Binary and hexadecimal numerals as the standard library prints them *)
Lemma bin_char (c : ascii) :
  digit_below 2 c = true ->
  exists v, digit_value c = Some (Z.of_N v) /\
            BinaryString.ascii_to_digit c = Some v.
Proof.
  destruct c as [[] [] [] [] [] [] [] []]; vm_compute; intros H;
    first [ discriminate | eexists; split; [ | reflexivity ]; reflexivity ].
Qed.

Lemma hex_char (c : ascii) :
  digit_below 16 c = true ->
  exists v, digit_value c = Some (Z.of_N v) /\
            HexString.ascii_to_digit c = Some v.
Proof.
  destruct c as [[] [] [] [] [] [] [] []]; vm_compute; intros H;
    first [ discriminate | eexists; split; [ | reflexivity ]; reflexivity ].
Qed.

Lemma strtoull_digits_bin (s : string) :
  string_forallb (digit_below 2) s = true ->
  forall acc,
    strtoull_digits 2 (Z.of_N acc) s = Z.of_N (BinaryString.Raw.to_N s acc).
Proof.
  induction s as [ | c s IH ]; intros H acc; [reflexivity | ].
  cbn [string_forallb] in H. apply andb_prop in H as [Hc Hs].
  destruct (bin_char c Hc) as (v & Hv & Hv').
  cbn [strtoull_digits BinaryString.Raw.to_N]. rewrite Hv, Hv'.
  unfold digit_below in Hc. rewrite Hv in Hc. rewrite Hc.
  replace (Z.of_N acc * 2 + Z.of_N v) with (Z.of_N (v + N.double acc))
    by (rewrite N.double_spec; lia).
  apply (IH Hs).
Qed.

Lemma strtoull_digits_hex (s : string) :
  string_forallb (digit_below 16) s = true ->
  forall acc,
    strtoull_digits 16 (Z.of_N acc) s = Z.of_N (HexString.Raw.to_N s acc).
Proof.
  induction s as [ | c s IH ]; intros H acc; [reflexivity | ].
  cbn [string_forallb] in H. apply andb_prop in H as [Hc Hs].
  destruct (hex_char c Hc) as (v & Hv & Hv').
  cbn [strtoull_digits HexString.Raw.to_N]. rewrite Hv, Hv'.
  unfold digit_below in Hc. rewrite Hv in Hc. rewrite Hc.
  replace (Z.of_N acc * 16 + Z.of_N v) with (Z.of_N (v + 16 * acc)) by lia.
  apply (IH Hs).
Qed.

Lemma bin_of_pos_numeral (p : positive) :
  forall rest,
    string_forallb (digit_below 2) rest = true ->
    numeral 2 (BinaryString.Raw.of_pos p rest) = true.
Proof.
  induction p as [p IH | p IH | ]; intros rest H;
    cbn [BinaryString.Raw.of_pos].
  - apply IH. cbn [string_forallb]. rewrite H. reflexivity.
  - apply IH. cbn [string_forallb]. rewrite H. reflexivity.
  - unfold numeral. cbn [string_forallb]. rewrite H. reflexivity.
Qed.

Lemma hex_of_pos_numeral :
  forall (p : positive) (rest : string),
    string_forallb (digit_below 16) rest = true ->
    numeral 16 (HexString.Raw.of_pos p rest) = true.
Proof.
  fix hex_of_pos_numeral 1. intros p rest H.
  do 4 try destruct p as [p | p | ]; cbn [HexString.Raw.of_pos];
    first [ apply hex_of_pos_numeral; cbn [string_forallb]; rewrite H;
            reflexivity
          | unfold numeral; cbn [string_forallb]; rewrite H; reflexivity ].
Qed.

Lemma binary_numeral_round_trip (p : positive) (negate : bool) :
  exactNumeric_value (BinaryString.of_pos p) negate
  = radix_literal_value (Zpos p) negate.
Proof.
  unfold BinaryString.of_pos.
  pose proof (bin_of_pos_numeral p "" eq_refl) as Hn.
  rewrite (exactNumeric_value_radix "b" 2 _ negate
             (or_introl (conj eq_refl (or_introl eq_refl))) Hn).
  assert (Hd : string_forallb (digit_below 2) (BinaryString.Raw.of_pos p "")
               = true).
  { unfold numeral in Hn. destruct (BinaryString.Raw.of_pos p "");
      [discriminate | ]. apply andb_prop in Hn as [_ Hn]. exact Hn. }
  change 0%Z with (Z.of_N 0).
  rewrite (strtoull_digits_bin _ Hd), BinaryString.Raw.to_N_of_pos.
  reflexivity.
Qed.

Lemma hex_numeral_round_trip (p : positive) (negate : bool) :
  exactNumeric_value (HexString.of_pos p) negate
  = radix_literal_value (Zpos p) negate.
Proof.
  unfold HexString.of_pos.
  pose proof (hex_of_pos_numeral p "" eq_refl) as Hn.
  rewrite (exactNumeric_value_radix "x" 16 _ negate
             (or_intror (conj eq_refl (or_introl eq_refl))) Hn).
  assert (Hd : string_forallb (digit_below 16) (HexString.Raw.of_pos p "")
               = true).
  { unfold numeral in Hn. destruct (HexString.Raw.of_pos p "");
      [discriminate | ]. apply andb_prop in Hn as [_ Hn]. exact Hn. }
  change 0%Z with (Z.of_N 0).
  rewrite (strtoull_digits_hex _ Hd), HexString.Raw.to_N_of_pos.
  reflexivity.
Qed.

Lemma strtoull_range (nptr : string) (base : Z) :
  0 <= fst (strtoull nptr base) <= ULLONG_MAX.
Proof.
  unfold strtoull.
  destruct (strtoull_subject nptr base) as [[minus b] s].
  pose proof (strtoull_digits_nonneg b s 0 (Z.le_refl 0)) as Hn.
  unfold ULLONG_MAX in *.
  destruct (18446744073709551615 <? strtoull_digits b 0 s) eqn:Hbig;
    cbn [fst]; [lia | ].
  apply Z.ltb_ge in Hbig.
  destruct minus; cbn [fst]; [ | lia ].
  pose proof (Z.mod_pos_bound (2 ^ 64 - strtoull_digits b 0 s) (2 ^ 64)
                ltac:(lia)). lia.
Qed.

Lemma exactNumeric_value_fits (text : string) (negate : bool) (r : Z) :
  exactNumeric_value text negate = Some r ->
  (INT64_MIN <=? r) && (r <=? INT64_MAX) = true.
Proof.
  intros H. apply andb_true_intro. rewrite !Z.leb_le. revert H.
  unfold exactNumeric_value.
  destruct (exactNumeric_base text) as [base s].
  pose proof (strtoull_range s base) as Hr.
  destruct (strtoull s base) as [value errno]. cbn [fst] in Hr.
  unfold int64_of_uint64, int64_neg, INT64_MIN, INT64_MAX, ULLONG_MAX in *.
  destruct (negb errno && (negb (base =? 0) || (value <=? 9223372036854775807))).
  - intros [= <-].
    destruct (9223372036854775807 <? value) eqn:Hv;
      [apply Z.ltb_lt in Hv | apply Z.ltb_ge in Hv];
      destruct negate; try lia;
      match goal with
      | |- context [?x =? ?y] => destruct (Z.eqb_spec x y)
      end; lia.
  - destruct (negate && (value =? 9223372036854775807 + 1));
      [intros [= <-]; lia | discriminate].
Qed.

(** X11. Whatever the text of the token, a literal that compiles has a
    value in the signed 64-bit range. *)
Theorem exact_literal_in_int64_range (text : string) (negate : bool) (r : Z) :
  exactNumeric_value text negate = Some r ->
  INT64_MIN <= r <= INT64_MAX.
Proof.
  intros H. pose proof (exactNumeric_value_fits text negate r H) as Hb.
  apply andb_prop in Hb as [Hlo Hhi].
  split; [exact (proj1 (Z.leb_le _ _) Hlo) | exact (proj1 (Z.leb_le _ _) Hhi)].
Qed.

Lemma remove_copy_app (a b : string) (c : ascii) :
  remove_copy (a ++ b) c = remove_copy a c ++ remove_copy b c.
Proof.
  induction a as [ | x a IH ]; cbn; [reflexivity | ].
  destruct (Ascii.eqb x c); cbn; now rewrite IH.
Qed.

(** X12. An underscore anywhere in the text of an exact numeric literal,
    also first, last or inside a radix prefix, changes nothing. *)
Theorem underscores_are_ignored (a b : string) (negate : bool) :
  exactNumeric_value (a ++ String "_" b) negate =
  exactNumeric_value (a ++ b) negate.
Proof.
  unfold exactNumeric_value, exactNumeric_base.
  rewrite !remove_copy_app. cbn [remove_copy].
  change (Ascii.eqb "_" "_") with true. cbv iota. reflexivity.
Qed.

(** X13. A literal that compiles on its own compiles under the fused
    minus as well, to the two's complement negation of its value. *)
Theorem fused_minus_negates (text : string) (r : Z) :
  exactNumeric_value text false = Some r ->
  exactNumeric_value text true = Some (int64_neg r).
Proof.
  unfold exactNumeric_value.
  destruct (exactNumeric_base text) as [base s].
  destruct (strtoull s base) as [value errno].
  destruct (negb errno && (negb (base =? 0) || (value <=? INT64_MAX))).
  - now intros [= <-].
  - discriminate.
Qed.

Lemma oct_char (c : ascii) :
  digit_below 8 c = true ->
  exists v, digit_value c = Some (Z.of_N v) /\
            OctalString.ascii_to_digit c = Some v.
Proof.
  destruct c as [[] [] [] [] [] [] [] []]; vm_compute; intros H;
    first [ discriminate | eexists; split; [ | reflexivity ]; reflexivity ].
Qed.

Lemma octal_char_facts (c : ascii) :
  digit_below 8 c = true ->
  existsb (Ascii.eqb c) ["b"; "B"; "x"; "X"]%char = false.
Proof.
  destruct c as [[] [] [] [] [] [] [] []]; vm_compute; intros H;
    first [ discriminate | reflexivity ].
Qed.

Lemma strtoull_digits_oct (s : string) :
  string_forallb (digit_below 8) s = true ->
  forall acc,
    strtoull_digits 8 (Z.of_N acc) s = Z.of_N (OctalString.Raw.to_N s acc).
Proof.
  induction s as [ | c s IH ]; intros H acc; [reflexivity | ].
  cbn [string_forallb] in H. apply andb_prop in H as [Hc Hs].
  destruct (oct_char c Hc) as (v & Hv & Hv').
  cbn [strtoull_digits OctalString.Raw.to_N]. rewrite Hv, Hv'.
  unfold digit_below in Hc. rewrite Hv in Hc. rewrite Hc.
  replace (Z.of_N acc * 8 + Z.of_N v) with (Z.of_N (v + 8 * acc)) by lia.
  apply (IH Hs).
Qed.

Lemma oct_of_pos_numeral :
  forall (p : positive) (rest : string),
    string_forallb (digit_below 8) rest = true ->
    numeral 8 (OctalString.Raw.of_pos p rest) = true.
Proof.
  fix oct_of_pos_numeral 1. intros p rest H.
  do 3 try destruct p as [p | p | ]; cbn [OctalString.Raw.of_pos];
    first [ apply oct_of_pos_numeral; cbn [string_forallb]; rewrite H;
            reflexivity
          | unfold numeral; cbn [string_forallb]; rewrite H; reflexivity ].
Qed.

Lemma octal_numeral_round_trip (p : positive) (negate : bool) :
  exactNumeric_value (String "0" (OctalString.Raw.of_pos p "")) negate
  = radix_literal_value (Zpos p) negate.
Proof.
  pose proof (oct_of_pos_numeral p "" eq_refl) as Hn.
  set (ds := OctalString.Raw.of_pos p "") in *.
  assert (Hd : string_forallb (digit_below 8) ds = true).
  { unfold numeral in Hn. destruct ds; [discriminate | ].
    apply andb_prop in Hn as [_ Hn]. exact Hn. }
  assert (Hbase : exactNumeric_base (String "0" ds) = (8, String "0" ds)).
  { unfold exactNumeric_base.
    assert (Hrc : remove_copy (String "0" ds) "_" = String "0" ds).
    { cbn [remove_copy]. change (Ascii.eqb "0" "_") with false. cbv iota.
      now rewrite (remove_copy_numeral _ _ Hd). }
    rewrite Hrc.
    assert (H1 : existsb (Ascii.eqb (string_at (String "0" ds) 1))
                   ["b"; "B"; "x"; "X"]%char = false).
    { destruct ds as [ | c rest ]; [reflexivity | ].
      cbn [string_forallb] in Hd. apply andb_prop in Hd as [Hc _].
      exact (octal_char_facts c Hc). }
    cbn [existsb] in H1. rewrite orb_false_r in H1.
    apply orb_false_elim in H1 as [Hb H1].
    apply orb_false_elim in H1 as [HB H1].
    apply orb_false_elim in H1 as [Hx HX].
    rewrite Hb, HB, Hx, HX. reflexivity. }
  assert (Hdig : strtoull_digits 8 0 (String "0" ds) = Zpos p).
  { change (strtoull_digits 8 0 (String "0" ds))
      with (strtoull_digits 8 (Z.of_N 0) ds).
    rewrite (strtoull_digits_oct _ Hd). unfold ds.
    now rewrite OctalString.Raw.to_N_of_pos. }
  assert (Hv : strtoull (String "0" ds) 8 =
               (if ULLONG_MAX <? Zpos p then (ULLONG_MAX, true)
                else (Zpos p, false))).
  { unfold strtoull.
    change (strtoull_subject (String "0" ds) 8)
      with (false, 8, String "0" ds).
    cbv beta iota zeta. rewrite Hdig. destruct (ULLONG_MAX <? Zpos p); reflexivity. }
  unfold exactNumeric_value, radix_literal_value. rewrite Hbase, Hv.
  destruct (ULLONG_MAX <? Z.pos p) eqn:Hbig; cbn [negb andb orb Z.eqb].
  - replace (Z.pos p <=? ULLONG_MAX) with false
      by (symmetry; apply Z.leb_gt; apply Z.ltb_lt; exact Hbig).
    destruct negate; reflexivity.
  - replace (Z.pos p <=? ULLONG_MAX) with true
      by (symmetry; apply Z.leb_le; apply Z.ltb_ge; exact Hbig).
    reflexivity.
Qed.

(** X10. Reading back a printed number in the three radix notations: the
    binary numeral [0b...], the hexadecimal numeral [0x...] and the octal
    numeral [0...] of any positive number [p], printed without leading
    zeros, compile to the signed value of the 64 bits of [p] when
    [p < 2^64] (negated under the fused minus) and are refused
    otherwise. *)
Theorem radix_numeral_round_trip (p : positive) (negate : bool) :
  exactNumeric_value (BinaryString.of_pos p) negate
    = radix_literal_value (Zpos p) negate /\
  exactNumeric_value (HexString.of_pos p) negate
    = radix_literal_value (Zpos p) negate /\
  exactNumeric_value (String "0" (OctalString.Raw.of_pos p "")) negate
    = radix_literal_value (Zpos p) negate.
Proof.
  split; [ | split ].
  - apply binary_numeral_round_trip.
  - apply hex_numeral_round_trip.
  - apply octal_numeral_round_trip.
Qed.

End Numerals.

(** X11 at the literal [0xFFFFFFFFFFFFFFFF], which compiles to -1. *)
Lemma exact_literal_in_int64_range_witness :
  exactNumeric_value "0xFFFFFFFFFFFFFFFF" false = Some (-1)%Z /\
  (INT64_MIN <= -1 <= INT64_MAX)%Z.
Proof.
  split; [reflexivity | ].
  apply (exact_literal_in_int64_range "0xFFFFFFFFFFFFFFFF" false (-1)).
  reflexivity.
Defined.

(** X13 at the literal [1_000]. *)
Lemma fused_minus_negates_witness :
  exactNumeric_value "1_000" false = Some 1000%Z /\
  exactNumeric_value "1_000" true = Some (int64_neg 1000).
Proof.
  split; [reflexivity | ].
  apply (fused_minus_negates "1_000" 1000). reflexivity.
Defined.

(** * What the parser builds and what it raises *)

Section Invariants.

Context {C : Collaborators}.
Variable ts : list Token.

Lemma obeys_ret {A : Type} (a : A) st Q (E : Exception -> Prop) :
  Q a st -> obeys (ret a) st Q E.
Proof. exact (fun H => H). Qed.

Lemma obeys_bind {A B : Type} (m : M A) (k : A -> M B) st
  (Q : B -> ParseState -> Prop) (E : Exception -> Prop) :
  obeys m st (fun a st' => obeys (k a) st' Q E) E ->
  obeys (bind m k) st Q E.
Proof. unfold obeys, bind. destruct (m st); auto. Qed.

Lemma obeys_bind_ptr {A B : Type} (m : M (option A))
  (k : A -> M (option B)) st (Q : option B -> ParseState -> Prop)
  (E : Exception -> Prop) :
  obeys m st (fun o st' => match o with
                           | Some a => obeys (k a) st' Q E
                           | None => Q None st'
                           end) E ->
  obeys (bind_ptr m k) st Q E.
Proof.
  intros H. apply obeys_bind. unfold obeys in *.
  destruct (m st) as [ [a | ] st' | | ]; auto.
Qed.

Lemma obeys_weaken {A : Type} (m : M A) st
  (Q Q' : A -> ParseState -> Prop) (E : Exception -> Prop) :
  obeys m st Q E -> (forall a st', Q a st' -> Q' a st') ->
  obeys m st Q' E.
Proof. unfold obeys. destruct (m st); auto. Qed.

Lemma obeys_nextToken st (Q : Token -> ParseState -> Prop)
  (E : Exception -> Prop) :
  drawn_from ts st ->
  (forall t st',
     drawn_from ts st' ->
     lastToken (tokeniser st') = Some t ->
     In t ts \/ t = eosToken ->
     Q t st') ->
  obeys nextToken st Q E.
Proof.
  intros (Hu & Hp & Hl) HQ. unfold obeys, nextToken, Tokeniser_nextToken.
  destruct st as [[pb last ur] err]. cbn in *.
  destruct pb as [t | ].
  - apply HQ; cbn; auto. repeat split; cbn; auto.
  - destruct ur as [ | t ur ].
    + apply HQ; cbn; auto. repeat split; cbn; auto.
    + assert (In t ts) by (apply Hu; left; reflexivity).
      apply HQ; cbn; auto. repeat split; cbn; auto.
      intros x Hx. apply Hu. right. exact Hx.
Qed.

Lemma obeys_returnTokens st (Q : unit -> ParseState -> Prop)
  (E : Exception -> Prop) :
  drawn_from ts st ->
  (forall st',
     drawn_from ts st' ->
     lastToken (tokeniser st') = lastToken (tokeniser st) ->
     Q tt st') ->
  obeys returnTokens st Q E.
Proof.
  intros (Hu & Hp & Hl) HQ. unfold obeys, returnTokens, Tokeniser_returnTokens.
  apply HQ; cbn; auto. repeat split; cbn; auto.
Qed.

Lemma obeys_fail {A : Type} msg st (Q : option A -> ParseState -> Prop)
  (E : Exception -> Prop) :
  Q None (mkParseState (tokeniser st) msg) -> obeys (fail msg) st Q E.
Proof. exact (fun H => H). Qed.

Lemma throwParseError_throws {A : Type} msg st t :
  lastToken (tokeniser st) = Some t ->
  throwParseError (A := A) msg st =
  Throws (range_error ((("Illegal selector: '" ++ val t) ++ "': ") ++ msg)).
Proof.
  intros H. unfold throwParseError, bind, returnTokens, nextToken,
    Tokeniser_returnTokens, Tokeniser_nextToken, throw.
  cbn. rewrite H. reflexivity.
Qed.

Lemma obeys_throwParseError {A : Type} msg st t
  (Q : A -> ParseState -> Prop) (E : Exception -> Prop) :
  lastToken (tokeniser st) = Some t ->
  E (range_error ((("Illegal selector: '" ++ val t) ++ "': ") ++ msg)) ->
  obeys (throwParseError msg) st Q E.
Proof.
  intros H HE. unfold obeys. rewrite (throwParseError_throws msg st t H).
  exact HE.
Qed.

Lemma good_fail st msg :
  drawn_from ts st ->
  good ts None (mkParseState (tokeniser st) msg).
Proof. intros H. split; [exact H | exact I]. Qed.

Lemma good_list_fail st msg :
  drawn_from ts st ->
  good_list ts None (mkParseState (tokeniser st) msg).
Proof. intros H. split; [exact H | exact I]. Qed.

Lemma all_well_formed_app l e :
  all_well_formed l -> well_formed e ->
  (l ++ [e])%list <> [] /\ all_well_formed (l ++ [e])%list.
Proof.
  intros Hl He. split.
  - destruct l; discriminate.
  - induction l as [ | v l IH ]; cbn in *; [tauto | ].
    destruct Hl as [Hv Hl]. split; [exact Hv | exact (IH Hl)].
Qed.

Lemma obeys_parseExactNumeric token negate st :
  drawn_from ts st ->
  obeys (parseExactNumeric token negate) st (good ts) (parse_error ts).
Proof.
  intros H. unfold obeys, parseExactNumeric.
  destruct (exactNumeric_value _ _) as [r | ] eqn:Hr; cbn.
  - split; [exact H | ]. cbn.
    pose proof (exactNumeric_value_fits _ _ _ Hr) as Hb.
    apply andb_prop in Hb as [Hlo Hhi].
    split; [exact (proj1 (Z.leb_le _ _) Hlo) | exact (proj1 (Z.leb_le _ _) Hhi)].
  - split; [exact H | exact I].
Qed.

Lemma obeys_parseApproxNumeric token st :
  drawn_from ts st ->
  obeys (parseApproxNumeric token) st (good ts) (parse_error ts).
Proof.
  intros H. unfold obeys, parseApproxNumeric.
  destruct (strtod _) as [value [ | ]]; cbn; split; auto; exact I.
Qed.

Lemma obeys_primaryExpression st :
  drawn_from ts st ->
  obeys primaryExpression st (good ts) (parse_error ts).
Proof.
  intros H. unfold primaryExpression.
  apply obeys_bind, obeys_nextToken; [assumption | ].
  intros t st' H' _ _.
  destruct (type t);
    first [ now apply obeys_parseExactNumeric
          | now apply obeys_parseApproxNumeric
          | split; [assumption | exact I] ].
Qed.

Lemma obeys_new_LikeExpression e like escape st
  (Q : ValueExpression -> ParseState -> Prop) :
  (1 <? String.length escape)%nat = false ->
  (forall l, (well_formed e -> well_formed l) -> Q l st) ->
  obeys (new_LikeExpression e like escape) st Q (parse_error ts).
Proof.
  intros Hlen HQ. unfold obeys, new_LikeExpression.
  destruct (toRegex like escape) as [ex | reString] eqn:Hre.
  - unfold toRegex in Hre. rewrite Hlen in Hre. discriminate.
  - destruct (regex_new reString) as [regexBuffer | ] eqn:Hnew; cbn.
    + apply HQ. intros He. cbn. repeat split; try assumption.
      exists like, escape. split; [ | exact Hre].
      apply Nat.ltb_ge in Hlen. exact Hlen.
    + left. reflexivity.
Qed.

Lemma known_string t :
  In t ts \/ t = eosToken -> type t = T_STRING -> In t ts.
Proof. intros [H | ->] Ht; [exact H | discriminate]. Qed.

Ltac token_facts :=
  repeat match goal with
  | H : TokenType_eqb (type ?t) ?k = true |- _ =>
      apply TokenType_eqb_true in H
  | H : negb _ = false |- _ => apply negb_false_iff in H
  | H : good _ (Some _) _ |- _ => destruct H as [? ?]
  | H : good_list _ (Some _) _ |- _ => destruct H as [? [? ?]]
  end.

Ltac close_good :=
  first [ assumption
        | apply good_fail; assumption
        | apply good_list_fail; assumption
        | split; [assumption | cbn; repeat split; auto ] ].

Ltac run calls :=
  repeat (token_facts;
  match goal with
  | |- obeys (bind nextToken _) _ _ _ =>
      apply obeys_bind, obeys_nextToken; [assumption | intros ? ? ? ? ?]
  | |- obeys (bind returnTokens _) _ _ _ =>
      apply obeys_bind, obeys_returnTokens; [assumption | intros ? ? ?]
  | |- obeys (bind (new_LikeExpression _ _ _) _) _ _ _ =>
      apply obeys_bind, obeys_new_LikeExpression;
      [first [assumption | reflexivity] | intros ? ?]
  | |- obeys (bind_ptr _ _) _ _ _ =>
      apply obeys_bind_ptr; calls;
      intros [ ? | ] ? ?; [ | close_good ]
  | |- obeys (ret _) _ _ _ => apply obeys_ret; close_good
  | |- obeys (fail _) _ _ _ => apply obeys_fail; close_good
  | |- obeys (if ?b then _ else _) _ _ _ => destruct b eqn:?
  | |- obeys (match type ?t with _ => _ end) _ _ _ => destruct (type t) eqn:?
  | |- obeys primaryExpression _ _ _ =>
      apply obeys_primaryExpression; assumption
  | |- obeys (parseExactNumeric _ _) _ _ _ =>
      apply obeys_parseExactNumeric; assumption
  | |- obeys _ _ _ _ => calls; intros ? ? ?; assumption
  end).

Ltac use IH :=
  eapply obeys_weaken;
  [ first [ apply IH; assumption
          | apply IH; [assumption | cbn; repeat split; auto] ]
  | ].

Lemma parser_obeys_all fuel : parser_obeys ts fuel.
Proof.
  induction fuel as [ | fuel IH ].
  - unfold parser_obeys. repeat split; intros; exact I.
  - destruct IH as (IHun & IHmw & IHmu & IHaw & IHad & IHdo & IHsp & IHcm
                    & IHanw & IHan & IHorw & IHor).
    unfold parser_obeys.
    split; [ | split; [ | split; [ | split; [ | split; [ | split; [ | split; [ | split; [ | split; [ | split; [ | split ]]]]]]]]]].
    + intros st Hok. cbn [unaryArithExpression].
      run ltac:(first [use IHor | use IHun]).
    + intros st e t Hok He. cbn [multiplyExpression_while].
      run ltac:(first [use IHun | use IHmw]).
    + intros st Hok. cbn [multiplyExpression].
      run ltac:(first [use IHun | use IHmw]).
    + intros st e t Hok He. cbn [addExpression_while].
      run ltac:(first [use IHmu | use IHaw]).
    + intros st Hok. cbn [addExpression].
      run ltac:(first [use IHmu | use IHaw]).
    + intros st l Hok Hl. cbn [specialComparisons_do].
      run ltac:(first [use IHad | use IHdo]).
      * eapply obeys_weaken;
          [ apply IHdo; [assumption | now apply all_well_formed_app]
          | intros ? ? ?; assumption ].
      * now apply all_well_formed_app.
      * now apply all_well_formed_app.
    + intros st e1 negated Hok He. cbn [specialComparisons].
      run ltac:(first [use IHad | use IHdo]).
      * eapply obeys_throwParseError; [eassumption | ].
        right. eexists _, _. split; [ | split; [reflexivity | ]].
        -- eapply known_string; eassumption.
        -- right. split; [assumption | ]. left. split; [reflexivity | ].
           now apply Nat.ltb_lt.
      * eapply obeys_throwParseError; [eassumption | ].
        right. eexists _, _. split; [ | split; [reflexivity | ]].
        -- eapply known_string; eassumption.
        -- right. split; [assumption | ]. right. split; [reflexivity | ].
           match goal with
           | H : _ || _ = true |- _ =>
               apply orb_true_iff in H; destruct H as [H | H];
               apply String.eqb_eq in H; auto
           end.
    + intros st Hok. cbn [comparisonExpression].
      run ltac:(first [use IHcm | use IHad | use IHsp]).
    + intros st e Hok He. cbn [andExpression_while].
      run ltac:(first [use IHcm | use IHanw]).
    + intros st Hok. cbn [andExpression].
      run ltac:(first [use IHcm | use IHanw]).
    + intros st e Hok He. cbn [orExpression_while].
      run ltac:(first [use IHan | use IHorw]).
    + intros st Hok. cbn [orExpression].
      run ltac:(first [use IHan | use IHorw]).
Qed.

Lemma obeys_selectorExpression fuel st :
  drawn_from ts st ->
  obeys (selectorExpression fuel) st (good ts) (parse_error ts).
Proof.
  intros Hok.
  destruct (parser_obeys_all fuel)
    as (_ & _ & _ & _ & _ & _ & _ & _ & _ & _ & _ & IHor).
  unfold selectorExpression.
  run ltac:(use IHor).
Qed.

End Invariants.

Section InvariantTheorems.

Context {C : Collaborators}.

Lemma drawn_from_start (ts : list Token) :
  drawn_from ts (mkParseState (newTokeniser ts) "").
Proof. repeat split; cbn; auto. intros x Hx. exact Hx. Qed.

Lemma make_selector_obeys (ts : list Token) :
  match make_selector ts with
  | Compiled (ConcreteExpression (Some e)) => well_formed e
  | Compiled (ConcreteExpression None) => True
  | Raised ex => parse_error ts ex
  | Unfinished => True
  end.
Proof.
  unfold make_selector.
  match goal with
  | |- match match ?run ?st with _ => _ end with _ => _ end =>
      assert (H : obeys run st
                    (fun b _ => match b with
                                | ConcreteExpression (Some e) => well_formed e
                                | ConcreteExpression None => True
                                end) (parse_error ts));
      [ | unfold obeys in H; destruct (run st); exact H ]
  end.
  apply obeys_bind. eapply obeys_weaken;
    [apply obeys_selectorExpression, drawn_from_start | ].
  intros e st' [Hok He]. cbv beta zeta iota.
  apply obeys_bind. apply (obeys_nextToken ts); [assumption | ].
  intros t st'' Hok' Hlast Hin.
  destruct (negb (TokenType_eqb (type t) T_EOS)) eqn:Ht.
  - eapply obeys_throwParseError; [eassumption | ].
    assert (Hne : type t <> T_EOS).
    { intros Heq. rewrite Heq in Ht. discriminate. }
    right. exists t, "extra input". split; [ | split; [reflexivity | ]].
    + destruct Hin as [Hin | ->]; [exact Hin | ]. now destruct Hne.
    + left. split; [reflexivity | exact Hne].
  - destruct e; exact He.
Qed.

(** X15. Every tree [make_selector] returns is well formed: the list of
    an IN or NOT IN node has at least one element, a LIKE node holds the
    regular expression compiled from its own regex string, which
    [toRegex] gave for a pattern and an escape of at most one character,
    and every literal is a boolean, an approximate number or an exact
    number in the signed 64-bit range. *)
Theorem compiled_tree_is_well_formed (ts : list Token) (e : ValueExpression) :
  make_selector ts = Compiled (ConcreteExpression (Some e)) ->
  well_formed e.
Proof.
  intros H. pose proof (make_selector_obeys ts) as Hob.
  rewrite H in Hob. exact Hob.
Qed.

(** X16. What [make_selector] raises is the exception of the regex
    library or a [range_error] whose text is [Illegal selector: '],
    the text of a token of the input, [': ] and one of three reasons:
    [extra input], at a token that is not the end of the stream, or one
    of the two complaints about the string after ESCAPE, at that string
    (longer than one character, or [%] or [_]).  The [logic_error] of
    [toRegex] and the reasons the parser stores in [error] are never
    raised. *)
Theorem raised_exception_is_parse_error (ts : list Token) (ex : Exception) :
  make_selector ts = Raised ex -> parse_error ts ex.
Proof.
  intros H. pose proof (make_selector_obeys ts) as Hob.
  rewrite H in Hob. exact Hob.
Qed.

End InvariantTheorems.

(** X15 at [a IN (1)]. *)
Lemma compiled_tree_is_well_formed_witness :
  make_selector (C := sample)
    [mkToken T_IDENTIFIER "a"; mkToken T_IN "IN"; mkToken T_LPAREN "(";
     mkToken T_NUMERIC_EXACT "1"; mkToken T_RPAREN ")"]
  = Compiled (ConcreteExpression
                (Some (InExpression (Identifier "a") [Literal (V_EXACT 1)])))
  /\ well_formed (C := sample)
       (InExpression (Identifier "a") [Literal (V_EXACT 1)]).
Proof.
  split; [reflexivity | ].
  apply (compiled_tree_is_well_formed (C := sample)
           [mkToken T_IDENTIFIER "a"; mkToken T_IN "IN"; mkToken T_LPAREN "(";
            mkToken T_NUMERIC_EXACT "1"; mkToken T_RPAREN ")"]).
  reflexivity.
Defined.

(** X16 at [a LIKE 'x' ESCAPE 'ab']. *)
Lemma raised_exception_is_parse_error_witness :
  make_selector (C := sample)
    [mkToken T_IDENTIFIER "a"; mkToken T_LIKE "LIKE"; mkToken T_STRING "x";
     mkToken T_ESCAPE "ESCAPE"; mkToken T_STRING "ab"]
  = Raised (range_error
      "Illegal selector: 'ab': single character string required after ESCAPE")
  /\ parse_error
       [mkToken T_IDENTIFIER "a"; mkToken T_LIKE "LIKE"; mkToken T_STRING "x";
        mkToken T_ESCAPE "ESCAPE"; mkToken T_STRING "ab"]
       (range_error
      "Illegal selector: 'ab': single character string required after ESCAPE").
Proof.
  split; [reflexivity | ].
  apply (raised_exception_is_parse_error (C := sample)). reflexivity.
Defined.

(** * Reading back a printed tree *)

Section RoundTrip.

Context {C : Collaborators}.

Local Open Scope list_scope.

Lemma delivered_reads st l : delivered st l -> reads st (tl l).
Proof. unfold delivered, reads. intros ->. reflexivity. Qed.

Lemma nextToken_reads st l :
  reads st l ->
  exists st', nextToken st = Returns (hd eosToken l) st' /\ delivered st' l.
Proof.
  unfold reads, delivered, nextToken, Tokeniser_nextToken.
  destruct st as [[pb last ur] err]. cbn.
  destruct pb as [t | ].
  - intros [-> ->]. eexists. split; reflexivity.
  - intros ->. destruct l as [ | t l ]; eexists; split; reflexivity.
Qed.

Lemma returnTokens_delivered st l :
  delivered st l ->
  exists st', returnTokens st = Returns tt st' /\ reads st' l.
Proof.
  unfold reads, delivered, returnTokens, Tokeniser_returnTokens.
  destruct st as [tk err]. cbn. intros ->. cbn.
  eexists. split; [reflexivity | ]. cbn. split; reflexivity.
Qed.

Lemma yields_ret {A : Type} (a : A) st (Q : ParseState -> Prop) :
  Q st -> yields (ret a) st a Q.
Proof. intros H. right. exists st. split; [reflexivity | exact H]. Qed.

Lemma yields_bind {A B : Type} (m : M A) (k : A -> M B) st a b
  (Q R : ParseState -> Prop) :
  yields m st a Q ->
  (forall st', Q st' -> yields (k a) st' b R) ->
  yields (bind m k) st b R.
Proof.
  intros [H | (st' & H & HQ)] Hk; unfold yields, bind; rewrite H.
  - left. reflexivity.
  - exact (Hk st' HQ).
Qed.

Lemma yields_bind_ptr {A B : Type} (m : M (option A))
  (k : A -> M (option B)) st a b (Q R : ParseState -> Prop) :
  yields m st (Some a) Q ->
  (forall st', Q st' -> yields (k a) st' b R) ->
  yields (bind_ptr m k) st b R.
Proof.
  intros H Hk. unfold bind_ptr. eapply yields_bind; [exact H | ].
  exact Hk.
Qed.

Lemma yields_next {B : Type} (k : Token -> M B) st l b
  (R : ParseState -> Prop) :
  reads st l ->
  (forall st', delivered st' l -> yields (k (hd eosToken l)) st' b R) ->
  yields (bind nextToken k) st b R.
Proof.
  intros Hr Hk. destruct (nextToken_reads st l Hr) as (st' & H & Hf).
  unfold yields, bind. rewrite H. exact (Hk st' Hf).
Qed.

Lemma yields_return {B : Type} (k : unit -> M B) st l b
  (R : ParseState -> Prop) :
  delivered st l ->
  (forall st', reads st' l -> yields (k tt) st' b R) ->
  yields (bind returnTokens k) st b R.
Proof.
  intros Hf Hk. destruct (returnTokens_delivered st l Hf) as (st' & H & Hr).
  unfold yields, bind. rewrite H. exact (Hk st' Hr).
Qed.

Lemma yields_NoFuel {A : Type} st (a : A) (Q : ParseState -> Prop) :
  yields (fun _ => NoFuel) st a Q.
Proof. left. reflexivity. Qed.

Lemma after_or_and k : after_or k = true -> after_and k = true.
Proof. destruct k; cbn; congruence. Qed.

Lemma after_and_cmp k : after_and k = true -> after_cmp k = true.
Proof. destruct k; cbn; congruence. Qed.

Lemma after_cmp_add k : after_cmp k = true -> after_add k = true.
Proof. destruct k; cbn; congruence. Qed.

Lemma after_add_mul k : after_add k = true -> after_mul k = true.
Proof. destruct k; cbn; congruence. Qed.

(** The steps of a proof about a call: the budget is used up, or what
    the body does first is carried out. *)
Ltac spend fuel :=
  destruct fuel as [ | fuel ]; [ try apply yields_NoFuel; left; reflexivity | ].

Ltac take :=
  eapply yields_next;
  [ eassumption
  | let st := fresh "st" in let Hf := fresh "Hf" in let Hr := fresh "Hr" in
    intros st Hf; pose proof (delivered_reads _ _ Hf) as Hr;
    cbn [hd tl] in * ].

Ltac descend lemma :=
  eapply yields_bind_ptr;
  [ eapply lemma
  | let st := fresh "st" in let Hr := fresh "Hr" in
    intros st Hr; cbv beta in * ].

Ltac give_back :=
  eapply yields_return;
  [ eassumption
  | let st := fresh "st" in let Hr := fresh "Hr" in intros st Hr ].

Ltac by_kind H :=
  match type of H with
  | _ (next_type ?l) = true =>
      unfold next_type in H;
      destruct (type (hd eosToken l)) eqn:?; cbv in H; try discriminate H;
      cbn [TokenType_eqb negb orb andb]
  end.

(** The direct forms: a complete operand followed by a token its
    function does not take up. *)
Lemma multiply_reads_direct toks e :
  multiply_reads toks e ->
  forall fuel st rest,
    reads st (toks ++ rest) -> after_mul (next_type rest) = true ->
    yields (multiplyExpression fuel) st (Some e) (fun st' => reads st' rest).
Proof.
  intros HS fuel st rest Hr Hfol.
  apply (HS fuel st rest _ _ Hr). intros fuel' st' Hr'.
  take. spend fuel'. cbn [multiplyExpression_while].
  by_kind Hfol; give_back; apply yields_ret; assumption.
Qed.

Lemma add_reads_direct toks e :
  add_reads toks e ->
  forall fuel st rest,
    reads st (toks ++ rest) -> after_add (next_type rest) = true ->
    yields (addExpression fuel) st (Some e) (fun st' => reads st' rest).
Proof.
  intros HS fuel st rest Hr Hfol.
  apply (HS fuel st rest _ _ Hr (after_add_mul _ Hfol)). intros fuel' st' Hr'.
  take. spend fuel'. cbn [addExpression_while].
  by_kind Hfol; give_back; apply yields_ret; assumption.
Qed.

Lemma and_reads_direct toks e :
  and_reads toks e ->
  forall fuel st rest,
    reads st (toks ++ rest) -> after_and (next_type rest) = true ->
    yields (andExpression fuel) st (Some e) (fun st' => reads st' rest).
Proof.
  intros HS fuel st rest Hr Hfol.
  apply (HS fuel st rest _ _ Hr (after_and_cmp _ Hfol)). intros fuel' st' Hr'.
  spend fuel'. cbn [andExpression_while]. take.
  by_kind Hfol; give_back; apply yields_ret; assumption.
Qed.

Lemma or_reads_direct toks e :
  or_reads toks e ->
  forall fuel st rest,
    reads st (toks ++ rest) -> after_or (next_type rest) = true ->
    yields (orExpression fuel) st (Some e) (fun st' => reads st' rest).
Proof.
  intros HS fuel st rest Hr Hfol.
  apply (HS fuel st rest _ _ Hr (after_or_and _ Hfol)). intros fuel' st' Hr'.
  spend fuel'. cbn [orExpression_while]. take.
  by_kind Hfol; give_back; apply yields_ret; assumption.
Qed.

(** An operand of one level is an operand of the levels below. *)
Lemma unary_reads_multiply toks e :
  unary_reads toks e -> multiply_reads toks e.
Proof.
  intros HD fuel st rest X Q Hr Hk.
  spend fuel. cbn [multiplyExpression].
  eapply yields_bind_ptr; [exact (HD fuel st rest Hr) | ].
  intros st' Hr'. exact (Hk fuel st' Hr').
Qed.

Lemma multiply_reads_add toks e :
  multiply_reads toks e -> add_reads toks e.
Proof.
  intros HS fuel st rest X Q Hr Hfol Hk.
  spend fuel. cbn [addExpression].
  eapply yields_bind_ptr;
    [exact (multiply_reads_direct toks e HS fuel st rest Hr Hfol) | ].
  intros st' Hr'. exact (Hk fuel st' Hr').
Qed.

Lemma add_reads_comparison toks e :
  add_reads toks e ->
  (forall rest, TokenType_eqb (next_type (toks ++ rest)) T_NOT = false) ->
  comparison_reads toks e.
Proof.
  intros HS Hhd fuel st rest Hr Hfol.
  spend fuel. cbn [comparisonExpression].
  take. fold (next_type (toks ++ rest)). rewrite Hhd.
  give_back.
  eapply yields_bind_ptr;
    [ eapply (add_reads_direct toks e HS);
      [eassumption | exact (after_cmp_add _ Hfol)] | ].
  intros st' Hr'. cbv beta in *.
  take. by_kind Hfol; give_back; take;
    match goal with H : type _ = _ |- _ => rewrite H end;
    give_back; apply yields_ret; assumption.
Qed.

Lemma comparison_reads_and toks e :
  comparison_reads toks e -> and_reads toks e.
Proof.
  intros HD fuel st rest X Q Hr Hfol Hk.
  spend fuel. cbn [andExpression].
  eapply yields_bind_ptr; [exact (HD fuel st rest Hr Hfol) | ].
  intros st' Hr'. exact (Hk fuel st' Hr').
Qed.

Lemma and_reads_or toks e :
  and_reads toks e -> or_reads toks e.
Proof.
  intros HS fuel st rest X Q Hr Hfol Hk.
  spend fuel. cbn [orExpression].
  eapply yields_bind_ptr;
    [exact (and_reads_direct toks e HS fuel st rest Hr Hfol) | ].
  intros st' Hr'. exact (Hk fuel st' Hr').
Qed.

(** An operand between parentheses is an operand of [unaryArithExpression]. *)
Lemma or_reads_parenthesised toks e :
  or_reads toks e -> unary_reads (parenthesised toks) e.
Proof.
  intros HS fuel st rest Hr.
  spend fuel. cbn [unaryArithExpression].
  unfold parenthesised in Hr. cbn [app] in Hr. rewrite <- app_assoc in Hr.
  cbn [app] in Hr.
  take. cbn [keyword type].
  descend (or_reads_direct toks e HS); [eassumption | reflexivity | ].
  take. cbn [keyword type TokenType_eqb negb].
  apply yields_ret. assumption.
Qed.

Lemma opens_le lvl lvl' k :
  lvl <= lvl' -> opens lvl' k = true -> opens lvl k = true.
Proof.
  intros Hle. destruct k; cbn; try congruence;
    intros H; apply Nat.leb_le in H; apply Nat.leb_le; lia.
Qed.

Lemma print_body lvl x :
  print lvl x =
  if (level x <? lvl)%nat then parenthesised (print (level x) x)
  else print (level x) x.
Proof.
  destruct x as [ op ? ? | ? ? | ? ? | [ | | ] ? | ? ? ? | ? ? ? | ? ? | ? ?
                | [ | | | ] ? ? | [] ? | [ | | | i | ] | ? | ? ];
    cbn [print level]; rewrite ?Nat.ltb_irrefl; reflexivity.
Qed.

Lemma print_opens e :
  forall lvl rest,
    printable e = true ->
    opens lvl (next_type (print lvl e ++ rest)) = true.
Proof.
  induction e as [ op a IHa b IHb | a IHa b IHb | a IHa b IHb | op a IHa
                 | a IHa re rb | a IHa l IHl u IHu | a IHa l | a IHa l
                 | op a IHa b IHb | op a IHa | v | s | x ];
    intros lvl rest Hp; rewrite print_body;
    (match goal with
     | |- context [(level ?x <? lvl)%nat] =>
         destruct (Nat.ltb_spec (level x) lvl) as [Hlt | Hle]
     end; [reflexivity | ]);
    cbn [printable] in Hp; try discriminate Hp;
    repeat match type of Hp with
           | _ && _ = true => apply andb_prop in Hp; destruct Hp as [Hp ?]
           end;
    cbn [level] in Hle |- *; cbn [print level Nat.ltb Nat.leb].
  - rewrite <- app_assoc. eapply opens_le; [ | apply IHa; assumption]. lia.
  - rewrite <- app_assoc. eapply opens_le; [ | apply IHa; assumption]. lia.
  - rewrite <- app_assoc. eapply opens_le; [ | apply IHa; assumption]. lia.
  - destruct op; cbn [print level Nat.ltb Nat.leb].
    + rewrite <- app_assoc. eapply opens_le; [ | apply IHa; assumption]. lia.
    + rewrite <- app_assoc. eapply opens_le; [ | apply IHa; assumption]. lia.
    + cbn. apply Nat.leb_le. exact Hle.
  - rewrite <- app_assoc. eapply opens_le; [ | apply IHa; assumption]. lia.
  - rewrite <- app_assoc. eapply opens_le; [ | apply IHa; assumption]. lia.
  - rewrite <- app_assoc. eapply opens_le; [ | apply IHa; assumption]. lia.
  - destruct op; cbn [level] in Hle; cbn [print level Nat.ltb Nat.leb];
      rewrite <- app_assoc;
      (eapply opens_le; [ | apply IHa; assumption]); lia.
  - destruct op. reflexivity.
  - destruct v as [ | [ | ] | | i | ]; try discriminate Hp; try reflexivity.
    cbn [level] in Hle. destruct (0 <=? i)%Z; [ | reflexivity].
    cbn. apply Nat.leb_le. exact Hle.
  - reflexivity.
  - reflexivity.
Qed.

(** An operand of a level is an operand of every level below. *)
Lemma level_reads_le toks e k lvl :
  lvl <= k ->
  (2 < k -> forall rest,
     TokenType_eqb (next_type (toks ++ rest)) T_NOT = false) ->
  level_reads k toks e -> level_reads lvl toks e.
Proof.
  intros Hle Hhd H.
  assert (H5 : 5 <= k -> unary_reads toks e).
  { intros Hk. do 5 (destruct k as [ | k ]; [lia | ]). exact H. }
  assert (H4 : 4 <= k -> multiply_reads toks e).
  { intros Hk. destruct (Nat.eq_dec k 4) as [-> | Hne]; [exact H | ].
    apply unary_reads_multiply, H5. lia. }
  assert (H3 : 3 <= k -> add_reads toks e).
  { intros Hk. destruct (Nat.eq_dec k 3) as [-> | Hne]; [exact H | ].
    apply multiply_reads_add, H4. lia. }
  assert (H2 : 2 <= k -> comparison_reads toks e).
  { intros Hk. destruct (Nat.eq_dec k 2) as [-> | Hne]; [exact H | ].
    apply add_reads_comparison; [apply H3; lia | apply Hhd; lia]. }
  assert (H1 : 1 <= k -> and_reads toks e).
  { intros Hk. destruct (Nat.eq_dec k 1) as [-> | Hne]; [exact H | ].
    apply comparison_reads_and, H2. lia. }
  assert (H0 : or_reads toks e).
  { destruct (Nat.eq_dec k 0) as [-> | Hne]; [exact H | ].
    apply and_reads_or, H1. lia. }
  destruct lvl as [ | [ | [ | [ | [ | lvl ]]]]]; cbn [level_reads];
    [ exact H0 | apply H1 | apply H2 | apply H3 | apply H4 | apply H5 ]; lia.
Qed.

(** What is left to show for a node: that the function of its own level
    reads it. *)
Lemma node_reads e :
  printable e = true ->
  level_reads (level e) (print (level e) e) e ->
  forall lvl, level_reads lvl (print lvl e) e.
Proof.
  intros Hp H lvl.
  assert (Hhd : 2 < level e -> forall rest,
            TokenType_eqb (next_type (print (level e) e ++ rest)) T_NOT
            = false).
  { intros Hk rest. pose proof (print_opens e (level e) rest Hp) as Ho.
    destruct (next_type _); try reflexivity.
    cbn in Ho. apply Nat.leb_le in Ho. lia. }
  rewrite print_body. destruct (Nat.ltb_spec (level e) lvl) as [Hlt | Hle].
  - apply (level_reads_le _ e (5 + lvl) lvl).
    + lia.
    + intros _ rest. reflexivity.
    + cbn [Nat.add level_reads]. apply or_reads_parenthesised.
      apply (level_reads_le _ e (level e) 0); [lia | exact Hhd | exact H].
  - apply (level_reads_le _ e (level e) lvl); assumption.
Qed.

Ltac flatten H :=
  cbn [print level Nat.ltb Nat.leb app] in H;
  repeat (rewrite <- app_assoc in H; cbn [app] in H).

Lemma or_node a b :
  or_reads (print 0 a) a -> and_reads (print 1 b) b ->
  or_reads (print 0 (OrExpression a b)) (OrExpression a b).
Proof.
  intros Ha Hb fuel st rest X Q Hr Hfol Hk. flatten Hr.
  eapply (Ha fuel st _ X Q Hr); [reflexivity | ].
  intros fuel' st' Hr'. spend fuel'. cbn [orExpression_while].
  take. cbn [keyword type TokenType_eqb].
  descend (and_reads_direct _ _ Hb); [eassumption | exact Hfol | ].
  apply Hk. assumption.
Qed.

Lemma and_node a b :
  and_reads (print 1 a) a -> comparison_reads (print 2 b) b ->
  and_reads (print 1 (AndExpression a b)) (AndExpression a b).
Proof.
  intros Ha Hb fuel st rest X Q Hr Hfol Hk. flatten Hr.
  eapply (Ha fuel st _ X Q Hr); [reflexivity | ].
  intros fuel' st' Hr'. spend fuel'. cbn [andExpression_while].
  take. cbn [keyword type TokenType_eqb].
  descend Hb; [eassumption | exact Hfol | ].
  apply Hk. assumption.
Qed.

Lemma add_node op a b :
  level (ArithmeticExpression op a b) = 3 ->
  add_reads (print 3 a) a -> multiply_reads (print 4 b) b ->
  add_reads (print 3 (ArithmeticExpression op a b))
    (ArithmeticExpression op a b).
Proof.
  intros Hop Ha Hb fuel st rest X Q Hr Hfol Hk.
  destruct op; try discriminate Hop; flatten Hr;
    (eapply (Ha fuel st _ X Q Hr); [reflexivity | ]);
    intros fuel' st' Hr'; take; spend fuel'; cbn [addExpression_while];
    cbn [ArithmeticOperator_token keyword type TokenType_eqb orb];
    (descend (multiply_reads_direct _ _ Hb); [eassumption | exact Hfol | ]);
    apply Hk; assumption.
Qed.

Lemma multiply_node op a b :
  level (ArithmeticExpression op a b) = 4 ->
  multiply_reads (print 4 a) a -> unary_reads (print 5 b) b ->
  multiply_reads (print 4 (ArithmeticExpression op a b))
    (ArithmeticExpression op a b).
Proof.
  intros Hop Ha Hb fuel st rest X Q Hr Hk.
  destruct op; try discriminate Hop; flatten Hr;
    (eapply (Ha fuel st _ X Q Hr));
    intros fuel' st' Hr'; take; spend fuel'; cbn [multiplyExpression_while];
    cbn [ArithmeticOperator_token keyword type TokenType_eqb orb];
    (descend Hb; [eassumption | ]);
    apply Hk; assumption.
Qed.

Lemma opens_3_not e rest :
  printable e = true ->
  TokenType_eqb (next_type (print 3 e ++ rest)) T_NOT = false.
Proof.
  intros Hp. pose proof (print_opens e 3 rest Hp) as Ho.
  destruct (next_type _); try reflexivity. discriminate Ho.
Qed.

Lemma opens_6_numeric e rest :
  printable e = true ->
  TokenType_eqb (next_type (print 6 e ++ rest)) T_NUMERIC_EXACT = false.
Proof.
  intros Hp. pose proof (print_opens e 6 rest Hp) as Ho.
  destruct (next_type _); try reflexivity. discriminate Ho.
Qed.

(** The start of [comparisonExpression] on an operand that does not begin
    with NOT. *)
Ltac operand Hp Ha :=
  take;
  match goal with
  | |- context [TokenType_eqb (type (hd eosToken (print 3 ?a ++ ?r))) T_NOT] =>
      fold (next_type (print 3 a ++ r)); rewrite (opens_3_not a r Hp)
  end;
  give_back;
  (descend (add_reads_direct _ _ Ha); [eassumption | reflexivity | ]).

Lemma comparison_node op a b :
  printable a = true ->
  add_reads (print 3 a) a -> add_reads (print 3 b) b ->
  comparison_reads (print 2 (ComparisonExpression op a b))
    (ComparisonExpression op a b).
Proof.
  intros Hp Ha Hb fuel st rest Hr Hfol.
  spend fuel. cbn [comparisonExpression].
  destruct op; flatten Hr; operand Hp Ha;
    take; cbn [ComparisonOperator_token keyword type];
    give_back; take; cbn [ComparisonOperator_token keyword type];
    (descend (add_reads_direct _ _ Hb);
       [eassumption | exact (after_cmp_add _ Hfol) | ]);
    apply yields_ret; assumption.
Qed.

Lemma not_node a :
  comparison_reads (print 2 a) a ->
  comparison_reads (print 2 (UnaryBooleanExpression Not a))
    (UnaryBooleanExpression Not a).
Proof.
  intros Ha fuel st rest Hr Hfol.
  spend fuel. cbn [comparisonExpression]. flatten Hr.
  take. cbn [keyword type TokenType_eqb].
  descend Ha; [eassumption | exact Hfol | ].
  apply yields_ret; assumption.
Qed.

Lemma is_null_node a :
  printable a = true ->
  add_reads (print 3 a) a ->
  comparison_reads (print 2 (UnaryBooleanExpression IsNull a))
    (UnaryBooleanExpression IsNull a).
Proof.
  intros Hp Ha fuel st rest Hr Hfol.
  spend fuel. cbn [comparisonExpression]. flatten Hr. operand Hp Ha.
  take. cbn [keyword type]. take. cbn [keyword type].
  apply yields_ret; assumption.
Qed.

Lemma is_non_null_node a :
  printable a = true ->
  add_reads (print 3 a) a ->
  comparison_reads (print 2 (UnaryBooleanExpression IsNonNull a))
    (UnaryBooleanExpression IsNonNull a).
Proof.
  intros Hp Ha fuel st rest Hr Hfol.
  spend fuel. cbn [comparisonExpression]. flatten Hr. operand Hp Ha.
  take. cbn [keyword type]. take. cbn [keyword type].
  take. cbn [keyword type TokenType_eqb].
  apply yields_ret; assumption.
Qed.

Lemma between_node a l u :
  printable a = true ->
  add_reads (print 3 a) a -> add_reads (print 3 l) l ->
  add_reads (print 3 u) u ->
  comparison_reads (print 2 (BetweenExpression a l u))
    (BetweenExpression a l u).
Proof.
  intros Hp Ha Hl Hu fuel st rest Hr Hfol.
  spend fuel. cbn [comparisonExpression]. flatten Hr. operand Hp Ha.
  take. cbn [keyword type]. give_back.
  spend fuel. cbn [specialComparisons].
  take. cbn [keyword type].
  descend (add_reads_direct _ _ Hl); [eassumption | reflexivity | ].
  take. cbn [keyword type TokenType_eqb negb].
  descend (add_reads_direct _ _ Hu);
    [eassumption | exact (after_cmp_add _ Hfol) | ].
  apply yields_ret; assumption.
Qed.

Lemma negate_node a :
  printable a = true ->
  unary_reads (print 6 a) a ->
  unary_reads (print 6 (UnaryArithExpression Negate a))
    (UnaryArithExpression Negate a).
Proof.
  intros Hp Ha fuel st rest Hr.
  spend fuel. cbn [unaryArithExpression]. flatten Hr.
  take. cbn [keyword type]. take.
  match goal with
  | |- context [TokenType_eqb (type (hd eosToken ?l)) T_NUMERIC_EXACT] =>
      fold (next_type l); rewrite (opens_6_numeric a rest Hp)
  end.
  give_back. descend Ha; [eassumption | ].
  apply yields_ret; assumption.
Qed.

Lemma string_node s :
  unary_reads (print 6 (StringLiteral s)) (StringLiteral s).
Proof.
  intros fuel st rest Hr.
  spend fuel. cbn [unaryArithExpression]. flatten Hr.
  take. cbn [type]. give_back. unfold primaryExpression. take. cbn [type val].
  apply yields_ret; assumption.
Qed.

Lemma identifier_node x :
  unary_reads (print 6 (Identifier x)) (Identifier x).
Proof.
  intros fuel st rest Hr.
  spend fuel. cbn [unaryArithExpression]. flatten Hr.
  take. cbn [type]. give_back. unfold primaryExpression. take. cbn [type val].
  apply yields_ret; assumption.
Qed.

Lemma bool_node b :
  unary_reads (print 6 (Literal (V_BOOL b))) (Literal (V_BOOL b)).
Proof.
  intros fuel st rest Hr.
  spend fuel. cbn [unaryArithExpression].
  destruct b; flatten Hr;
    take; cbn [keyword type]; give_back; unfold primaryExpression; take;
    cbn [keyword type val]; apply yields_ret; assumption.
Qed.

Lemma decimal_value (i : Z) :
  (0 <= i <= INT64_MAX)%Z ->
  exactNumeric_value (val (decimal i)) false = Some i.
Proof.
  intros Hi. unfold decimal. cbn [val].
  destruct i as [ | p | p ]; [reflexivity | | lia].
  cbn [Z.to_N N.to_uint]. rewrite exactNumeric_value_of_pos.
  unfold decimal_literal_value.
  destruct (Z.leb_spec (Z.pos p) INT64_MAX); [reflexivity | lia].
Qed.

Lemma decimal_value_negated (i : Z) :
  (INT64_MIN <= i < 0)%Z ->
  exactNumeric_value (val (decimal (- i))) true = Some i.
Proof.
  intros Hi. unfold decimal. cbn [val].
  destruct i as [ | p | p ]; [lia | lia | ].
  cbn [Z.opp Z.to_N N.to_uint]. rewrite exactNumeric_value_of_pos.
  unfold decimal_literal_value.
  change (Z.pos p) with (- Z.neg p)%Z.
  destruct (Z.leb_spec (- Z.neg p) INT64_MAX).
  - reflexivity.
  - cbn [andb]. unfold INT64_MIN, INT64_MAX in *.
    destruct (Z.eqb_spec (- Z.neg p) (9223372036854775807 + 1)); [ | lia].
    f_equal. lia.
Qed.

Lemma exact_node i :
  printable (Literal (V_EXACT i)) = true ->
  unary_reads (print (level (Literal (V_EXACT i))) (Literal (V_EXACT i)))
    (Literal (V_EXACT i)).
Proof.
  intros Hp fuel st rest Hr. cbn [printable] in Hp.
  apply andb_prop in Hp as [Hlo Hhi].
  apply Z.leb_le in Hlo. apply Z.leb_le in Hhi.
  rewrite print_body, Nat.ltb_irrefl in Hr.
  spend fuel. cbn [unaryArithExpression].
  cbn [print level] in Hr. destruct (Z.leb_spec 0 i) as [Hpos | Hneg].
  - rewrite Nat.ltb_irrefl in Hr. cbn [app] in Hr.
    take. cbn [decimal type]. give_back. unfold primaryExpression. take.
    cbn [decimal type]. unfold parseExactNumeric.
    rewrite (decimal_value i) by lia.
    apply yields_ret; assumption.
  - rewrite Nat.ltb_irrefl in Hr. cbn [app] in Hr.
    take. cbn [keyword type]. take. cbn [decimal type TokenType_eqb].
    unfold parseExactNumeric.
    rewrite (decimal_value_negated i) by lia.
    apply yields_ret; assumption.
Qed.

Lemma print_InExpression e v l :
  print 2 (InExpression e (v :: l)) =
  print 3 e ++ keyword T_IN :: keyword T_LPAREN ::
  (print 3 v ++ print_more l) ++ [keyword T_RPAREN].
Proof. reflexivity. Qed.

Lemma print_NotInExpression e v l :
  print 2 (NotInExpression e (v :: l)) =
  print 3 e ++ keyword T_NOT :: keyword T_IN :: keyword T_LPAREN ::
  (print 3 v ++ print_more l) ++ [keyword T_RPAREN].
Proof. reflexivity. Qed.

(** The [do] loop on a list of operands. *)
Lemma list_reads l :
  Forall (fun v => add_reads (print 3 v) v) l ->
  forall v, add_reads (print 3 v) v ->
  forall fuel st acc rest,
    reads st (print 3 v ++ print_more l ++ keyword T_RPAREN :: rest) ->
    yields (specialComparisons_do fuel acc) st (Some (acc ++ v :: l))
      (fun st' => delivered st' (keyword T_RPAREN :: rest)).
Proof.
  induction 1 as [ | w l Hw Hl IH ]; intros v Hv fuel st acc rest Hr;
    spend fuel; cbn [specialComparisons_do];
    cbn [print_more app] in Hr.
  - descend (add_reads_direct _ _ Hv); [eassumption | reflexivity | ].
    take. cbn [keyword type TokenType_eqb].
    apply yields_ret; assumption.
  - descend (add_reads_direct _ _ Hv); [eassumption | reflexivity | ].
    take. cbn [keyword type TokenType_eqb].
    replace (acc ++ v :: w :: l) with ((acc ++ [v]) ++ w :: l)
      by (rewrite <- app_assoc; reflexivity).
    apply IH; [exact Hw | ].
    rewrite app_assoc. assumption.
Qed.

Lemma in_node a v l :
  printable a = true ->
  add_reads (print 3 a) a ->
  Forall (fun v => add_reads (print 3 v) v) (v :: l) ->
  comparison_reads (print 2 (InExpression a (v :: l)))
    (InExpression a (v :: l)).
Proof.
  intros Hp Ha Hl fuel st rest Hr Hfol.
  rewrite print_InExpression in Hr.
  repeat (rewrite <- app_assoc in Hr; cbn [app] in Hr).
  inversion Hl as [ | ? ? Hv Hl' ]; subst.
  spend fuel. cbn [comparisonExpression]. operand Hp Ha.
  take. cbn [keyword type]. give_back.
  spend fuel. cbn [specialComparisons].
  take. cbn [keyword type]. take. cbn [keyword type TokenType_eqb negb].
  descend (list_reads l Hl' v Hv); [eassumption | ].
  give_back. take. cbn [keyword type TokenType_eqb negb app].
  apply yields_ret; assumption.
Qed.

Lemma not_in_node a v l :
  printable a = true ->
  add_reads (print 3 a) a ->
  Forall (fun v => add_reads (print 3 v) v) (v :: l) ->
  comparison_reads (print 2 (NotInExpression a (v :: l)))
    (NotInExpression a (v :: l)).
Proof.
  intros Hp Ha Hl fuel st rest Hr Hfol.
  rewrite print_NotInExpression in Hr.
  repeat (rewrite <- app_assoc in Hr; cbn [app] in Hr).
  inversion Hl as [ | ? ? Hv Hl' ]; subst.
  spend fuel. cbn [comparisonExpression]. operand Hp Ha.
  take. cbn [keyword type].
  spend fuel. cbn [specialComparisons].
  take. cbn [keyword type]. take. cbn [keyword type TokenType_eqb negb].
  descend (list_reads l Hl' v Hv); [eassumption | ].
  give_back. take. cbn [keyword type TokenType_eqb negb app].
  apply yields_ret; assumption.
Qed.

Lemma operands_read l :
  Forall (fun v => printable v = true ->
                   forall lvl, level_reads lvl (print lvl v) v) l ->
  forallb printable l = true ->
  Forall (fun v => add_reads (print 3 v) v) l.
Proof.
  induction 1 as [ | v l Hv Hl IH ]; intros Hp; constructor;
    cbn [forallb] in Hp; apply andb_prop in Hp as [Hp1 Hp2].
  - exact (Hv Hp1 3).
  - exact (IH Hp2).
Qed.

Ltac split_printable Hp :=
  cbn [printable] in Hp;
  repeat match type of Hp with
         | _ && _ = true =>
             let H := fresh "Hp" in apply andb_prop in Hp as [Hp H]
         end.

(** The function of each level reads the printed form of a tree as the
    tree. *)
Lemma print_reads e :
  printable e = true -> forall lvl, level_reads lvl (print lvl e) e.
Proof.
  induction e as [ op a b IHa IHb | a b IHa IHb | a b IHa IHb | op a IHa
                 | a re rb IHa | a l u IHa IHl IHu | a l IHa IHl
                 | a l IHa IHl | op a b IHa IHb | op a IHa | v | s | x ]
    using ValueExpression_nested_ind;
    intros Hp; apply node_reads; try exact Hp; split_printable Hp.
  - apply comparison_node; [assumption | exact (IHa Hp 3) | exact (IHb Hp0 3)].
  - exact (or_node a b (IHa Hp 0) (IHb Hp0 1)).
  - exact (and_node a b (IHa Hp 1) (IHb Hp0 2)).
  - destruct op.
    + exact (is_null_node a Hp (IHa Hp 3)).
    + exact (is_non_null_node a Hp (IHa Hp 3)).
    + exact (not_node a (IHa Hp 2)).
  - discriminate Hp.
  - exact (between_node a l u Hp (IHa Hp 3) (IHl Hp1 3) (IHu Hp0 3)).
  - destruct l as [ | v l ]; [discriminate | ].
    exact (in_node a v l Hp (IHa Hp 3) (operands_read _ IHl Hp0)).
  - destruct l as [ | v l ]; [discriminate | ].
    exact (not_in_node a v l Hp (IHa Hp 3) (operands_read _ IHl Hp0)).
  - destruct op.
    + exact (add_node Add a b eq_refl (IHa Hp 3) (IHb Hp0 4)).
    + exact (add_node Sub a b eq_refl (IHa Hp 3) (IHb Hp0 4)).
    + exact (multiply_node Mult a b eq_refl (IHa Hp 4) (IHb Hp0 5)).
    + exact (multiply_node Div a b eq_refl (IHa Hp 4) (IHb Hp0 5)).
  - destruct op. exact (negate_node a Hp (IHa Hp 6)).
  - destruct v as [ | b | | i | ]; try discriminate Hp.
    + exact (bool_node b).
    + replace (level_reads (level (Literal (V_EXACT i)))) with unary_reads
        by (cbn [level]; destruct (0 <=? i)%Z; reflexivity).
      apply exact_node. exact Hp.
  - exact (string_node s).
  - exact (identifier_node x).
Qed.

Lemma reads_start ts err : reads (mkParseState (newTokeniser ts) err) ts.
Proof. reflexivity. Qed.

(** From [orExpression] to [selectorExpression], on tokens that do not
    begin with the end of the stream. *)
Lemma selector_yields ts e rest fuel :
  TokenType_eqb (next_type ts) T_EOS = false ->
  (forall st, reads st ts ->
     yields (orExpression fuel) st (Some e) (fun st' => reads st' rest)) ->
  yields (selectorExpression fuel) (mkParseState (newTokeniser ts) "")
    (Some e) (fun st' => reads st' rest).
Proof.
  intros Hhd Hor. pose proof (reads_start ts "") as Hr.
  unfold selectorExpression. take. fold (next_type ts). rewrite Hhd.
  give_back. apply Hor. assumption.
Qed.

Lemma selector_returns ts e rest :
  yields (selectorExpression (fuel_for ts)) (mkParseState (newTokeniser ts) "")
    (Some e) (fun st' => reads st' rest) ->
  exists st', selectorExpression (fuel_for ts)
                (mkParseState (newTokeniser ts) "") = Returns (Some e) st'
              /\ reads st' rest.
Proof.
  intros [Hno | H]; [ | exact H].
  pose proof (finishes_selectorExpression ts) as Hfin.
  unfold finishes in Hfin. rewrite Hno in Hfin. contradiction.
Qed.

Lemma make_selector_compiled ts e :
  yields (selectorExpression (fuel_for ts)) (mkParseState (newTokeniser ts) "")
    (Some e) (fun st' => reads st' []) ->
  make_selector ts = Compiled (ConcreteExpression (Some e)).
Proof.
  intros Hy. destruct (selector_returns ts e [] Hy) as (st' & Hret & Hr).
  destruct (nextToken_reads st' [] Hr) as (st'' & Hn & _).
  unfold make_selector, bind. rewrite Hret, Hn. reflexivity.
Qed.

Lemma make_selector_extra_input ts e t rest :
  yields (selectorExpression (fuel_for ts)) (mkParseState (newTokeniser ts) "")
    (Some e) (fun st' => reads st' (t :: rest)) ->
  TokenType_eqb (type t) T_EOS = false ->
  make_selector ts =
  Raised (range_error
            ((("Illegal selector: '" ++ val t) ++ "': ") ++ "extra input")%string).
Proof.
  intros Hy Ht. destruct (selector_returns ts e _ Hy) as (st' & Hret & Hr).
  destruct (nextToken_reads st' _ Hr) as (st'' & Hn & Hf).
  unfold make_selector, bind. rewrite Hret, Hn. cbn [hd]. rewrite Ht.
  cbn [negb]. unfold delivered in Hf. cbn [hd tl] in Hf.
  unfold throwParseError, bind, returnTokens, nextToken,
    Tokeniser_returnTokens, Tokeniser_nextToken, throw.
  rewrite Hf. reflexivity.
Qed.

Lemma print_not_EOS e rest :
  printable e = true ->
  TokenType_eqb (next_type (print 0 e ++ rest)) T_EOS = false.
Proof.
  intros Hp. pose proof (print_opens e 0 rest Hp) as Ho.
  destruct (next_type _); try reflexivity. discriminate Ho.
Qed.

(** X17. Reading back a printed tree: for every tree without a LIKE
    node, with literals that are booleans or exact numbers of 64 bits and
    with lists of at least one element, the tokens [print] writes for it
    (operators of one level associating to the left, parentheses around
    an operand of a lower level only, a negative number as a minus and
    its decimal numeral) compile to that very tree. *)
Theorem parse_of_print (e : ValueExpression) :
  printable e = true ->
  make_selector (print 0 e) = Compiled (ConcreteExpression (Some e)).
Proof.
  intros Hp.
  pose proof (print_reads e Hp 0) as Hor. cbn [level_reads] in Hor.
  apply make_selector_compiled, selector_yields.
  - rewrite <- (app_nil_r (print 0 e)). exact (print_not_EOS e [] Hp).
  - intros st Hr. rewrite <- (app_nil_r (print 0 e)) in Hr.
    eapply (or_reads_direct _ _ Hor); [eassumption | reflexivity].
Qed.

(** X18. The printed form of a tree that [print] covers (so a selector
    without LIKE), followed by a token [t] whose kind is not an arithmetic
    or comparison operator, IS, NOT, BETWEEN, LIKE, IN, AND, OR or the
    end of the stream, and then by any tokens, is refused:
    [make_selector] raises a [range_error] that quotes the text of [t],
    with the reason [extra input]. *)
Theorem extra_input_names_the_token (e : ValueExpression) (t : Token)
  (rest : list Token) :
  printable e = true ->
  after_or (type t) = true ->
  type t <> T_EOS ->
  make_selector (print 0 e ++ t :: rest) =
  Raised (range_error
            ((("Illegal selector: '" ++ val t) ++ "': ") ++ "extra input")%string).
Proof.
  intros Hp Hfol Ht.
  pose proof (print_reads e Hp 0) as Hor. cbn [level_reads] in Hor.
  eapply make_selector_extra_input; [apply selector_yields | ].
  - exact (print_not_EOS e _ Hp).
  - intros st Hr.
    eapply (or_reads_direct _ _ Hor); [eassumption | exact Hfol].
  - destruct (type t); try reflexivity. now destruct Ht.
Qed.

Lemma like_clause_reads a like escape negated reString regexBuffer :
  printable a = true ->
  admissible_escape escape = true ->
  toRegex like (escape_string escape) = inr reString ->
  regex_new reString = Some regexBuffer ->
  forall fuel st,
    reads st (print 3 a ++ like_clause negated like escape) ->
    yields (comparisonExpression fuel) st
      (Some (if negated
             then UnaryBooleanExpression Not
                    (LikeExpression a reString regexBuffer)
             else LikeExpression a reString regexBuffer))
      (fun st' => reads st' []).
Proof.
  intros Hp Hesc Hre Hnew fuel st Hr.
  pose proof (print_reads a Hp 3) as Ha. cbn [level_reads] in Ha.
  assert (Hlike : forall st' (k : ValueExpression -> M (option ValueExpression))
                    X Q,
            yields (k (LikeExpression a reString regexBuffer)) st' X Q ->
            yields (l <- new_LikeExpression a like (escape_string escape) ;; k l)
              st' X Q).
  { intros st' k X Q Hk. unfold yields, bind, new_LikeExpression in *.
    rewrite Hre, Hnew. exact Hk. }
  unfold like_clause in Hr.
  spend fuel. cbn [comparisonExpression].
  destruct negated; cbn [app] in Hr; operand Hp Ha;
    take; cbn [keyword type]; try give_back;
    spend fuel; cbn [specialComparisons];
    take; cbn [keyword type]; take; cbn [type TokenType_eqb negb];
    (destruct escape as [c | ]; cbn [admissible_escape escape_string] in *;
     [ apply andb_prop in Hesc as [Hlen Hch];
       apply negb_true_iff in Hlen; apply negb_true_iff in Hch;
       take; cbn [keyword type TokenType_eqb negb];
       take; cbn [type val TokenType_eqb negb]; rewrite Hlen, Hch
     | take; cbn [type eosToken TokenType_eqb]; give_back ]);
    apply Hlike; apply yields_ret; assumption.
Qed.

(** At the end of the tokens the loops of [andExpression] and
    [orExpression] have nothing to take up. *)
Lemma or_of_comparison_at_end ts e :
  (forall fuel st, reads st ts ->
     yields (comparisonExpression fuel) st (Some e)
       (fun st' => reads st' [])) ->
  forall fuel st, reads st ts ->
    yields (orExpression fuel) st (Some e) (fun st' => reads st' []).
Proof.
  intros Hc fuel st Hr.
  spend fuel. cbn [orExpression].
  eapply yields_bind_ptr with (Q := fun st' => reads st' []).
  - spend fuel. cbn [andExpression].
    eapply yields_bind_ptr; [apply Hc; eassumption | ].
    intros st' Hr'. cbv beta in *.
    spend fuel. cbn [andExpression_while]. take.
    cbn [type eosToken TokenType_eqb]. give_back.
    apply yields_ret. assumption.
  - intros st' Hr'. cbv beta in *.
    spend fuel. cbn [orExpression_while]. take.
    cbn [type eosToken TokenType_eqb]. give_back.
    apply yields_ret. assumption.
Qed.

(** X19. [a LIKE 'pattern'] and [a NOT LIKE 'pattern'], with or without
    [ESCAPE 'c'] for a string [c] of at most one character that is not
    [%] or [_], compile to a LIKE node on the operand [a] (under a NOT
    node when negated) that holds [toRegex] of the pattern and the escape
    and the regular expression the regex library makes of it, when it
    makes one. *)
Theorem like_selector (a : ValueExpression) (like : string)
  (escape : option string) (negated : bool)
  (reString : string) (regexBuffer : regex) :
  printable a = true ->
  admissible_escape escape = true ->
  toRegex like (escape_string escape) = inr reString ->
  regex_new reString = Some regexBuffer ->
  make_selector (print 3 a ++ like_clause negated like escape) =
  Compiled (ConcreteExpression
              (Some (if negated
                     then UnaryBooleanExpression Not
                            (LikeExpression a reString regexBuffer)
                     else LikeExpression a reString regexBuffer))).
Proof.
  intros Hp Hesc Hre Hnew.
  apply make_selector_compiled, selector_yields.
  - pose proof (print_opens a 3 (like_clause negated like escape) Hp) as Ho.
    destruct (next_type _); try reflexivity; discriminate Ho.
  - apply or_of_comparison_at_end. intros fuel st Hr.
    exact (like_clause_reads a like escape negated reString regexBuffer
             Hp Hesc Hre Hnew fuel st Hr).
Qed.

End RoundTrip.

(** X17 at
    [a OR NOT b IN (1, -2) AND c * (d - -(3)) >= 's'].  *)
Lemma parse_of_print_witness :
  let e : ValueExpression (C := sample) :=
    OrExpression (Identifier "a")
      (AndExpression
         (UnaryBooleanExpression Not
            (InExpression (Identifier "b")
               [Literal (V_EXACT 1); Literal (V_EXACT (-2))]))
         (ComparisonExpression Greq
            (ArithmeticExpression Mult (Identifier "c")
               (ArithmeticExpression Sub (Identifier "d")
                  (UnaryArithExpression Negate (Literal (V_EXACT 3)))))
            (StringLiteral "s"))) in
  printable e = true /\
  List.map type (print 0 e) =
    [T_IDENTIFIER; T_OR; T_NOT; T_IDENTIFIER; T_IN; T_LPAREN;
     T_NUMERIC_EXACT; T_COMMA; T_MINUS; T_NUMERIC_EXACT; T_RPAREN; T_AND;
     T_IDENTIFIER; T_MULT; T_LPAREN; T_IDENTIFIER; T_MINUS; T_MINUS;
     T_LPAREN; T_NUMERIC_EXACT; T_RPAREN; T_RPAREN; T_GREQ; T_STRING] /\
  make_selector (print 0 e) = Compiled (ConcreteExpression (Some e)).
Proof.
  intros e. split; [reflexivity | split; [reflexivity | ]].
  apply (parse_of_print e). reflexivity.
Defined.

(** X18 at [a )]. *)
Lemma extra_input_names_the_token_witness :
  make_selector (C := sample)
    [mkToken T_IDENTIFIER "a"; mkToken T_RPAREN ")"]
  = Raised (range_error "Illegal selector: ')': extra input").
Proof.
  apply (extra_input_names_the_token (C := sample) (Identifier "a")
           (mkToken T_RPAREN ")") []).
  - reflexivity.
  - reflexivity.
  - discriminate.
Defined.

(** X19 at [a NOT LIKE 'a\_%' ESCAPE '\']. *)
Lemma like_selector_witness :
  make_selector (C := sample)
    [mkToken T_IDENTIFIER "a"; mkToken T_NOT "NOT"; mkToken T_LIKE "LIKE";
     mkToken T_STRING "a\_%"; mkToken T_ESCAPE "ESCAPE"; mkToken T_STRING "\"]
  = Compiled
      (ConcreteExpression
         (Some (UnaryBooleanExpression Not
                  (LikeExpression (Identifier "a") "^a_.*$"
                     [ReBegin; ReOne (ReChar "a"); ReOne (ReChar "_");
                      ReStar ReAny; ReEnd])))).
Proof.
  apply (like_selector (C := sample) (Identifier "a") "a\_%" (Some "\")
           true "^a_.*$"
           [ReBegin; ReOne (ReChar "a"); ReOne (ReChar "_");
            ReStar ReAny; ReEnd]).
  - reflexivity.
  - reflexivity.
  - reflexivity.
  - reflexivity.
Defined.

(** * The printed form of IN and NOT IN *)

Section ReprLists.

Context {C : Collaborators}.

Variable Value_repr : Value double -> string.

#[local] Abbreviation repr := (repr Value_repr).

Lemma repr_for_join (size : nat) (li : list string) :
  forall i os,
    i + List.length li = size ->
    repr_for size i li os =
    os ++ match li with
          | [] => ""
          | _ => String.concat ", " li ++ ")"
          end.
Proof.
  induction li as [ | r rest IH ]; intros i os Hn; cbn [repr_for].
  - now rewrite string_app_nil_r.
  - cbn [List.length] in Hn. rewrite IH by lia.
    destruct rest as [ | r' rest ].
    + cbn [List.length] in Hn.
      replace (i <? size - 1)%nat with false
        by (symmetry; apply Nat.ltb_ge; lia).
      cbn [String.concat]. rewrite string_app_nil_r.
      now rewrite string_app_assoc.
    + cbn [List.length] in Hn.
      replace (i <? size - 1)%nat with true
        by (symmetry; apply Nat.ltb_lt; lia).
      cbn [String.concat]. now rewrite !string_app_assoc.
Qed.

(** X20. The printed form of [e IN (l)] and of [e NOT IN (l)]: the
    printed form of [e], the keyword and an opening parenthesis, then the
    printed forms of the elements separated by a comma and a space and a
    closing parenthesis; for an empty list, which the parser never
    builds, nothing follows the opening parenthesis. *)
Theorem repr_of_lists (e : ValueExpression) (l : list ValueExpression) :
  repr (InExpression e l) =
    repr e ++ " IN (" ++
    match l with
    | [] => ""
    | _ => String.concat ", " (map repr l) ++ ")"
    end /\
  repr (NotInExpression e l) =
    repr e ++ " NOT IN (" ++
    match l with
    | [] => ""
    | _ => String.concat ", " (map repr l) ++ ")"
    end.
Proof.
  cbn [repr].
  rewrite !repr_for_join by (rewrite length_map; reflexivity).
  rewrite !string_app_assoc. destruct l; split; reflexivity.
Qed.

End ReprLists.
